(** * GPTQ layer compressor: a shallow embedding of [gptq_wrapper.py]

    The development follows
    [src/llmcompressor/modifiers/quantization/gptq/utils/gptq_wrapper.py]:
    the Hessian accumulator ([add_batch]), the activation-order permuter
    ([_apply_activation_ordering]), the blockwise quantize-and-correct
    scan of [compress] and the session life cycle ([free]).

    Floating-point tensors are embedded over an exact ordered field (the
    record [Scalar]); every tensor is a nested list, built by comprehension
    over its index ranges, as the slicing statements of the source are. *)

From Stdlib Require Import String.
From Stdlib Require Import List Arith ZArith Lia Bool.
From Stdlib Require Import Permutation Sorted.
From Stdlib Require Import QArith Qcanon Qround.
From Stdlib Require Import Field Ring.
Import ListNotations.

Set Implicit Arguments.
Local Open Scope nat_scope.

(** ** The scalar type

    [torch.float32] values are embedded in an ordered field with decidable
    equality.  [ssqrt] stands for [math.sqrt] and for the square roots taken
    inside [torch.linalg.cholesky]; no law is imposed on it here, the
    theorems that need exactness of a square root say so. *)

Record Scalar : Type := MkScalar {
  car :> Type;
  s0 : car;
  s1 : car;
  sadd : car -> car -> car;
  smul : car -> car -> car;
  ssub : car -> car -> car;
  sopp : car -> car;
  sdiv : car -> car -> car;
  sinv : car -> car;
  seqb : car -> car -> bool;
  sleb : car -> car -> bool;
  ssqrt : car -> car;
  s_field : field_theory s0 s1 sadd smul ssub sopp sdiv sinv eq;
  seqb_spec : forall x y, seqb x y = true <-> x = y;
  sleb_refl : forall x, sleb x x = true;
  sleb_trans : forall x y z, sleb x y = true -> sleb y z = true -> sleb x z = true;
  sleb_antisym : forall x y, sleb x y = true -> sleb y x = true -> x = y;
  sleb_total : forall x y, sleb x y = true \/ sleb y x = true;
  sleb_add : forall x y z, sleb x y = true -> sleb (sadd x z) (sadd y z) = true;
  sleb_mul : forall x y, sleb s0 x = true -> sleb s0 y = true -> sleb s0 (smul x y) = true
}.

Arguments s0 {_}.
Arguments s1 {_}.
Arguments sadd {_} _ _.
Arguments smul {_} _ _.
Arguments ssub {_} _ _.
Arguments sopp {_} _.
Arguments sdiv {_} _ _.
Arguments sinv {_} _.
Arguments seqb {_} _ _.
Arguments sleb {_} _ _.
Arguments ssqrt {_} _.

Declare Scope scalar_scope.
Delimit Scope scalar_scope with S.
Notation "0" := s0 : scalar_scope.
Notation "1" := s1 : scalar_scope.
Infix "+" := sadd : scalar_scope.
Infix "*" := smul : scalar_scope.
Infix "-" := ssub : scalar_scope.
Infix "/" := sdiv : scalar_scope.
Notation "- x" := (sopp x) : scalar_scope.

(** The rationals in canonical form are the scalars every concrete run
    below is evaluated on. *)

Definition Qc_eqb (x y : Qc) : bool := Qeq_bool (this x) (this y).
Definition Qc_leb (x y : Qc) : bool := Qle_bool (this x) (this y).

(** A square root on the rationals: exact on squares of rationals, the
    quotient of the integer square roots elsewhere. *)
Definition Qc_sqrt (x : Qc) : Qc :=
  Q2Qc (Z.sqrt (Qnum (this x)) # Pos.of_nat (Z.to_nat (Z.sqrt (Zpos (Qden (this x)))))).

Lemma Qc_eqb_spec : forall x y, Qc_eqb x y = true <-> x = y.
Proof.
  intros x y; unfold Qc_eqb; rewrite Qeq_bool_iff; split.
  - apply Qc_is_canon.
  - intros ->; reflexivity.
Qed.

Lemma Qc_leb_iff : forall x y, Qc_leb x y = true <-> (x <= y)%Qc.
Proof. intros x y; unfold Qc_leb, Qcle; apply Qle_bool_iff. Qed.

Lemma Qc_leb_total : forall x y, Qc_leb x y = true \/ Qc_leb y x = true.
Proof.
  intros x y; rewrite !Qc_leb_iff.
  destruct (Qclt_le_dec x y) as [Hlt | Hle]; [left; apply Qclt_le_weak | right]; assumption.
Qed.

Lemma Qc_leb_add : forall x y z,
  Qc_leb x y = true -> Qc_leb (x + z)%Qc (y + z)%Qc = true.
Proof.
  intros x y z; rewrite !Qc_leb_iff; intros H.
  apply Qcplus_le_compat; [assumption | apply Qcle_refl].
Qed.

Lemma Qc_leb_mul : forall x y,
  Qc_leb 0%Qc x = true -> Qc_leb 0%Qc y = true -> Qc_leb 0%Qc (x * y)%Qc = true.
Proof.
  intros x y; rewrite !Qc_leb_iff; intros Hx Hy.
  replace 0%Qc with (0 * y)%Qc by ring.
  apply Qcmult_le_compat_r; assumption.
Qed.

Definition QcS : Scalar :=
  {| car := Qc; s0 := 0%Qc; s1 := 1%Qc;
     sadd := Qcplus; smul := Qcmult; ssub := Qcminus; sopp := Qcopp;
     sdiv := Qcdiv; sinv := Qcinv;
     seqb := Qc_eqb; sleb := Qc_leb; ssqrt := Qc_sqrt;
     s_field := Qcft;
     seqb_spec := Qc_eqb_spec;
     sleb_refl := fun x => proj2 (Qc_leb_iff x x) (Qcle_refl x);
     sleb_trans := fun x y z H1 H2 =>
       proj2 (Qc_leb_iff x z)
         (Qcle_trans x y z (proj1 (Qc_leb_iff x y) H1) (proj1 (Qc_leb_iff y z) H2));
     sleb_antisym := fun x y H1 H2 =>
       Qcle_antisym x y (proj1 (Qc_leb_iff x y) H1) (proj1 (Qc_leb_iff y x) H2);
     sleb_total := Qc_leb_total;
     sleb_add := Qc_leb_add;
     sleb_mul := Qc_leb_mul |}.

(** ** Python-level outcomes *)

Inductive exn : Type :=
| ValueError (msg : string)
| LinAlgError
| AttributeError (attr : string)
| IndexError
| ZeroDivisionError
| RuntimeError (msg : string).

Inductive result (A : Type) : Type :=
| Ok (a : A)
| Raise (e : exn).

Arguments Ok {A} a.
Arguments Raise {A} e.

Definition bind {A B : Type} (m : result A) (k : A -> result B) : result B :=
  match m with
  | Ok a => k a
  | Raise e => Raise e
  end.

Notation "'do' x <- m ; k" := (bind m (fun x => k))
  (at level 10, x pattern, m at level 100, k at level 200).

(** What a method call leaves behind: it returned, or it raised. *)
Inductive outcome : Type :=
| Returned
| Raised (e : exn).

(** A loop body run over a Python [range], stopping at the first raise. *)
Fixpoint for_each {A S : Type} (body : A -> S -> result S) (xs : list A) (s : S) : result S :=
  match xs with
  | [] => Ok s
  | x :: xs' => do s' <- body x s; for_each body xs' s'
  end.

(** ** Configuration enumerations of [compressed_tensors] *)

Inductive QuantizationStrategy : Type :=
| TENSOR
| CHANNEL
| GROUP
| OtherStrategy (name : string).

Inductive ActivationOrdering : Type :=
| ActGROUP
| ActWEIGHT.

Record QuantizationArgs : Type := MkArgs {
  num_bits : nat;
  strategy : QuantizationStrategy;
  actorder : option ActivationOrdering;
  group_size : Z
}.

Inductive LayerKind : Type :=
| Linear
| Conv1D
| Conv2d.

Definition strategy_is_GROUP (s : QuantizationStrategy) : bool :=
  match s with GROUP => true | _ => false end.

(** [range(0, stop, step)] of the block loop: a zero step raises, a negative
    one yields no iteration. *)
Definition range_blocks (stop : nat) (step : Z) : result (list nat) :=
  if (step =? 0)%Z then Raise (ValueError "range() arg 3 must not be zero")
  else if (step <? 0)%Z then Ok []
  else
    let bs := Z.to_nat step in
    Ok (map (fun k => k * bs) (seq 0 ((stop + bs - 1) / bs))).

(** [torch.argsort] as a stable insertion sort of the indices [0 .. n-1];
    [before i j] says index [i] may stand before index [j]. *)
Fixpoint insert_by (before : nat -> nat -> bool) (i : nat) (l : list nat) : list nat :=
  match l with
  | [] => [i]
  | j :: l' => if before i j then i :: l else j :: insert_by before i l'
  end.

Definition argsort_by (before : nat -> nat -> bool) (n : nat) : list nat :=
  fold_right (insert_by before) [] (seq 0 n).

(** [torch.argsort(perm)] on an integer tensor, ascending. *)
Definition argsort_nat (p : list nat) : list nat :=
  argsort_by (fun i j => nth i p 0 <=? nth j p 0) (length p).

(** ** Dense tensors *)

Section Tensors.

Variable K : Scalar.

Local Open Scope scalar_scope.

Definition vec : Type := list K.
Definition mat : Type := list (list K).

(** [M[r, c]] *)
Definition entry (M : mat) (r c : nat) : K := nth c (nth r M []) 0.

(** A tensor written as a comprehension over its index ranges. *)
Definition mk_vec (n : nat) (f : nat -> K) : vec := map f (seq 0 n).
Definition mk_mat (m n : nat) (f : nat -> nat -> K) : mat :=
  map (fun r => map (f r) (seq 0 n)) (seq 0 m).

(** [M.shape[0]] and [M.shape[1]] *)
Definition nrows (M : mat) : nat := length M.
Definition ncols (M : mat) : nat := length (hd [] M).

Fixpoint of_nat (n : nat) : K :=
  match n with
  | O => 0
  | S n' => of_nat n' + 1
  end.

(** Sum of [f 0 .. f (n-1)]. *)
Fixpoint sum_n (n : nat) (f : nat -> K) : K :=
  match n with
  | O => 0
  | S n' => sum_n n' f + f n'
  end.

(** [A.matmul(B)] *)
Definition matmul (A B : mat) : mat :=
  mk_mat (nrows A) (ncols B)
         (fun i j => sum_n (ncols A) (fun k => entry A i k * entry B k j)).

(** [M.t()] *)
Definition transpose (M : mat) : mat :=
  mk_mat (ncols M) (nrows M) (fun i j => entry M j i).

(** [M[:, c]] *)
Definition col (M : mat) (c : nat) : vec := mk_vec (nrows M) (fun r => entry M r c).

(** [M[:, c] = v] *)
Definition set_col (M : mat) (c : nat) (v : vec) : mat :=
  mk_mat (nrows M) (ncols M)
         (fun r k => if (k =? c)%nat then nth r v 0 else entry M r k).

(** [torch.zeros((m, n))] *)
Definition zeros (m n : nat) : mat := mk_mat m n (fun _ _ => 0).

(** [torch.diag(M)] of a square matrix of order [n]. *)
Definition diag (n : nat) (M : mat) : vec := mk_vec n (fun i => entry M i i).

Definition sabs (x : K) : K := if sleb 0 x then x else - x.

(** [torch.isclose(x, 0)] with the default tolerances: [|x| <= atol + rtol * 0],
    [atol = 1e-8]. *)
Fixpoint spow (x : K) (n : nat) : K :=
  match n with
  | O => 1
  | S n' => x * spow x n'
  end.

Definition atol : K := 1 / spow (of_nat 10) 8.
Definition isclose0 (x : K) : bool := sleb (sabs x) atol.

(** ** The activation-order permuter *)

(** [torch.argsort(d, descending=True)] *)
Definition argsort_desc (d : vec) : list nat :=
  argsort_by (fun i j => sleb (nth j d 0) (nth i d 0)) (length d).

(** [W[:, perm]] *)
Definition permute_cols (perm : list nat) (W : mat) : mat :=
  mk_mat (nrows W) (length perm) (fun r k => entry W r (nth k perm O)).

(** [H[perm][:, perm]] *)
Definition permute_sym (perm : list nat) (H : mat) : mat :=
  mk_mat (length perm) (length perm)
         (fun a b => entry H (nth a perm O) (nth b perm O)).

Definition _apply_activation_ordering (W H : mat)
  : mat * mat * list nat * list nat :=
  let perm := argsort_desc (diag (nrows H) H) in
  let invperm := argsort_nat perm in
  (permute_cols perm W, permute_sym perm H, perm, invperm).

(** ** Factorization

    [torch.linalg.cholesky] and [torch.cholesky_inverse] are library calls;
    they are embedded as the row-by-row Cholesky-Banachiewicz factorization
    and as the inverse obtained from the factor by forward substitution. *)

Definition dot (u v : vec) : K :=
  sum_n (length u) (fun k => nth k u 0 * nth k v 0).

(** Entries [0 .. i-1] of row [i] of the factor, from the rows above. *)
Fixpoint chol_row_entries (a_i : vec) (above : mat) (j : nat) (acc : vec) : vec :=
  match above with
  | [] => acc
  | l_j :: above' =>
      let x := (nth j a_i 0 - dot acc l_j) / nth j l_j 0 in
      chol_row_entries a_i above' (S j) (acc ++ [x])
  end.

Fixpoint chol_rows (A : mat) (n todo : nat) (L : mat) : result mat :=
  match todo with
  | O => Ok L
  | S todo' =>
      let i := length L in
      let a_i := nth i A [] in
      let acc := chol_row_entries a_i L O [] in
      let s := nth i a_i 0 - dot acc acc in
      if sleb s 0 then Raise LinAlgError
      else chol_rows A n todo' (L ++ [acc ++ [ssqrt s] ++ repeat 0 (n - i - 1)])
  end.

(** [torch.linalg.cholesky(A)]: the lower factor, or [LinAlgError] when a
    pivot is not positive. *)
Definition cholesky (A : mat) : result mat := chol_rows A (nrows A) (nrows A) [].

(** [torch.linalg.cholesky(A, upper=True)] *)
Definition cholesky_upper (A : mat) : result mat :=
  do L <- cholesky A; Ok (transpose L).

Fixpoint tri_inv_rows (L : mat) (n todo : nat) (X : mat) : mat :=
  match todo with
  | O => X
  | S todo' =>
      let i := length X in
      let row := mk_vec n (fun j =>
        ((if (i =? j)%nat then 1 else 0)
         - sum_n i (fun k => entry L i k * entry X k j)) / entry L i i) in
      tri_inv_rows L n todo' (X ++ [row])
  end.

(** The inverse of a lower-triangular matrix. *)
Definition tri_inv (L : mat) : mat := tri_inv_rows L (nrows L) (nrows L) [].

(** [torch.cholesky_inverse(L)]: the inverse of [L * L^T], computed from its
    factor. *)
Definition cholesky_inverse (L : mat) : mat :=
  let X := tri_inv L in matmul (transpose X) X.

End Tensors.

Arguments mk_vec {K} n f.
Arguments mk_mat {K} m n f.
Arguments sum_n {K} n f.
Arguments spow {K} x n.
Arguments sabs {K} x.
Arguments isclose0 {K} x.

(** ** The quantization observer (external capability)

    The observer of [compressed_tensors], its parameter tensors and
    [fake_quantize] are consumed through the calls [compress] makes.  The
    observer object carries the two parameter tensors the source reads and
    assigns ([_scale], [_zero_point]) and running statistics of its own. *)

Record Observer (P St : Type) : Type := MkObserver {
  _scale : P;
  _zero_point : P;
  stats : St
}.

Record Quantizer (K : Scalar) : Type := MkQuantizer {
  ptensor : Type;
  ostats : Type;
  (** [weight_quant_args.get_observer()] *)
  get_observer : QuantizationArgs -> Observer ptensor ostats;
  (** [observer(W)] *)
  observe : Observer ptensor ostats -> mat K -> Observer ptensor ostats;
  (** [observer.calculate_qparams(q)] *)
  calculate_qparams :
    Observer ptensor ostats -> vec K -> Observer ptensor ostats * (ptensor * ptensor);
  (** [observer.get_qparams_along_dim(slice, dim=0)] *)
  get_qparams_along_dim :
    Observer ptensor ostats -> mat K -> Observer ptensor ostats * (ptensor * ptensor);
  (** [t[i] = v] *)
  setitem_row : ptensor -> Z -> ptensor -> result ptensor;
  (** [t[:, i] = v] *)
  setitem_col : ptensor -> Z -> ptensor -> result ptensor;
  (** [t[:, i]] *)
  getitem_col : ptensor -> Z -> result ptensor;
  (** [fake_quantize(q, scale, zero_point, args)] *)
  fake_quantize : vec K -> ptensor -> ptensor -> QuantizationArgs -> vec K
}.

(** ** The layer and its compression session *)

Section Session.

Variable K : Scalar.
Variable Qz : Quantizer K.

(** [tensor_sparsity] of [llmcompressor.pytorch.utils.helpers] and
    [SPARSITY_THRESHOLD] of [llmcompressor.modifiers.utils]. *)
Variable tensor_sparsity : mat K -> K.
Variable SPARSITY_THRESHOLD : K.

Local Open Scope scalar_scope.

Definition observer : Type := Observer (ptensor Qz) (ostats Qz).

Definition with_params (o : observer) (s z : ptensor Qz) : observer :=
  {| _scale := s; _zero_point := z; stats := stats o |}.

(** The module under compression.  [weight] is the stored parameter: [out x in]
    for [nn.Linear], [in x out] for [transformers.Conv1D], and for [nn.Conv2d]
    its [flatten(1)] view.  The three optional fields are the parameters
    written by [update_parameter_data]. *)
Record Layer : Type := MkLayer {
  layer_kind : LayerKind;
  weight : mat K;
  quantization_scheme_weights : option QuantizationArgs;
  weight_scale : option (ptensor Qz);
  weight_zero_point : option (ptensor Qz);
  weight_g_idx : option (list Z)
}.

(** [H = None] once [delattr(self, "H")] has run. *)
Record GPTQWrapper : Type := MkWrapper {
  name : string;
  layer : Layer;
  rows : nat;
  columns : nat;
  H : option (mat K);
  n_samples : nat
}.

Definition set_H (self : GPTQWrapper) (h : option (mat K)) : GPTQWrapper :=
  {| name := name self; layer := layer self; rows := rows self;
     columns := columns self; H := h; n_samples := n_samples self |}.

Definition set_n_samples (self : GPTQWrapper) (n : nat) : GPTQWrapper :=
  {| name := name self; layer := layer self; rows := rows self;
     columns := columns self; H := H self; n_samples := n |}.

Definition set_layer (self : GPTQWrapper) (l : Layer) : GPTQWrapper :=
  {| name := name self; layer := l; rows := rows self;
     columns := columns self; H := H self; n_samples := n_samples self |}.

(** The weight in the standard [rows x columns] orientation. *)
Definition standardize (k : LayerKind) (w : mat K) : mat K :=
  match k with
  | Conv1D => transpose w
  | _ => w
  end.

(** Modelled from the spec: the constructor of the base class
    [ModuleCompressionWrapper], which records [rows] and [columns] of the
    standardized weight; [GPTQWrapper.__init__] then registers the zero
    Hessian and the zero sample count. *)
Definition init (nm : string) (l : Layer) : GPTQWrapper :=
  let W := standardize (layer_kind l) (weight l) in
  {| name := nm; layer := l; rows := nrows W; columns := ncols W;
     H := Some (zeros K (ncols W) (ncols W)); n_samples := O |}.

(** *** add_batch *)

(** A captured activation: [t x columns], or [b x t x columns]. *)
Inductive tensor : Type :=
| T2 (m : mat K)
| T3 (ms : list (mat K)).

(** [inp.unsqueeze(0)] for a 2-D input. *)
Definition as_batches (inp : tensor) : list (mat K) :=
  match inp with
  | T2 m => [m]
  | T3 ms => ms
  end.

(** [c * M] *)
Definition scale_mat (c : K) (M : mat K) : mat K :=
  mk_mat (nrows M) (ncols M) (fun i j => c * entry M i j).

(** [H += G]; [G] is square of order [ncols of the input]: the shapes must
    agree, or [G] be [1 x 1] and broadcast. *)
Definition iadd_square (n : nat) (Hm G : mat K) : result (mat K) :=
  if (nrows G =? n)%nat then
    Ok (mk_mat n n (fun i j => entry Hm i j + entry G i j))
  else if (nrows G =? 1)%nat then
    Ok (mk_mat n n (fun i j => entry Hm i j + entry G O O))
  else Raise (RuntimeError "shape mismatch").

Definition add_batch (self : GPTQWrapper) (inp out : tensor) : GPTQWrapper * outcome :=
  let inp3 := as_batches inp in
  let tmp := length inp3 in
  match H self with
  | None => (self, Raised (AttributeError "H"))
  | Some H0 =>
      let n := n_samples self in
      if (n + tmp =? 0)%nat then (self, Raised ZeroDivisionError)
      else
        let H1 := scale_mat (of_nat K n / of_nat K (n + tmp)) H0 in
        let n' := (n + tmp)%nat in
        let self1 := set_n_samples (set_H self (Some H1)) n' in
        match layer_kind (layer self) with
        | Linear | Conv1D =>
            let inp2 := transpose (concat inp3) in
            let inpS := scale_mat (ssqrt (of_nat K 2 / of_nat K n')) inp2 in
            match iadd_square (columns self) H1 (matmul inpS (transpose inpS)) with
            | Ok H2 => (set_H self1 (Some H2), Returned)
            | Raise e => (self1, Raised e)
            end
        | Conv2d =>
            (self1, Raised (RuntimeError "t() expects a tensor with <= 2 dimensions"))
        end
  end.

(** *** free *)



(** *** compress *)

Definition getattr_H (self : GPTQWrapper) : result (mat K) :=
  match H self with
  | Some h => Ok h
  | None => Raise (AttributeError "H")
  end.

(** [torch.arange(columns) // group_size] *)
Definition group_index_map (n : nat) (gs : Z) : result (list Z) :=
  if (gs =? 0)%Z then Raise (RuntimeError "ZeroDivisionError")
  else Ok (map (fun c => (Z.of_nat c / gs)%Z) (seq 0 n)).

(** [g_idx[index]] for an index tensor. *)
Definition take (g_idx : list Z) (index : list nat) : list Z :=
  map (fun k => nth k g_idx 0%Z) index.

(** What the preparation of weight and observer leaves in the local
    variables [W], [invperm], [g_idx] and [observer]. *)
Record Prepared : Type := MkPrepared {
  pW : mat K;
  pinvperm : list nat;
  pg_idx : list Z;
  pobs : observer
}.

Definition prepare (self : GPTQWrapper) (args : QuantizationArgs)
           (W : mat K) (obs : observer) : result (GPTQWrapper * Prepared) :=
  match strategy args with
  | GROUP =>
      do g_idx <- group_index_map (columns self) (group_size args);
      match actorder args with
      | Some ActGROUP =>
          do H0 <- getattr_H self;
          let '(W', H', _, invperm) := _apply_activation_ordering W H0 in
          Ok (set_H self (Some H'),
              {| pW := W'; pinvperm := invperm; pg_idx := g_idx;
                 pobs := observe Qz obs W' |})
      | Some ActWEIGHT =>
          let obs' := observe Qz obs W in
          do H0 <- getattr_H self;
          let '(W', H', perm, invperm) := _apply_activation_ordering W H0 in
          Ok (set_H self (Some H'),
              {| pW := W'; pinvperm := invperm; pg_idx := take g_idx perm;
                 pobs := obs' |})
      | None =>
          Ok (self, {| pW := W; pinvperm := []; pg_idx := g_idx;
                       pobs := observe Qz obs W |})
      end
  | _ =>
      Ok (self, {| pW := W; pinvperm := []; pg_idx := [];
                   pobs := observe Qz obs W |})
  end.

(** [W_nz_mask]: present when [tensor_sparsity(W) >= SPARSITY_THRESHOLD]. *)
Definition nz_mask (W : mat K) : option (mat K) :=
  if sleb SPARSITY_THRESHOLD (tensor_sparsity W)
  then Some (mk_mat (nrows W) (ncols W)
                    (fun r c => if isclose0 (entry W r c) then 0 else 1))
  else None.

(** [dead = torch.diag(self.H) == 0] *)
Definition dead_columns (n : nat) (Hm : mat K) : list bool :=
  map (fun j => seqb (entry Hm j j) 0) (seq 0 n).

(** [self.H[dead, dead] = 1] *)
Definition mask_dead_H (n : nat) (dead : list bool) (Hm : mat K) : mat K :=
  mk_mat n n (fun i j => if (i =? j)%nat && nth i dead false then 1 else entry Hm i j).

(** [W[:, dead] = 0] *)
Definition mask_dead_W (dead : list bool) (W : mat K) : mat K :=
  mk_mat (nrows W) (ncols W) (fun r c => if nth c dead false then 0 else entry W r c).

(** [damp = percdamp * torch.mean(torch.diag(self.H)); self.H[diag, diag] += damp] *)
Definition damp_H (n : nat) (percdamp : K) (Hm : mat K) : mat K :=
  let damp := percdamp * (sum_n n (fun i => entry Hm i i) / of_nat K n) in
  mk_mat n n (fun i j => if (i =? j)%nat then entry Hm i j + damp else entry Hm i j).

(** [W[:, g_idx == group_index]] *)
Definition select_group (g_idx : list Z) (group_index : Z) (W : mat K) : mat K :=
  map (fun row =>
         map snd (filter (fun p => (fst p =? group_index)%Z) (combine g_idx row)))
      W.

Definition altered_qargs (args : QuantizationArgs) : QuantizationArgs :=
  {| num_bits := num_bits args; strategy := CHANNEL;
     actorder := actorder args; group_size := group_size args |}.

(** The strategy dispatch of the inner loop: the quantized column [q] and the
    observer as the branch leaves it. *)
Definition quantize_column (args : QuantizationArgs) (g_idx : list Z)
           (obs : observer) (W : mat K) (column_idx : nat) (w : vec K)
  : result (observer * vec K) :=
  match strategy args with
  | TENSOR =>
      Ok (obs, fake_quantize Qz w (_scale obs) (_zero_point obs) args)
  | CHANNEL =>
      let '(obs1, (updated_scale, updated_zero_point)) := calculate_qparams Qz obs w in
      do s' <- setitem_row Qz (_scale obs1) (Z.of_nat column_idx) updated_scale;
      do z' <- setitem_row Qz (_zero_point obs1) (Z.of_nat column_idx) updated_zero_point;
      do s <- getitem_col Qz s' (Z.of_nat column_idx);
      do z <- getitem_col Qz z' (Z.of_nat column_idx);
      Ok (with_params obs1 s' z', fake_quantize Qz w s z args)
  | GROUP =>
      let group_index := nth column_idx g_idx 0%Z in
      let '(obs1, (updated_scale, updated_zero_point)) :=
        get_qparams_along_dim Qz obs (select_group g_idx group_index W) in
      do us <- getitem_col Qz updated_scale 0%Z;
      do s' <- setitem_col Qz (_scale obs1) group_index us;
      do uz <- getitem_col Qz updated_zero_point 0%Z;
      do z' <- setitem_col Qz (_zero_point obs1) group_index uz;
      do s <- getitem_col Qz s' group_index;
      do z <- getitem_col Qz z' group_index;
      Ok (with_params obs1 s' z', fake_quantize Qz w s z (altered_qargs args))
  | OtherStrategy nm =>
      Raise (ValueError ("Quantization strategy is not supported for GPTQ: " ++ nm))
  end.

(** The tensors of one block: [W1], [Q1], [Err1], [Losses1], and the observer. *)
Record Block : Type := MkBlock {
  W1 : mat K;
  Q1 : mat K;
  Err1 : mat K;
  Losses1 : mat K;
  bobs : observer
}.

(** The body of [for i in range(count)]. *)
Definition column_body (args : QuantizationArgs) (g_idx : list Z) (W : mat K)
           (Hinv1 : mat K) (W1_nz_mask : option (mat K)) (i1 count : nat)
           (i : nat) (b : Block) : result Block :=
  let w := col (W1 b) i in
  let d := entry Hinv1 i i in
  do oq <- quantize_column args g_idx (bobs b) W (i1 + i)%nat w;
  let '(obs', q) := oq in
  let Q1' := set_col (Q1 b) i q in
  let Losses1' :=
    set_col (Losses1 b) i
            (mk_vec (length w) (fun r => spow (nth r w 0 - nth r q 0) 2 / spow d 2)) in
  let err1 := mk_vec (length w) (fun r => (nth r w 0 - nth r q 0) / d) in
  let w1_err :=
    mk_mat (length err1) (count - i)
           (fun r k => nth r err1 0 * entry Hinv1 i (i + k)) in
  let W1' :=
    mk_mat (nrows (W1 b)) count
           (fun r k =>
              if (k <? i)%nat then entry (W1 b) r k
              else match W1_nz_mask with
                   | Some M => entry (W1 b) r k - entry w1_err r (k - i) * entry M r k
                   | None => entry (W1 b) r k - entry w1_err r (k - i)
                   end) in
  let Err1' := set_col (Err1 b) i err1 in
  Ok {| W1 := W1'; Q1 := Q1'; Err1 := Err1'; Losses1 := Losses1'; bobs := obs' |}.

(** The loop-carried variables of the block loop. *)
Record Scan : Type := MkScan {
  sW : mat K;
  sobs : observer;
  sLosses : vec K
}.

(** The block [i1 .. i2 - 1]: its bounds, and the tensors set up before its
    column loop. *)
Definition block_end (columns blocksize i1 : nat) : nat :=
  Nat.min (i1 + blocksize) columns.

Definition block_init (W : mat K) (obs : observer) (i1 count : nat) : Block :=
  {| W1 := mk_mat (nrows W) count (fun r k => entry W r (i1 + k));
     Q1 := zeros K (nrows W) count;
     Err1 := zeros K (nrows W) count;
     Losses1 := zeros K (nrows W) count;
     bobs := obs |}.

(** The column loop of a block. *)
Definition run_block (args : QuantizationArgs) (g_idx : list Z) (Hinv : mat K)
           (W_nz_mask : option (mat K)) (columns blocksize : nat)
           (i1 : nat) (s : Scan) : result Block :=
  let W := sW s in
  let count := (block_end columns blocksize i1 - i1)%nat in
  let Hinv1 := mk_mat count count (fun a b => entry Hinv (i1 + a) (i1 + b)) in
  let W1_nz_mask :=
    option_map (fun M => mk_mat (nrows M) count (fun r k => entry M r (i1 + k)))
               W_nz_mask in
  for_each (column_body args g_idx W Hinv1 W1_nz_mask i1 count)
           (seq 0 count) (block_init W (sobs s) i1 count).

(** The write-back of [Q1] and the propagation of the block error. *)
Definition block_finish (Hinv : mat K) (W_nz_mask : option (mat K))
           (columns rows blocksize : nat) (i1 : nat) (s : Scan) (b : Block) : Scan :=
  let W := sW s in
  let i2 := block_end columns blocksize i1 in
  let count := (i2 - i1)%nat in
  let Losses' :=
    mk_vec rows (fun r => nth r (sLosses s) 0
                          + sum_n count (fun k => entry (Losses1 b) r k) / of_nat K 2) in
  let w_err :=
    matmul (Err1 b)
           (mk_mat count (columns - i2) (fun a c => entry Hinv (i1 + a) (i2 + c))) in
  let W' :=
    mk_mat (nrows W) (ncols W)
           (fun r c =>
              if (c <? i1)%nat then entry W r c
              else if (c <? i2)%nat then entry (Q1 b) r (c - i1)
              else match W_nz_mask with
                   | Some M => entry W r c - entry w_err r (c - i2) * entry M r c
                   | None => entry W r c - entry w_err r (c - i2)
                   end) in
  {| sW := W'; sobs := bobs b; sLosses := Losses' |}.

(** The body of [for i1 in range(0, self.columns, blocksize)]. *)
Definition block_body (args : QuantizationArgs) (g_idx : list Z) (Hinv : mat K)
           (W_nz_mask : option (mat K)) (columns rows blocksize : nat)
           (i1 : nat) (s : Scan) : result Scan :=
  do b <- run_block args g_idx Hinv W_nz_mask columns blocksize i1 s;
  Ok (block_finish Hinv W_nz_mask columns rows blocksize i1 s b).

(** The blockwise scan: lines 186-297 of the source. *)
Definition scan (args : QuantizationArgs) (g_idx : list Z) (Hinv : mat K)
           (W_nz_mask : option (mat K)) (columns rows : nat) (blocksize : Z)
           (s : Scan) : result Scan :=
  do starts <- range_blocks columns blocksize;
  for_each (block_body args g_idx Hinv W_nz_mask columns rows (Z.to_nat blocksize))
           starts s.

(** Un-permutation and the parameter [weight_g_idx]. *)
Definition unpermute (args : QuantizationArgs) (p : Prepared) (W : mat K) (l : Layer)
  : mat K * Layer :=
  match strategy args, actorder args with
  | GROUP, Some ActWEIGHT => (permute_cols (pinvperm p) W, l)
  | GROUP, Some ActGROUP =>
      (permute_cols (pinvperm p) W,
       {| layer_kind := layer_kind l; weight := weight l;
          quantization_scheme_weights := quantization_scheme_weights l;
          weight_scale := weight_scale l; weight_zero_point := weight_zero_point l;
          weight_g_idx := Some (take (pg_idx p) (pinvperm p)) |})
  | _, _ => (W, l)
  end.

(** [self.layer.weight -= self.layer.weight; self.layer.weight += W], then the
    two [update_parameter_data] calls. *)
Definition commit (l : Layer) (W : mat K) (obs : observer) : Layer :=
  let w0 := weight l in
  let cleared := mk_mat (nrows w0) (ncols w0) (fun r c => entry w0 r c - entry w0 r c) in
  let w1 := mk_mat (nrows w0) (ncols w0) (fun r c => entry cleared r c + entry W r c) in
  {| layer_kind := layer_kind l; weight := w1;
     quantization_scheme_weights := quantization_scheme_weights l;
     weight_scale := Some (_scale obs);
     weight_zero_point := Some (_zero_point obs);
     weight_g_idx := weight_g_idx l |}.

(** [compress(blocksize, percdamp)].  The wrapper returned is the session as
    the call leaves it, whether it returned or raised.  Device staging and
    the metric log do not touch the values modelled and are left out. *)
Definition compress (self : GPTQWrapper) (blocksize : Z) (percdamp : K)
  : GPTQWrapper * outcome :=
  match quantization_scheme_weights (layer self) with
  | None => (self, Returned)
  | Some weight_quant_args =>
      let W0 := standardize (layer_kind (layer self)) (weight (layer self)) in
      match prepare self weight_quant_args W0 (get_observer Qz weight_quant_args) with
      | Raise e => (self, Raised e)
      | Ok (self1, p) =>
          let W_nz_mask := nz_mask (pW p) in
          match getattr_H self1 with
          | Raise e => (self1, Raised e)
          | Ok H1 =>
              let n := columns self in
              let dead := dead_columns n H1 in
              let W := mask_dead_W dead (pW p) in
              let H2 := damp_H n percdamp (mask_dead_H n dead H1) in
              let self2 := set_H self1 (Some H2) in
              match cholesky H2 with
              | Raise e => (self2, Raised e)
              | Ok L =>
                  let H3 := cholesky_inverse L in
                  match cholesky_upper H3 with
                  | Raise e => (set_H self1 (Some H3), Raised e)
                  | Ok Hinv =>
                      let self3 := set_H self1 (Some Hinv) in
                      match scan weight_quant_args (pg_idx p) Hinv W_nz_mask
                                 n (rows self) blocksize
                                 {| sW := W; sobs := pobs p;
                                    sLosses := mk_vec (rows self) (fun _ => 0) |} with
                      | Raise e => (self3, Raised e)
                      | Ok s =>
                          let '(Wu, l1) := unpermute weight_quant_args p (sW s) (layer self) in
                          let Wf := standardize (layer_kind (layer self)) Wu in
                          (set_layer self3 (commit l1 Wf (sobs s)), Returned)
                      end
                  end
              end
          end
      end
  end.

End Session.

Arguments T2 {K} m.
Arguments T3 {K} ms.

(** ** A concrete quantizer on the rationals

    A symmetric min-max observer with a signed integer grid, after the
    [compressed_tensors] observer the source is run with: the scale is the
    largest magnitude divided by half the grid width, the zero point is 0,
    and [fake_quantize] rounds half to even and clamps.  It instantiates the
    interface [Quantizer] wherever a run is evaluated. *)

Module MinMax.

Local Open Scope Q_scope.

Inductive ptensor : Type :=
| P1 (v : list Qc)
| P2 (m : list (list Qc)).

Definition round_half_even (q : Q) : Z :=
  let f := Qfloor q in
  let r := q - inject_Z f in
  match Qcompare r (1 # 2) with
  | Lt => f
  | Gt => (f + 1)%Z
  | Eq => if Z.even f then f else (f + 1)%Z
  end.

Definition q_max (bits : nat) : Z := (2 ^ (Z.of_nat bits - 1) - 1)%Z.
Definition q_min (bits : nat) : Z := (- 2 ^ (Z.of_nat bits - 1))%Z.

Definition eps : Qc := Q2Qc (1 # 8388608).

Definition max_abs (xs : list Qc) : Qc :=
  fold_right (fun x m => if Qc_leb m (sabs (K:=QcS) x) then sabs (K:=QcS) x else m) (Q2Qc 0) xs.

(** Scale of a symmetric grid over the values [xs]. *)
Definition scale_of (bits : nat) (xs : list Qc) : Qc :=
  let s := (max_abs xs / Q2Qc (inject_Z (q_max bits - q_min bits) / 2))%Qc in
  if Qc_leb s eps then eps else s.

(** One value through the grid and back; the scheme is symmetric, its zero
    point is zero. *)
Definition fq1 (bits : nat) (scale x : Qc) : Qc :=
  let q := round_half_even (this (x / scale)%Qc) in
  let q := Z.max (q_min bits) (Z.min (q_max bits) q) in
  (Q2Qc (inject_Z q) * scale)%Qc.

Definition observer : Type := Observer ptensor QuantizationArgs.

Definition zeros_like (s : list (list Qc)) : list (list Qc) :=
  map (map (fun _ => Q2Qc 0)) s.

(** Groups of [gs] consecutive entries of a row. *)
Fixpoint chunks (fuel : nat) (gs : nat) (row : list Qc) : list (list Qc) :=
  match fuel, row with
  | O, _ => []
  | _, [] => []
  | S fuel', _ => firstn gs row :: chunks fuel' gs (skipn gs row)
  end.

Definition observe (o : observer) (W : mat QcS) : observer :=
  let args := stats o in
  let bits := num_bits args in
  let s :=
    match strategy args with
    | CHANNEL => map (fun row => [scale_of bits row]) W
    | GROUP =>
        map (fun row => map (scale_of bits)
                            (chunks (length row) (Z.to_nat (group_size args)) row)) W
    | _ => [[scale_of bits (concat W)]]
    end in
  {| _scale := P2 s; _zero_point := P2 (zeros_like s); stats := args |}.

Definition get_observer (args : QuantizationArgs) : observer :=
  {| _scale := P2 []; _zero_point := P2 []; stats := args |}.

Definition calculate_qparams (o : observer) (q : vec QcS) : observer * (ptensor * ptensor) :=
  (o, (P1 [scale_of (num_bits (stats o)) q], P1 [Q2Qc 0])).

Definition get_qparams_along_dim (o : observer) (W : mat QcS)
  : observer * (ptensor * ptensor) :=
  (o, (P2 (map (fun row => [scale_of (num_bits (stats o)) row]) W),
       P2 (map (fun _ => [Q2Qc 0]) W))).

Definition in_range (i : Z) (n : nat) : bool := ((0 <=? i) && (i <? Z.of_nat n))%Z.

Definition setitem_row (t : ptensor) (i : Z) (v : ptensor) : result ptensor :=
  match t with
  | P2 m =>
      if in_range i (length m) then
        match v with
        | P1 [x] =>
            Ok (P2 (map (fun r => if (r =? Z.to_nat i)%nat
                                  then map (fun _ => x) (nth r m [])
                                  else nth r m [])
                        (seq 0 (length m))))
        | _ => Raise (RuntimeError "shape mismatch")
        end
      else Raise IndexError
  | P1 _ => Raise IndexError
  end.

Definition setitem_col (t : ptensor) (i : Z) (v : ptensor) : result ptensor :=
  match t, v with
  | P2 m, P1 v =>
      if in_range i (length (hd [] m)) then
        if (length v =? length m)%nat then
          Ok (P2 (map (fun r =>
                         map (fun c => if (c =? Z.to_nat i)%nat
                                       then nth r v (Q2Qc 0)
                                       else nth c (nth r m []) (Q2Qc 0))
                             (seq 0 (length (nth r m []))))
                      (seq 0 (length m))))
        else Raise (RuntimeError "shape mismatch")
      else Raise IndexError
  | _, _ => Raise IndexError
  end.

Definition getitem_col (t : ptensor) (i : Z) : result ptensor :=
  match t with
  | P2 m =>
      if in_range i (length (hd [] m))
      then Ok (P1 (map (fun row => nth (Z.to_nat i) row (Q2Qc 0)) m))
      else Raise IndexError
  | P1 _ => Raise IndexError
  end.

(** The parameter of row [r]: its own entry, or the single broadcast one. *)
Definition param_at (t : ptensor) (r : nat) (dflt : Qc) : Qc :=
  match t with
  | P1 [x] => x
  | P1 v => nth r v dflt
  | P2 [[x]] => x
  | P2 m => nth O (nth r m []) dflt
  end.

Definition fake_quantize (w : vec QcS) (s z : ptensor) (args : QuantizationArgs) : vec QcS :=
  map (fun r => fq1 (num_bits args) (param_at s r (Q2Qc 1)) (nth r w (Q2Qc 0)))
      (seq 0 (length w)).

Definition quantizer : Quantizer QcS :=
  @MkQuantizer QcS ptensor QuantizationArgs get_observer observe
               calculate_qparams get_qparams_along_dim
               setitem_row setitem_col getitem_col fake_quantize.

(** [tensor_sparsity]: the fraction of entries equal to zero. *)
Definition tensor_sparsity (W : mat QcS) : Qc :=
  let xs := concat W in
  (Q2Qc (inject_Z (Z.of_nat (length (filter (fun x => Qc_eqb x (Q2Qc 0)) xs))))
   / Q2Qc (inject_Z (Z.of_nat (length xs))))%Qc.

Definition SPARSITY_THRESHOLD : Qc := Q2Qc (5 # 100).

End MinMax.

(** * Properties *)

(** ** Comprehensions and sums *)

Section TensorFacts.

Variable K : Scalar.

Add Field Kfield : (s_field K).

Local Open Scope scalar_scope.

Lemma length_mk_vec : forall n (f : nat -> K), length (mk_vec n f) = n.
Proof. intros; unfold mk_vec; rewrite length_map, length_seq; reflexivity. Qed.

Lemma nth_mk_vec : forall n (f : nat -> K) i d,
  (i < n)%nat -> nth i (mk_vec n f) d = f i.
Proof.
  intros n f i d Hi; unfold mk_vec.
  rewrite (nth_indep _ d (f O)) by (rewrite length_map, length_seq; exact Hi).
  rewrite map_nth, seq_nth by exact Hi; reflexivity.
Qed.

Lemma nth_mk_vec_default : forall n (f : nat -> K) i,
  nth i (mk_vec n f) 0 = if (i <? n)%nat then f i else 0.
Proof.
  intros n f i; destruct (Nat.ltb_spec i n) as [Hi | Hi].
  - apply nth_mk_vec; exact Hi.
  - apply nth_overflow; rewrite length_mk_vec; exact Hi.
Qed.

Lemma mk_vec_ext : forall n (f g : nat -> K),
  (forall i, (i < n)%nat -> f i = g i) -> mk_vec n f = mk_vec n g.
Proof.
  intros n f g Hfg; unfold mk_vec; apply map_ext_in.
  intros i Hi; apply in_seq in Hi; apply Hfg; lia.
Qed.

Lemma nrows_mk_mat : forall m n (f : nat -> nat -> K), nrows (mk_mat m n f) = m.
Proof. intros; unfold nrows, mk_mat; rewrite length_map, length_seq; reflexivity. Qed.

Lemma nth_mk_mat : forall m n (f : nat -> nat -> K) r,
  (r < m)%nat -> nth r (mk_mat m n f) [] = mk_vec n (f r).
Proof.
  intros m n f r Hr; unfold mk_mat.
  rewrite (nth_indep _ [] ((fun r => map (f r) (seq 0 n)) O))
    by (rewrite length_map, length_seq; exact Hr).
  rewrite (map_nth (fun r => map (f r) (seq 0 n))), seq_nth by exact Hr; reflexivity.
Qed.

Lemma ncols_mk_mat : forall m n (f : nat -> nat -> K),
  (0 < m)%nat -> ncols (mk_mat m n f) = n.
Proof.
  intros m n f Hm; unfold ncols.
  replace (hd [] (mk_mat m n f)) with (nth O (mk_mat m n f) []).
  - rewrite nth_mk_mat by exact Hm; apply length_mk_vec.
  - destruct (mk_mat m n f); reflexivity.
Qed.

Lemma entry_mk_mat : forall m n (f : nat -> nat -> K) r c,
  (r < m)%nat -> (c < n)%nat -> entry (mk_mat m n f) r c = f r c.
Proof.
  intros m n f r c Hr Hc; unfold entry.
  rewrite nth_mk_mat by exact Hr; apply nth_mk_vec; exact Hc.
Qed.

Lemma entry_mk_mat_default : forall m n (f : nat -> nat -> K) r c,
  entry (mk_mat m n f) r c = if ((r <? m) && (c <? n))%nat then f r c else 0.
Proof.
  intros m n f r c; unfold entry.
  destruct (Nat.ltb_spec r m) as [Hr | Hr]; simpl.
  - rewrite nth_mk_mat by exact Hr; apply nth_mk_vec_default.
  - rewrite (nth_overflow (mk_mat m n f)) by (fold (nrows (mk_mat m n f)); rewrite nrows_mk_mat; exact Hr).
    destruct c; reflexivity.
Qed.

Lemma entry_row_overflow : forall (M : mat K) r c,
  (nrows M <= r)%nat -> entry M r c = 0.
Proof.
  intros M r c Hr; unfold entry.
  rewrite (nth_overflow M) by exact Hr; destruct c; reflexivity.
Qed.

Lemma mk_mat_ext : forall m n (f g : nat -> nat -> K),
  (forall r c, (r < m)%nat -> (c < n)%nat -> f r c = g r c) ->
  mk_mat m n f = mk_mat m n g.
Proof.
  intros m n f g Hfg; unfold mk_mat; apply map_ext_in.
  intros r Hr; apply in_seq in Hr; apply map_ext_in.
  intros c Hc; apply in_seq in Hc; apply Hfg; lia.
Qed.

Lemma sum_n_ext : forall n (f g : nat -> K),
  (forall k, (k < n)%nat -> f k = g k) -> sum_n n f = sum_n n g.
Proof.
  induction n as [| n IH]; intros f g Hfg; simpl; [reflexivity |].
  rewrite (IH f g), Hfg by (intros; try apply Hfg; lia); reflexivity.
Qed.

Lemma sum_n_zero : forall n (f : nat -> K),
  (forall k, (k < n)%nat -> f k = 0) -> sum_n n f = 0.
Proof.
  induction n as [| n IH]; intros f Hf; simpl; [reflexivity |].
  rewrite IH, Hf by (intros; try apply Hf; lia); ring.
Qed.

Lemma sum_n_scale : forall n (f : nat -> K) c,
  sum_n n (fun k => c * f k) = c * sum_n n f.
Proof.
  induction n as [| n IH]; intros f c; simpl; [ring |].
  rewrite IH; ring.
Qed.

Lemma sum_n_scale_r : forall n (f : nat -> K) c,
  sum_n n (fun k => f k * c) = sum_n n f * c.
Proof.
  induction n as [| n IH]; intros f c; simpl; [ring |].
  rewrite IH; ring.
Qed.

Lemma sum_n_plus : forall n (f g : nat -> K),
  sum_n n (fun k => f k + g k) = sum_n n f + sum_n n g.
Proof.
  induction n as [| n IH]; intros f g; simpl; [ring |].
  rewrite IH; ring.
Qed.

(** *** The order of the scalars *)

Lemma sleb_0_1 : sleb (0 : K) 1 = true.
Proof.
  destruct (sleb_total K 0 1) as [H | H]; [exact H |].
  pose proof (sleb_add K _ _ (- (1)) H) as H1.
  replace (1 + - (1)) with (0 : K) in H1 by ring.
  replace (0 + - (1)) with (- (1) : K) in H1 by ring.
  pose proof (sleb_mul K _ _ H1 H1) as H2.
  replace (- (1) * - (1)) with (1 : K) in H2 by ring.
  exact H2.
Qed.

Lemma sleb_0_add : forall x y : K,
  sleb 0 x = true -> sleb 0 y = true -> sleb 0 (x + y) = true.
Proof.
  intros x y Hx Hy.
  apply (sleb_trans K 0 y (x + y) Hy).
  pose proof (sleb_add K _ _ y Hx) as H1.
  replace (0 + y) with y in H1 by ring; exact H1.
Qed.

Lemma sleb_0_of_nat : forall n, sleb (0 : K) (of_nat K n) = true.
Proof.
  induction n as [| n IH]; simpl; [apply sleb_refl |].
  apply sleb_0_add; [exact IH | apply sleb_0_1].
Qed.

Lemma one_neq_zero : (1 : K) <> 0.
Proof. exact (F_1_neq_0 (s_field K)). Qed.

Lemma of_nat_S_neq_0 : forall n, of_nat K (S n) <> 0.
Proof.
  intros n Heq; simpl in Heq.
  assert (Hn : of_nat K n = - (1)).
  { replace (of_nat K n) with (of_nat K n + 1 + - (1)) by ring; rewrite Heq; ring. }
  pose proof (sleb_0_of_nat n) as H0; rewrite Hn in H0.
  pose proof (sleb_add K _ _ 1 H0) as H1.
  replace (0 + 1) with (1 : K) in H1 by ring.
  replace (- (1) + 1) with (0 : K) in H1 by ring.
  apply one_neq_zero; apply (sleb_antisym K); [exact H1 | apply sleb_0_1].
Qed.

Lemma of_nat_neq_0 : forall n, (0 < n)%nat -> of_nat K n <> 0.
Proof. intros [| n] Hn; [lia | apply of_nat_S_neq_0]. Qed.

Lemma of_nat_plus : forall a b, of_nat K (a + b) = of_nat K a + of_nat K b.
Proof.
  intros a b; induction b as [| b IH].
  - rewrite Nat.add_0_r; simpl; ring.
  - rewrite Nat.add_succ_r; simpl; rewrite IH; ring.
Qed.

Lemma sleb_0_sq : forall x : K, sleb 0 (x * x) = true.
Proof.
  intros x; destruct (sleb_total K 0 x) as [H | H].
  - apply sleb_mul; exact H.
  - pose proof (sleb_add K _ _ (- x) H) as H1.
    replace (x + - x) with (0 : K) in H1 by ring.
    replace (0 + - x) with (- x) in H1 by ring.
    pose proof (sleb_mul K _ _ H1 H1) as H2.
    replace (- x * - x) with (x * x) in H2 by ring; exact H2.
Qed.

Lemma sleb_0_inv : forall x : K, sleb 0 x = true -> x <> 0 -> sleb 0 (sinv x) = true.
Proof.
  intros x Hx Hne.
  replace (sinv x) with (x * (sinv x * sinv x)) by (field; exact Hne).
  apply sleb_mul; [exact Hx | apply sleb_0_sq].
Qed.

Lemma sleb_0_spow : forall (x : K) n, sleb 0 x = true -> sleb 0 (spow x n) = true.
Proof.
  intros x n Hx; induction n as [| n IH]; simpl.
  - apply sleb_0_1.
  - apply sleb_mul; assumption.
Qed.

Lemma spow_neq_0 : forall (x : K) n, x <> 0 -> spow x n <> 0.
Proof.
  intros x n Hx; induction n as [| n IH]; simpl.
  - apply one_neq_zero.
  - intros Heq; apply IH.
    replace (spow x n) with (sinv x * (x * spow x n)) by (field; exact Hx).
    rewrite Heq; ring.
Qed.

Lemma sleb_0_atol : sleb (0 : K) (atol K) = true.
Proof.
  unfold atol.
  assert (Hne : spow (of_nat K 10) 8 <> 0) by (apply spow_neq_0, of_nat_neq_0; lia).
  replace (1 / spow (of_nat K 10) 8) with (sinv (spow (of_nat K 10) 8)) by (field; exact Hne).
  apply sleb_0_inv; [apply sleb_0_spow, sleb_0_of_nat | exact Hne].
Qed.

Lemma sabs_0 : sabs (0 : K) = 0.
Proof. unfold sabs; rewrite sleb_refl; reflexivity. Qed.

(** An exact zero is close to zero. *)
Lemma isclose0_0 : isclose0 (0 : K) = true.
Proof. unfold isclose0; rewrite sabs_0; apply sleb_0_atol. Qed.

End TensorFacts.

(** ** The Hessian accumulator *)

Section AccumulatorFacts.

Variable K : Scalar.
Variable Qz : Quantizer K.

Add Field Kfield_acc : (s_field K).

Local Open Scope scalar_scope.

(** The reshaped two-dimensional input [X], of shape [columns x N]. *)
Definition reshaped (inp : tensor K) : mat K := transpose (concat (as_batches inp)).

(** [X * X^T] *)
Definition gram (X : mat K) : mat K := matmul X (transpose X).

(** A calibration run: [add_batch] called on each pair in turn, up to the
    first call that raises. *)
Fixpoint add_batches (self : GPTQWrapper Qz) (inps : list (tensor K * tensor K))
  : GPTQWrapper Qz * outcome :=
  match inps with
  | [] => (self, Returned)
  | io :: rest =>
      match add_batch self (fst io) (snd io) with
      | (self', Returned) => add_batches self' rest
      | r => r
      end
  end.

(** The batch counts [b_1 .. b_k] and the running sample counts after each call. *)
Definition batch_counts (inps : list (tensor K * tensor K)) : list nat :=
  map (fun io => length (as_batches (fst io))) inps.

Fixpoint running_counts (n : nat) (bs : list nat) : list nat :=
  match bs with
  | [] => []
  | b :: rest => (n + b)%nat :: running_counts (n + b) rest
  end.

(** Entry [(i, j)] of [X_1 X_1^T + ... + X_k X_k^T]. *)
Fixpoint gram_sum (inps : list (tensor K * tensor K)) (i j : nat) : K :=
  match inps with
  | [] => 0
  | io :: rest => entry (gram (reshaped (fst io))) i j + gram_sum rest i j
  end.

Definition sqrt_exact (n : nat) : Prop :=
  ssqrt (of_nat K 2 / of_nat K n) * ssqrt (of_nat K 2 / of_nat K n)
  = of_nat K 2 / of_nat K n.

Lemma ncols_mk_mat_gen : forall m n (f : nat -> nat -> K),
  ncols (mk_mat m n f) = if (m =? 0)%nat then O else n.
Proof.
  intros [| m] n f; [reflexivity |].
  rewrite ncols_mk_mat by lia; reflexivity.
Qed.

Lemma nrows_scale_mat : forall c (M : mat K), nrows (scale_mat c M) = nrows M.
Proof. intros; unfold scale_mat; apply nrows_mk_mat. Qed.

Lemma ncols_scale_mat : forall c (M : mat K), ncols (scale_mat c M) = ncols M.
Proof.
  intros c M; unfold scale_mat; rewrite ncols_mk_mat_gen.
  destruct M as [| row M']; reflexivity.
Qed.

Lemma entry_overflow_col : forall (M : mat K) r c,
  (r < nrows M)%nat -> (forall r', (r' < nrows M)%nat -> length (nth r' M []) <= c)%nat ->
  entry M r c = 0.
Proof. intros M r c Hr Hlen; unfold entry; apply nth_overflow, Hlen, Hr. Qed.

Lemma entry_scale_mat : forall c (M : mat K) i j,
  (j < ncols M)%nat -> entry (scale_mat c M) i j = c * entry M i j.
Proof.
  intros c M i j Hj; unfold scale_mat; rewrite entry_mk_mat_default.
  destruct (Nat.ltb_spec i (nrows M)) as [Hi | Hi]; simpl.
  - apply Nat.ltb_lt in Hj; rewrite Hj; reflexivity.
  - rewrite entry_row_overflow by exact Hi; ring.
Qed.

(** Scaling the input by [c] scales its Gram matrix by [c * c]. *)
Lemma gram_scale : forall c (X : mat K) i j,
  entry (gram (scale_mat c X)) i j = c * c * entry (gram X) i j.
Proof.
  intros c X i j; unfold gram, matmul.
  rewrite !entry_mk_mat_default.
  rewrite nrows_scale_mat, ncols_scale_mat.
  unfold transpose at 1 3.
  rewrite !ncols_mk_mat_gen, nrows_scale_mat, ncols_scale_mat.
  destruct ((i <? nrows X)%nat && (j <? (if (ncols X =? 0)%nat then O else nrows X))%nat) eqn:Hij;
    [| ring].
  rewrite <- sum_n_scale; apply sum_n_ext; intros k Hk.
  apply andb_prop in Hij; destruct Hij as [Hi Hj].
  destruct (ncols X =? 0)%nat eqn:Hc; [discriminate |].
  apply Nat.ltb_lt in Hi, Hj.
  unfold transpose.
  rewrite nrows_scale_mat, ncols_scale_mat.
  rewrite !entry_mk_mat by assumption.
  rewrite !entry_scale_mat by exact Hk; ring.
Qed.

Lemma nrows_gram : forall X : mat K, nrows (gram X) = nrows X.
Proof. intros; unfold gram, matmul; apply nrows_mk_mat. Qed.

Definition square (n : nat) (M : mat K) : Prop := nrows M = n /\ ncols M = n.

Lemma square_mk_mat : forall n (f : nat -> nat -> K), square n (mk_mat n n f).
Proof.
  intros n f; split; [apply nrows_mk_mat |].
  rewrite ncols_mk_mat_gen; destruct n; reflexivity.
Qed.

(** One call: [H <- H * n / (n + b)], [n <- n + b], [H <- H + (2 / n) X X^T]. *)
Lemma add_batch_step : forall (self : GPTQWrapper Qz) inp out H0,
  layer_kind (layer self) <> Conv2d ->
  H self = Some H0 ->
  square (columns self) H0 ->
  (0 < length (as_batches inp))%nat ->
  nrows (reshaped inp) = columns self ->
  sqrt_exact (n_samples self + length (as_batches inp)) ->
  exists self' H1,
    add_batch self inp out = (self', Returned) /\
    H self' = Some H1 /\ square (columns self) H1 /\
    layer self' = layer self /\ columns self' = columns self /\
    n_samples self' = (n_samples self + length (as_batches inp))%nat /\
    forall i j, (i < columns self)%nat -> (j < columns self)%nat ->
      entry H1 i j =
        of_nat K (n_samples self) / of_nat K (n_samples self') * entry H0 i j
        + of_nat K 2 / of_nat K (n_samples self') * entry (gram (reshaped inp)) i j.
Proof.
  intros self inp out H0 Hkind HH [Hr0 Hc0] Hb Hshape Hsqrt.
  unfold add_batch; rewrite HH.
  destruct (Nat.eqb_spec (n_samples self + length (as_batches inp)) 0) as [Hz | Hz]; [lia |].
  set (n' := (n_samples self + length (as_batches inp))%nat) in *.
  set (c := ssqrt (of_nat K 2 / of_nat K n')).
  set (X := transpose (concat (as_batches inp))).
  set (H1 := scale_mat (of_nat K (n_samples self) / of_nat K n') H0).
  assert (HG : nrows (matmul (scale_mat c X) (transpose (scale_mat c X))) = columns self).
  { fold (gram (scale_mat c X)); rewrite nrows_gram, nrows_scale_mat; exact Hshape. }
  assert (Hres : iadd_square (columns self) H1 (matmul (scale_mat c X) (transpose (scale_mat c X)))
                 = Ok (mk_mat (columns self) (columns self)
                         (fun i j => entry H1 i j
                                     + entry (gram (scale_mat c X)) i j))).
  { unfold iadd_square; rewrite HG, Nat.eqb_refl; reflexivity. }
  eexists; eexists.
  destruct (layer_kind (layer self)) eqn:Hk; [| | congruence].
  all: rewrite Hres; split; [reflexivity |]; simpl;
    split; [reflexivity |]; split; [apply square_mk_mat |];
    split; [reflexivity |]; split; [reflexivity |];
    split; [reflexivity |]; intros i j Hi Hj;
    rewrite entry_mk_mat by assumption;
    rewrite gram_scale; unfold c; rewrite Hsqrt; fold X; fold (reshaped inp);
    unfold H1; rewrite entry_scale_mat by (rewrite Hc0; exact Hj); reflexivity.
Qed.

Definition well_shaped_batch (n : nat) (io : tensor K * tensor K) : Prop :=
  (0 < length (as_batches (fst io)))%nat /\ nrows (reshaped (fst io)) = n.

Lemma add_batches_inv : forall inps (self : GPTQWrapper Qz) H0 (G : nat -> nat -> K),
  layer_kind (layer self) <> Conv2d ->
  H self = Some H0 ->
  square (columns self) H0 ->
  Forall (well_shaped_batch (columns self)) inps ->
  Forall sqrt_exact (running_counts (n_samples self) (batch_counts inps)) ->
  (forall i j, (i < columns self)%nat -> (j < columns self)%nat ->
     of_nat K (n_samples self) * entry H0 i j = of_nat K 2 * G i j) ->
  exists self' H1,
    add_batches self inps = (self', Returned) /\
    H self' = Some H1 /\
    n_samples self' = (n_samples self + list_sum (batch_counts inps))%nat /\
    forall i j, (i < columns self)%nat -> (j < columns self)%nat ->
      of_nat K (n_samples self') * entry H1 i j
      = of_nat K 2 * (G i j + gram_sum inps i j).
Proof.
  induction inps as [| io rest IH]; intros self H0 G Hkind HH Hsq Hwf Hsqrt Hinv.
  - exists self, H0; cbn [add_batches batch_counts map list_sum gram_sum].
    repeat split; try assumption; [simpl; lia |].
    intros i j Hi Hj; rewrite Hinv by assumption; ring.
  - inversion Hwf as [| ? ? [Hb Hshape] Hwf']; subst.
    cbn [batch_counts map running_counts] in Hsqrt.
    inversion Hsqrt as [| ? ? Hs Hsqrt']; subst.
    destruct (@add_batch_step self (fst io) (snd io) H0 Hkind HH Hsq Hb Hshape Hs)
      as (self1 & H1 & Hrun & HH1 & Hsq1 & Hl1 & Hc1 & Hn1 & Hent).
    cbn [add_batches]; rewrite Hrun.
    destruct (IH self1 H1 (fun i j => G i j + entry (gram (reshaped (fst io))) i j))
      as (self' & H2 & Hrun' & HH2 & Hn2 & Hent2).
    + rewrite Hl1; exact Hkind.
    + exact HH1.
    + rewrite Hc1; exact Hsq1.
    + rewrite Hc1; exact Hwf'.
    + rewrite Hn1; exact Hsqrt'.
    + rewrite Hc1; intros i j Hi Hj; rewrite (Hent i j Hi Hj).
      assert (Hne : of_nat K (n_samples self1) <> 0) by (apply of_nat_neq_0; lia).
      transitivity (of_nat K (n_samples self) * entry H0 i j
                    + of_nat K 2 * entry (gram (reshaped (fst io))) i j).
      * field; exact Hne.
      * rewrite Hinv by assumption; ring.
    + exists self', H2; split; [exact Hrun' |]; split; [exact HH2 |]; split.
      * rewrite Hn2, Hn1; simpl; lia.
      * rewrite Hc1 in Hent2; intros i j Hi Hj; rewrite (Hent2 i j Hi Hj).
        cbn [gram_sum]; ring.
Qed.


(** C10 -- sample counting.  [n_samples] grows by the leading dimension of
    the input as it is passed: by 1 for a 2-D input of any number [t] of
    token rows, by [b] for a 3-D input of [b] batches, while all the rows
    enter the reshaped input of the accumulation. *)
Theorem add_batch_counts_batches :
  forall (self : GPTQWrapper Qz) (m : mat K) (ms : list (mat K)) (out : tensor K) h,
  H self = Some h ->
  n_samples (fst (add_batch self (T2 m) out)) = (n_samples self + 1)%nat /\
  n_samples (fst (add_batch self (T3 ms) out)) = (n_samples self + length ms)%nat /\
  length (concat (as_batches (T2 m))) = length m /\
  length (concat (as_batches (T3 ms))) = list_sum (map (@length _) ms).
Proof.
  intros self m ms out h HH; repeat split.
  - unfold add_batch; rewrite HH; simpl.
    destruct (Nat.eqb_spec (n_samples self + 1) 0) as [Hz | Hz]; [lia |].
    destruct (layer_kind (layer self));
      try destruct (iadd_square _ _ _); reflexivity.
  - unfold add_batch; rewrite HH; simpl.
    destruct (Nat.eqb_spec (n_samples self + length ms) 0) as [Hz | Hz]; [simpl; lia |].
    destruct (layer_kind (layer self));
      try destruct (iadd_square _ _ _); reflexivity.
  - simpl; rewrite app_nil_r; reflexivity.
  - simpl; induction ms as [| a ms IH]; simpl; [reflexivity |].
    rewrite length_app, IH; reflexivity.
Qed.

End AccumulatorFacts.

(** ** The activation-order permuter *)


Section SortFacts.

Variable before : nat -> nat -> bool.

Lemma insert_by_perm : forall i l, Permutation (insert_by before i l) (i :: l).
Proof.
  intros i l; induction l as [| j l IH]; simpl; [apply Permutation_refl |].
  destruct (before i j); [apply Permutation_refl |].
  apply perm_trans with (j :: i :: l); [apply perm_skip, IH | apply perm_swap].
Qed.

Lemma argsort_by_perm : forall n, Permutation (argsort_by before n) (seq 0 n).
Proof.
  intros n; unfold argsort_by; generalize (seq 0 n) as l.
  induction l as [| i l IH]; simpl; [apply perm_nil |].
  apply perm_trans with (i :: fold_right (insert_by before) [] l);
    [apply insert_by_perm | apply perm_skip, IH].
Qed.

Hypothesis before_total : forall i j, before i j = false -> before j i = true.
Hypothesis before_trans :
  forall i j k, before i j = true -> before j k = true -> before i k = true.

Lemma insert_by_sorted : forall i l,
  StronglySorted (fun a b => before a b = true) l ->
  StronglySorted (fun a b => before a b = true) (insert_by before i l).
Proof.
  intros i l; induction l as [| j l IH]; intros Hs; simpl.
  - constructor; constructor.
  - inversion Hs as [| ? ? Hs' Hall]; subst.
    destruct (before i j) eqn:Hij.
    + constructor; [exact Hs |].
      constructor; [exact Hij |].
      eapply Forall_impl; [| exact Hall].
      intros a Ha; eapply before_trans; eassumption.
    + constructor; [apply IH, Hs' |].
      eapply Permutation_Forall; [apply Permutation_sym, insert_by_perm |].
      constructor; [apply before_total, Hij | exact Hall].
Qed.

Lemma argsort_by_sorted : forall n,
  StronglySorted (fun a b => before a b = true) (argsort_by before n).
Proof.
  intros n; unfold argsort_by; generalize (seq 0 n) as l.
  induction l as [| i l IH]; simpl; [constructor | apply insert_by_sorted, IH].
Qed.

End SortFacts.

Lemma sorted_perm_unique : forall l1 l2 : list nat,
  StronglySorted le l1 -> StronglySorted le l2 -> Permutation l1 l2 -> l1 = l2.
Proof.
  induction l1 as [| a l1 IH]; intros l2 H1 H2 Hp.
  - apply Permutation_nil in Hp; subst; reflexivity.
  - destruct l2 as [| b l2]; [apply Permutation_sym, Permutation_nil in Hp; discriminate |].
    inversion H1 as [| ? ? H1' Ha]; subst.
    inversion H2 as [| ? ? H2' Hb]; subst.
    assert (Hab : a = b).
    { assert (Hin1 : In a (b :: l2)) by (eapply Permutation_in; [exact Hp | left; reflexivity]).
      assert (Hin2 : In b (a :: l1))
        by (eapply Permutation_in; [apply Permutation_sym, Hp | left; reflexivity]).
      rewrite Forall_forall in Ha, Hb.
      destruct Hin1 as [-> | Hin1]; [reflexivity |].
      destruct Hin2 as [-> | Hin2]; [reflexivity |].
      specialize (Ha _ Hin2); specialize (Hb _ Hin1); lia. }
    subst b; f_equal; apply IH; try assumption.
    eapply Permutation_cons_inv; exact Hp.
Qed.

Lemma seq_sorted : forall n s, StronglySorted le (seq s n).
Proof.
  induction n as [| n IH]; intros s; simpl; constructor; [apply IH |].
  apply Forall_forall; intros x Hx; apply in_seq in Hx; lia.
Qed.

Lemma sorted_map : forall (p : nat -> nat) l,
  StronglySorted (fun a b => (p a <=? p b) = true) l -> StronglySorted le (map p l).
Proof.
  intros p l; induction 1 as [| a l Hs IH Hall]; simpl; constructor; [exact IH |].
  apply Forall_forall; intros y Hy; apply in_map_iff in Hy.
  destruct Hy as (x & <- & Hx); rewrite Forall_forall in Hall.
  apply Nat.leb_le, Hall, Hx.
Qed.

Lemma map_nth_seq : forall (p : list nat),
  map (fun i => nth i p O) (seq 0 (length p)) = p.
Proof.
  intros p; apply nth_ext with (d := O) (d' := O).
  - rewrite length_map, length_seq; reflexivity.
  - intros k Hk; rewrite length_map, length_seq in Hk.
    rewrite (nth_indep _ O ((fun i => nth i p O) O)) by (rewrite length_map, length_seq; exact Hk).
    rewrite (map_nth (fun i => nth i p O)), seq_nth by exact Hk; reflexivity.
Qed.

(** [invperm = argsort(perm)] is the two-sided inverse of a permutation. *)
Lemma argsort_nat_right_inverse : forall p,
  Permutation p (seq 0 (length p)) ->
  map (fun i => nth i p O) (argsort_nat p) = seq 0 (length p).
Proof.
  intros p Hp; apply sorted_perm_unique.
  - apply sorted_map; unfold argsort_nat; apply argsort_by_sorted.
    + intros i j Hij; apply Nat.leb_le; apply Nat.leb_gt in Hij; lia.
    + intros i j k Hij Hjk; apply Nat.leb_le; apply Nat.leb_le in Hij, Hjk; lia.
  - apply seq_sorted.
  - apply perm_trans with p; [| exact Hp].
    rewrite <- (map_nth_seq p) at 2.
    apply Permutation_map; unfold argsort_nat; apply argsort_by_perm.
Qed.

Lemma perm_lt : forall p n i,
  Permutation p (seq 0 n) -> (i < n)%nat -> (nth i p O < n)%nat.
Proof.
  intros p n i Hp Hi.
  assert (Hlen : length p = n) by (apply Permutation_length in Hp; rewrite length_seq in Hp; exact Hp).
  assert (Hin : In (nth i p O) (seq 0 n))
    by (eapply Permutation_in; [exact Hp | apply nth_In; lia]).
  apply in_seq in Hin; lia.
Qed.

Lemma argsort_nat_perm : forall p, Permutation (argsort_nat p) (seq 0 (length p)).
Proof. intros p; unfold argsort_nat; apply argsort_by_perm. Qed.

Lemma length_argsort_nat : forall p, length (argsort_nat p) = length p.
Proof.
  intros p; rewrite (Permutation_length (argsort_nat_perm p)); apply length_seq.
Qed.

Lemma perm_invperm : forall p k,
  Permutation p (seq 0 (length p)) -> (k < length p)%nat ->
  nth (nth k (argsort_nat p) O) p O = k.
Proof.
  intros p k Hp Hk.
  pose proof (argsort_nat_right_inverse Hp) as Heq.
  apply (f_equal (fun l => nth k l O)) in Heq.
  rewrite seq_nth in Heq by exact Hk; simpl in Heq.
  transitivity (nth k (map (fun i => nth i p O) (argsort_nat p)) O); [| exact Heq].
  rewrite (nth_indep (map _ _) O ((fun i => nth i p O) O))
    by (rewrite length_map, length_argsort_nat; exact Hk).
  rewrite (map_nth (fun i => nth i p O)); reflexivity.
Qed.

Lemma invperm_perm : forall p i,
  Permutation p (seq 0 (length p)) -> (i < length p)%nat ->
  nth (nth i p O) (argsort_nat p) O = i.
Proof.
  intros p i Hp Hi.
  assert (Hv : (nth i p O < length p)%nat) by (apply perm_lt; assumption).
  assert (Hi' : (nth (nth i p O) (argsort_nat p) O < length p)%nat).
  { pose proof (argsort_nat_perm p) as Hq.
    assert (Hin : In (nth (nth i p O) (argsort_nat p) O) (seq 0 (length p))).
    { eapply Permutation_in; [exact Hq |].
      apply nth_In; rewrite length_argsort_nat; exact Hv. }
    apply in_seq in Hin; lia. }
  assert (Hnd : NoDup p).
  { eapply Permutation_NoDup; [apply Permutation_sym, Hp | apply seq_NoDup]. }
  rewrite NoDup_nth in Hnd; apply Hnd; try assumption.
  apply perm_invperm; assumption.
Qed.

Section PermuterFacts.

Variable K : Scalar.

Local Open Scope scalar_scope.

(** A tensor of shape [m x n]. *)
Definition rect (m n : nat) (M : mat K) : Prop :=
  nrows M = m /\ Forall (fun row => length row = n) M.

Lemma rect_row_length : forall m n (M : mat K) r,
  rect m n M -> (r < m)%nat -> length (nth r M []) = n.
Proof.
  intros m n M r [Hm Hall] Hr; rewrite Forall_forall in Hall.
  apply Hall, nth_In; unfold nrows in Hm; lia.
Qed.

Lemma mk_mat_entry : forall m n (M : mat K), rect m n M -> mk_mat m n (entry M) = M.
Proof.
  intros m n M HM; pose proof HM as [Hm Hall].
  apply nth_ext with (d := []) (d' := []).
  - fold (nrows (mk_mat m n (entry M))); rewrite nrows_mk_mat; symmetry; exact Hm.
  - intros r Hr; fold (nrows (mk_mat m n (entry M))) in Hr; rewrite nrows_mk_mat in Hr.
    rewrite nth_mk_mat by exact Hr.
    apply nth_ext with (d := 0) (d' := 0).
    + rewrite length_mk_vec; symmetry; eapply rect_row_length; eassumption.
    + intros c Hc; rewrite length_mk_vec in Hc.
      rewrite nth_mk_vec by exact Hc; reflexivity.
Qed.

Lemma rect_mk_mat : forall m n (f : nat -> nat -> K), rect m n (mk_mat m n f).
Proof.
  intros m n f; split; [apply nrows_mk_mat |].
  apply Forall_forall; intros row Hrow; unfold mk_mat in Hrow.
  apply in_map_iff in Hrow; destruct Hrow as (r & <- & _).
  rewrite length_map, length_seq; reflexivity.
Qed.

Lemma length_diag : forall n (M : mat K), length (diag n M) = n.
Proof. intros; unfold diag; apply length_mk_vec. Qed.

Lemma argsort_desc_perm : forall d : vec K,
  Permutation (argsort_desc d) (seq 0 (length d)).
Proof. intros d; unfold argsort_desc; apply argsort_by_perm. Qed.

Lemma length_argsort_desc : forall d : vec K, length (argsort_desc d) = length d.
Proof.
  intros d; rewrite (Permutation_length (argsort_desc_perm d)); apply length_seq.
Qed.

(** Permuting the columns by a permutation and then by its [argsort]. *)
Lemma permute_cols_roundtrip : forall m (W : mat K) p,
  Permutation p (seq 0 (length p)) -> rect m (length p) W ->
  permute_cols (argsort_nat p) (permute_cols p W) = W.
Proof.
  intros m W p Hp HW; pose proof HW as [Hm _].
  unfold permute_cols at 1; rewrite length_argsort_nat.
  unfold permute_cols at 1; rewrite nrows_mk_mat, Hm.
  transitivity (mk_mat m (length p) (entry W)); [| apply mk_mat_entry; exact HW].
  apply mk_mat_ext; intros r c Hr Hc.
  unfold permute_cols; rewrite Hm.
  rewrite entry_mk_mat; [| exact Hr |].
  - rewrite perm_invperm by assumption; reflexivity.
  - apply (perm_lt (argsort_nat_perm p)); exact Hc.
Qed.

Lemma permute_sym_roundtrip : forall (Hm : mat K) p,
  Permutation p (seq 0 (length p)) -> rect (length p) (length p) Hm ->
  permute_sym (argsort_nat p) (permute_sym p Hm) = Hm.
Proof.
  intros Hm p Hp HH.
  unfold permute_sym at 1; rewrite length_argsort_nat.
  transitivity (mk_mat (length p) (length p) (entry Hm)); [| apply mk_mat_entry; exact HH].
  apply mk_mat_ext; intros a b Ha Hb.
  assert (Hlt : forall k, (k < length p)%nat -> (nth k (argsort_nat p) O < length p)%nat).
  { intros k Hk; apply (perm_lt (argsort_nat_perm p)); exact Hk. }
  unfold permute_sym; rewrite entry_mk_mat by (apply Hlt; assumption).
  rewrite !perm_invperm by assumption; reflexivity.
Qed.

(** C4 -- permutation round trip.  For a Hessian [H] of order [n] and a
    weight with [n] columns, the permutation and inverse permutation computed
    by [_apply_activation_ordering] satisfy [invperm[perm[i]] = i] for every
    [i < n], and un-permuting the permuted [W] and [H] by [invperm] returns
    exactly [W] and [H]. *)
Theorem activation_ordering_roundtrip :
  forall (W Hm W' H' : mat K) (perm invperm : list nat) (m : nat),
  rect m (nrows Hm) W ->
  rect (nrows Hm) (nrows Hm) Hm ->
  _apply_activation_ordering W Hm = (W', H', perm, invperm) ->
  (forall i, (i < nrows Hm)%nat -> nth (nth i perm O) invperm O = i) /\
  permute_cols invperm W' = W /\
  permute_sym invperm H' = Hm.
Proof.
  intros W Hm W' H' perm invperm m HW HH Heq.
  unfold _apply_activation_ordering in Heq.
  injection Heq as HW' HH' Hperm Hinv.
  assert (Hlen : length perm = nrows Hm)
    by (rewrite <- Hperm, length_argsort_desc; apply length_diag).
  assert (Hp : Permutation perm (seq 0 (length perm))).
  { rewrite Hlen; rewrite <- Hperm.
    pose proof (argsort_desc_perm (diag (nrows Hm) Hm)) as Hq.
    rewrite length_diag in Hq; exact Hq. }
  rewrite Hperm in HW', HH', Hinv; subst W' H' invperm.
  rewrite <- Hlen in HW, HH |- *.
  split; [intros i Hi; apply invperm_perm; assumption |].
  split; [eapply permute_cols_roundtrip; eassumption |].
  apply permute_sym_roundtrip; assumption.
Qed.

End PermuterFacts.

(** ** compress: outcomes and the session state *)

Section CompressFacts.

Variable K : Scalar.
Variable Qz : Quantizer K.
Variable tensor_sparsity : mat K -> K.
Variable SPARSITY_THRESHOLD : K.

Local Open Scope scalar_scope.

Local Abbreviation compress_ := (@compress K Qz tensor_sparsity SPARSITY_THRESHOLD).
Local Abbreviation nz_mask_ := (@nz_mask K tensor_sparsity SPARSITY_THRESHOLD).

(** The state in which the scan of [compress] starts. *)
Definition scan_start (self : GPTQWrapper Qz) (p : Prepared Qz) (H1 : mat K) : Scan Qz :=
  {| sW := mask_dead_W (dead_columns (columns self) H1) (pW p);
     sobs := pobs p;
     sLosses := mk_vec (rows self) (fun _ => 0) |}.

(** The matrix factorized by [compress]: dead diagonal entries set to 1,
    then damping. *)
Definition damped (self : GPTQWrapper Qz) (percdamp : K) (H1 : mat K) : mat K :=
  damp_H (columns self) percdamp
         (mask_dead_H (columns self) (dead_columns (columns self) H1) H1).

(** The layer written by the final steps of [compress]. *)
Definition finish (self : GPTQWrapper Qz) (args : QuantizationArgs)
           (p : Prepared Qz) (s : Scan Qz) : Layer Qz :=
  commit (snd (unpermute args p (sW s) (layer self)))
         (standardize (layer_kind (layer self))
                      (fst (unpermute args p (sW s) (layer self))))
         (sobs s).

Lemma compress_returned : forall (self self' : GPTQWrapper Qz) bs pd args,
  quantization_scheme_weights (layer self) = Some args ->
  compress_ self bs pd = (self', Returned) ->
  exists self1 p H1 L Hinv s,
    prepare self args (standardize (layer_kind (layer self)) (weight (layer self)))
            (get_observer Qz args) = Ok (self1, p) /\
    getattr_H self1 = Ok H1 /\
    cholesky (damped self pd H1) = Ok L /\
    cholesky_upper (cholesky_inverse L) = Ok Hinv /\
    scan args (pg_idx p) Hinv (nz_mask_ (pW p)) (columns self) (rows self) bs
         (scan_start self p H1) = Ok s /\
    self' = set_layer (set_H self1 (Some Hinv)) (finish self args p s).
Proof.
  intros self self' bs pd args Hargs Hrun.
  unfold compress in Hrun; rewrite Hargs in Hrun.
  destruct (prepare self args _ _) as [[self1 p] | e] eqn:Hprep; [| discriminate].
  destruct (getattr_H self1) as [H1 | e] eqn:HH; [| discriminate].
  fold (damped self pd H1) in Hrun.
  destruct (cholesky (damped self pd H1)) as [L | e] eqn:HL; [| discriminate].
  destruct (cholesky_upper (cholesky_inverse L)) as [Hinv | e] eqn:HU; [| discriminate].
  fold (scan_start self p H1) in Hrun.
  destruct (scan _ _ _ _ _ _ _ _) as [s | e] eqn:Hscan; [| discriminate].
  exists self1, p, H1, L, Hinv, s.
  repeat (split; [assumption || reflexivity |]).
  unfold finish; destruct (unpermute args p (sW s) (layer self)) as [Wu l1].
  injection Hrun as <-; reflexivity.
Qed.

Lemma prepare_layer : forall (self self1 : GPTQWrapper Qz) args W o p,
  prepare self args W o = Ok (self1, p) ->
  layer self1 = layer self /\ columns self1 = columns self /\ rows self1 = rows self.
Proof.
  intros self self1 args W o p Hp; unfold prepare in Hp.
  destruct (strategy args);
    try (injection Hp as <- _; repeat split; reflexivity).
  destruct (group_index_map _ _) as [g | e]; [| discriminate]; simpl in Hp.
  destruct (actorder args) as [[|] |].
  - destruct (getattr_H self) as [H0 | e]; [| discriminate]; simpl in Hp.
    destruct (_apply_activation_ordering W H0) as [[[W' H'] perm] invperm].
    injection Hp as <- _; repeat split; reflexivity.
  - destruct (getattr_H self) as [H0 | e]; [| discriminate]; simpl in Hp.
    destruct (_apply_activation_ordering W H0) as [[[W' H'] perm] invperm].
    injection Hp as <- _; repeat split; reflexivity.
  - injection Hp as <- _; repeat split; reflexivity.
Qed.

(** Whatever [compress] raises, the layer is as it was. *)
Lemma compress_raised_layer : forall (self self' : GPTQWrapper Qz) bs pd e,
  compress_ self bs pd = (self', Raised e) -> layer self' = layer self.
Proof.
  intros self self' bs pd e Hrun; unfold compress in Hrun.
  destruct (quantization_scheme_weights (layer self)) as [args |]; [| discriminate].
  destruct (prepare self args _ _) as [[self1 p] | e1] eqn:Hprep;
    [| injection Hrun as <- _; reflexivity].
  apply prepare_layer in Hprep; destruct Hprep as (Hl & _ & _).
  destruct (getattr_H self1) as [H1 | e1]; [| injection Hrun as <- _; exact Hl].
  destruct (cholesky _) as [L | e1]; [| injection Hrun as <- _; exact Hl].
  destruct (cholesky_upper _) as [Hinv | e1]; [| injection Hrun as <- _; exact Hl].
  destruct (scan _ _ _ _ _ _ _ _) as [s | e1]; [| injection Hrun as <- _; exact Hl].
  destruct (unpermute _ _ _ _); discriminate.
Qed.

Lemma chol_rows_raise : forall (A : mat K) n todo L e,
  chol_rows A n todo L = Raise e -> e = LinAlgError.
Proof.
  intros A n todo; induction todo as [| todo IH]; intros L e Hr; simpl in Hr.
  - discriminate.
  - destruct (sleb _ _); [injection Hr as <-; reflexivity | eapply IH; exact Hr].
Qed.

Lemma cholesky_raise : forall (A : mat K) e, cholesky A = Raise e -> e = LinAlgError.
Proof. intros A e; unfold cholesky; apply chol_rows_raise. Qed.

Lemma cholesky_upper_raise : forall (A : mat K) e,
  cholesky_upper A = Raise e -> e = LinAlgError.
Proof.
  intros A e; unfold cholesky_upper.
  destruct (cholesky A) as [L | e'] eqn:HL; simpl; [discriminate |].
  intros Hr; injection Hr as <-; eapply cholesky_raise; exact HL.
Qed.

Definition unsupported (nm : string) : exn :=
  ValueError ("Quantization strategy is not supported for GPTQ: " ++ nm).

(** With a positive block size and at least one column the block loop starts
    at column 0. *)
Lemma range_blocks_pos : forall n bs,
  (0 < n)%nat -> (0 < bs)%Z ->
  exists rest, range_blocks n bs = Ok (O :: rest).
Proof.
  intros n bs Hn Hbs; unfold range_blocks.
  destruct (Z.eqb_spec bs 0) as [Hz | _]; [lia |].
  destruct (Z.ltb_spec bs 0) as [Hz | _]; [lia |].
  assert (Hb : (0 < Z.to_nat bs)%nat) by lia.
  assert (Hd : (1 <= (n + Z.to_nat bs - 1) / Z.to_nat bs)%nat).
  { apply Nat.div_le_lower_bound; lia. }
  destruct ((n + Z.to_nat bs - 1) / Z.to_nat bs)%nat as [| k] eqn:Hk; [lia |].
  simpl; eexists; reflexivity.
Qed.

Lemma scan_unsupported : forall args nm g Hinv M n rws bs (s : Scan Qz),
  strategy args = OtherStrategy nm -> (0 < n)%nat -> (0 < bs)%Z ->
  scan args g Hinv M n rws bs s = Raise (unsupported nm).
Proof.
  intros args nm g Hinv M n rws bs s Hst Hn Hbs; unfold scan.
  destruct (range_blocks_pos Hn Hbs) as [rest ->]; simpl.
  unfold block_body at 1, run_block, block_end.
  assert (Hcount : exists c, (Nat.min (0 + Z.to_nat bs) n - 0)%nat = S c).
  { exists (Nat.min (Z.to_nat bs) n - 1)%nat; lia. }
  destruct Hcount as [c ->]; simpl.
  unfold column_body at 1, quantize_column; rewrite Hst; reflexivity.
Qed.

(** C6 (amended) -- unsupported strategy.  For a layer with at least one
    column, compressed with a positive block size, a strategy other than
    TENSOR, CHANNEL and GROUP makes [compress] raise: the [ValueError] of the
    strategy dispatch once the Hessian is there and factorizes, and the
    missing Hessian's or the factorization's error otherwise. *)
Theorem unsupported_strategy_raises :
  forall (self : GPTQWrapper Qz) bs pd args nm,
  quantization_scheme_weights (layer self) = Some args ->
  strategy args = OtherStrategy nm ->
  (0 < columns self)%nat -> (0 < bs)%Z ->
  exists self' e,
    compress_ self bs pd = (self', Raised e) /\
    (e = AttributeError "H" \/ e = LinAlgError \/ e = unsupported nm) /\
    (forall H1 L Hinv,
       H self = Some H1 ->
       cholesky (damped self pd H1) = Ok L ->
       cholesky_upper (cholesky_inverse L) = Ok Hinv ->
       e = unsupported nm).
Proof.
  intros self bs pd args nm Hargs Hst Hn Hbs.
  unfold compress; rewrite Hargs.
  unfold prepare; rewrite Hst; unfold getattr_H; cbn [pW pg_idx pobs].
  destruct (H self) as [H1 |] eqn:HH.
  - fold (damped self pd H1).
    destruct (cholesky (damped self pd H1)) as [L | e] eqn:HL.
    + destruct (cholesky_upper (cholesky_inverse L)) as [Hinv | e] eqn:HU.
      * rewrite (scan_unsupported _ _ _ _ _ _ Hst Hn Hbs).
        eexists; eexists; split; [reflexivity |]; split; [auto |].
        intros; reflexivity.
      * eexists; eexists; split; [reflexivity |].
        pose proof (cholesky_upper_raise _ HU) as He; subst e; split; [auto |].
        intros H1' L' Hinv' Heq HL' HU'; injection Heq as <-.
        rewrite HL in HL'; injection HL' as <-.
        rewrite HU in HU'; discriminate.
    + eexists; eexists; split; [reflexivity |].
      apply cholesky_raise in HL as He; subst e; split; [auto |].
      intros H1' L' Hinv' Heq HL' HU'; injection Heq as <-.
      rewrite HL in HL'; discriminate.
  - eexists; eexists; split; [reflexivity |]; split; [auto |].
    intros; discriminate.
Qed.


(** C9 -- weight atomicity on error.  Whatever error [compress] raises, the
    layer (its weight, scale, zero point and group index map) is exactly as
    before the call; the Hessian buffer is not restored: after a failed
    factorization it holds the damped matrix, and after an error raised in
    the scan (the unsupported-strategy error among them) it holds the
    factor. *)
Theorem compress_error_atomic :
  forall (self self' : GPTQWrapper Qz) bs pd e,
  compress_ self bs pd = (self', Raised e) ->
  layer self' = layer self /\
  (forall args self1 p H1,
     quantization_scheme_weights (layer self) = Some args ->
     prepare self args (standardize (layer_kind (layer self)) (weight (layer self)))
             (get_observer Qz args) = Ok (self1, p) ->
     getattr_H self1 = Ok H1 ->
     (forall e', cholesky (damped self pd H1) = Raise e' ->
                 H self' = Some (damped self pd H1)) /\
     (forall L Hinv,
        cholesky (damped self pd H1) = Ok L ->
        cholesky_upper (cholesky_inverse L) = Ok Hinv ->
        H self' = Some Hinv)).
Proof.
  intros self self' bs pd e Hrun; split; [eapply compress_raised_layer; exact Hrun |].
  intros args self1 p H1 Hargs Hprep HH.
  unfold compress in Hrun; rewrite Hargs, Hprep, HH in Hrun.
  fold (damped self pd H1) in Hrun.
  split.
  - intros e' HL; rewrite HL in Hrun; injection Hrun as <- _; reflexivity.
  - intros L Hinv HL HU; rewrite HL, HU in Hrun.
    destruct (scan _ _ _ _ _ _ _ _) as [s | e1].
    + destruct (unpermute _ _ _ _); discriminate.
    + injection Hrun as <- _; reflexivity.
Qed.

End CompressFacts.

(** ** The GROUP activation-ordering scenario *)

Section GroupOrderingScenario.

Variable Qz : Quantizer QcS.
Variable tensor_sparsity : mat QcS -> QcS.
Variable SPARSITY_THRESHOLD : QcS.

(** The Hessian diagonal [0.1, 0.9, 0.5, 0.2]. *)
Definition scenario_diag : vec QcS :=
  [Q2Qc (1 # 10); Q2Qc (9 # 10); Q2Qc (1 # 2); Q2Qc (1 # 5)].

Lemma scenario_perm : argsort_desc scenario_diag = [1; 2; 3; 0]%nat.
Proof. vm_compute; reflexivity. Qed.

Lemma scenario_invperm : argsort_nat [1; 2; 3; 0]%nat = [3; 0; 1; 2]%nat.
Proof. vm_compute; reflexivity. Qed.

(** C5 -- GROUP activation ordering on four columns.  With group size 2 and
    Hessian diagonal [0.1, 0.9, 0.5, 0.2] the permutation is [1, 2, 3, 0];
    when [compress] returns, the persisted [weight_g_idx] is [1, 0, 0, 1]:
    not the identity map [0, 0, 1, 1], and for each original column the
    group of its position in the permuted order. *)
Theorem group_actorder_scenario :
  forall (self self' : GPTQWrapper Qz) (Hm : mat QcS) bs pd args,
  columns self = 4%nat ->
  H self = Some Hm ->
  nrows Hm = 4%nat ->
  diag 4 Hm = scenario_diag ->
  quantization_scheme_weights (layer self) = Some args ->
  strategy args = GROUP ->
  actorder args = Some ActGROUP ->
  group_size args = 2%Z ->
  compress tensor_sparsity SPARSITY_THRESHOLD self bs pd = (self', Returned) ->
  argsort_desc (diag (nrows Hm) Hm) = [1; 2; 3; 0]%nat /\
  weight_g_idx (layer self') = Some [1; 0; 0; 1]%Z /\
  [1; 0; 0; 1]%Z <> [0; 0; 1; 1]%Z /\
  (forall c, (c < 4)%nat ->
     nth c [1; 0; 0; 1]%Z 0%Z
     = (Z.of_nat (nth c (argsort_nat [1; 2; 3; 0]%nat) O) / 2)%Z).
Proof.
  intros self self' Hm bs pd args Hcols HH Hrows Hdiag Hargs Hst Hact Hgs Hrun.
  assert (Hperm : argsort_desc (diag (nrows Hm) Hm) = [1; 2; 3; 0]%nat)
    by (rewrite Hrows, Hdiag; apply scenario_perm).
  split; [exact Hperm |].
  split; [| split; [discriminate |]].
  - destruct (@compress_returned QcS Qz tensor_sparsity SPARSITY_THRESHOLD
                                 self self' bs pd args Hargs Hrun)
      as (self1 & p & H1 & L & Hinv & s & Hprep & _ & _ & _ & _ & ->).
    unfold prepare in Hprep; rewrite Hst, Hact, Hgs, Hcols in Hprep.
    unfold getattr_H in Hprep; rewrite HH in Hprep.
    cbn [group_index_map Z.eqb bind] in Hprep.
    unfold _apply_activation_ordering in Hprep; rewrite Hperm in Hprep.
    rewrite scenario_invperm in Hprep.
    injection Hprep as _ <-.
    unfold finish, unpermute; rewrite Hst, Hact; reflexivity.
  - intros c Hc; rewrite scenario_invperm.
    do 4 (destruct c as [| c]; [reflexivity |]); lia.
Qed.

End GroupOrderingScenario.

(** ** The blockwise scan *)

Lemma for_each_invariant :
  forall (A S : Type) (body : A -> S -> result S) (P : S -> Prop) xs s s',
  (forall x t t', In x xs -> P t -> body x t = Ok t' -> P t') ->
  P s -> for_each body xs s = Ok s' -> P s'.
Proof.
  intros A S body P xs; induction xs as [| x xs IH]; intros s s' Hstep Hs Hrun; simpl in Hrun.
  - injection Hrun as <-; exact Hs.
  - destruct (body x s) as [t | e] eqn:Hb; simpl in Hrun; [| discriminate].
    apply (IH t s'); [| eapply Hstep; [left; reflexivity | exact Hs | exact Hb] | exact Hrun].
    intros y u u' Hy; apply Hstep; right; exact Hy.
Qed.

Section ScanFacts.

Variable K : Scalar.
Variable Qz : Quantizer K.

Add Field Kfield_scan : (s_field K).

Local Open Scope scalar_scope.

(** The contract of [fake_quantize] used below: zero lies on the grid, so an
    entry that is zero is quantized to zero. *)
Definition zero_preserving : Prop :=
  forall (w : vec K) s z a r,
    nth r w 0 = 0 -> nth r (fake_quantize Qz w s z a) 0 = 0.

Lemma sdiv_0_l : forall y : K, 0 / y = 0.
Proof. intros y; rewrite (Fdiv_def (s_field K)); ring. Qed.

Lemma entry_zeros : forall m n r c, entry (zeros K m n) r c = 0.
Proof.
  intros m n r c; unfold zeros; rewrite entry_mk_mat_default.
  destruct (_ && _); reflexivity.
Qed.

Lemma entry_set_col : forall (M : mat K) c v r k,
  entry (set_col M c v) r k
  = if ((r <? nrows M) && (k <? ncols M))%nat
    then (if (k =? c)%nat then nth r v 0 else entry M r k)
    else 0.
Proof. intros; unfold set_col; apply entry_mk_mat_default. Qed.

Lemma nth_col : forall (M : mat K) c r,
  nth r (col M c) 0 = entry M r c.
Proof.
  intros M c r; unfold col; rewrite nth_mk_vec_default.
  destruct (Nat.ltb_spec r (nrows M)) as [Hr | Hr]; [reflexivity |].
  symmetry; apply entry_row_overflow; exact Hr.
Qed.

Lemma quantize_column_zero :
  zero_preserving ->
  forall args g (o o' : observer Qz) W c w q r,
  quantize_column args g o W c w = Ok (o', q) ->
  nth r w 0 = 0 -> nth r q 0 = 0.
Proof.
  intros Hzp args g o o' W c w q r Hq Hw; unfold quantize_column in Hq.
  destruct (strategy args).
  - injection Hq as _ <-; apply Hzp, Hw.
  - destruct (calculate_qparams Qz o w) as [o1 [us uz]].
    destruct (setitem_row Qz _ _ us) as [s' | e]; [| discriminate]; simpl in Hq.
    destruct (setitem_row Qz _ _ uz) as [z' | e]; [| discriminate]; simpl in Hq.
    destruct (getitem_col Qz s' _) as [s | e]; [| discriminate]; simpl in Hq.
    destruct (getitem_col Qz z' _) as [z | e]; [| discriminate]; simpl in Hq.
    injection Hq as _ <-; apply Hzp, Hw.
  - destruct (get_qparams_along_dim Qz o _) as [o1 [us uz]].
    destruct (getitem_col Qz us _) as [us0 | e]; [| discriminate]; simpl in Hq.
    destruct (setitem_col Qz _ _ us0) as [s' | e]; [| discriminate]; simpl in Hq.
    destruct (getitem_col Qz uz _) as [uz0 | e]; [| discriminate]; simpl in Hq.
    destruct (setitem_col Qz _ _ uz0) as [z' | e]; [| discriminate]; simpl in Hq.
    destruct (getitem_col Qz s' _) as [s | e]; [| discriminate]; simpl in Hq.
    destruct (getitem_col Qz z' _) as [z | e]; [| discriminate]; simpl in Hq.
    injection Hq as _ <-; apply Hzp, Hw.
  - discriminate.
Qed.

(** What one step of the column loop leaves in [W1], [Q1] and [Err1]. *)
Lemma column_body_inv :
  forall args g W Hinv1 M1 i1 count i (b b' : Block Qz),
  column_body args g W Hinv1 M1 i1 count i b = Ok b' ->
  exists o' q,
    quantize_column args g (bobs b) W (i1 + i) (col (W1 b) i) = Ok (o', q) /\
    bobs b' = o' /\
    Q1 b' = set_col (Q1 b) i q /\
    Err1 b' = set_col (Err1 b) i
                (mk_vec (length (col (W1 b) i))
                        (fun r => (nth r (col (W1 b) i) 0 - nth r q 0) / entry Hinv1 i i)) /\
    forall r k,
      entry (W1 b') r k
      = if ((r <? nrows (W1 b)) && (k <? count))%nat
        then if (k <? i)%nat then entry (W1 b) r k
             else entry (W1 b) r k
                  - (entry (W1 b) r i - nth r q 0) / entry Hinv1 i i
                    * entry Hinv1 i k
                    * match M1 with Some M => entry M r k | None => 1 end
        else 0.
Proof.
  intros args g W Hinv1 M1 i1 count i b b' Hrun; unfold column_body in Hrun.
  destruct (quantize_column _ _ _ _ _ _) as [[o' q] | e] eqn:Hq; simpl in Hrun; [| discriminate].
  injection Hrun as <-; exists o', q; cbn [bobs Q1 Err1 W1].
  repeat (split; [reflexivity |]).
  intros r k; rewrite entry_mk_mat_default.
  destruct ((r <? nrows (W1 b))%nat && (k <? count)%nat) eqn:Hin; [| reflexivity].
  apply andb_prop in Hin; destruct Hin as [Hr Hk].
  destruct (Nat.ltb_spec k i) as [Hki | Hki]; [reflexivity |].
  apply Nat.ltb_lt in Hr, Hk.
  assert (Herr : entry (mk_mat (length (mk_vec (length (col (W1 b) i))
                   (fun r0 => (nth r0 (col (W1 b) i) 0 - nth r0 q 0) / entry Hinv1 i i)))
                   (count - i)
                   (fun r0 k0 => nth r0 (mk_vec (length (col (W1 b) i))
                      (fun r1 => (nth r1 (col (W1 b) i) 0 - nth r1 q 0) / entry Hinv1 i i)) 0
                      * entry Hinv1 i (i + k0))) r (k - i)
                 = (entry (W1 b) r i - nth r q 0) / entry Hinv1 i i * entry Hinv1 i k).
  { unfold col at 1 2; rewrite !length_mk_vec.
    rewrite entry_mk_mat by lia.
    rewrite nth_mk_vec by (unfold col; rewrite length_mk_vec; exact Hr).
    rewrite nth_col; replace (i + (k - i))%nat with k by lia; reflexivity. }
  destruct M1 as [M |]; rewrite Herr; [reflexivity | ring].
Qed.

(** *** Entries that stay zero under the mask *)

Section ZeroPreservation.

Hypothesis Hzp : zero_preserving.

Variable args : QuantizationArgs.
Variable g : list Z.
Variable Hinv : mat K.
Variable M : mat K.
Variables n rws : nat.

(** The positions under consideration: the mask is zero there. *)
Variable ZP : nat -> nat -> Prop.
Hypothesis ZP_mask : forall r c, ZP r c -> entry M r c = 0.

Definition zeros_kept_block (i1 : nat) (b : Block Qz) : Prop :=
  forall r k, ZP r (i1 + k) -> entry (W1 b) r k = 0 /\ entry (Q1 b) r k = 0.

Definition zeros_kept (s : Scan Qz) : Prop :=
  forall r c, ZP r c -> entry (sW s) r c = 0.

Lemma column_body_keeps : forall W Hinv1 M1 i1 count i (b b' : Block Qz),
  (forall r k, ZP r (i1 + k) -> entry M1 r k = 0) ->
  column_body args g W Hinv1 (Some M1) i1 count i b = Ok b' ->
  zeros_kept_block i1 b -> zeros_kept_block i1 b'.
Proof.
  intros W Hinv1 M1 i1 count i b b' HM1 Hrun Hb r k Hz.
  destruct (column_body_inv _ _ _ _ _ _ _ _ _ Hrun) as (o' & q & Hq & _ & HQ & _ & HW).
  destruct (Hb r k Hz) as [Hw0 Hq0]; split.
  - rewrite HW; destruct (_ && _); [| reflexivity].
    destruct (k <? i)%nat; [exact Hw0 |].
    rewrite Hw0, (HM1 r k Hz); ring.
  - rewrite HQ, entry_set_col; destruct (_ && _); [| reflexivity].
    destruct (Nat.eqb_spec k i) as [-> | _]; [| exact Hq0].
    eapply quantize_column_zero; [exact Hzp | exact Hq |].
    rewrite nth_col; exact Hw0.
Qed.

Lemma block_body_keeps : forall bs i1 (s s' : Scan Qz),
  block_body args g Hinv (Some M) n rws bs i1 s = Ok s' ->
  zeros_kept s -> zeros_kept s'.
Proof.
  intros bs i1 s s' Hrun Hs; unfold block_body in Hrun.
  destruct (run_block _ _ _ _ _ _ _ _) as [b | e] eqn:Hb; simpl in Hrun; [| discriminate].
  injection Hrun as <-.
  assert (Hkept : zeros_kept_block i1 b).
  { unfold run_block in Hb; cbn [option_map] in Hb.
    eapply for_each_invariant; [| | exact Hb].
    - intros i t t' _ Ht Hstep; eapply column_body_keeps; [| exact Hstep | exact Ht].
      intros r k Hz; rewrite entry_mk_mat_default.
      destruct (_ && _); [apply ZP_mask, Hz | reflexivity].
    - intros r k Hz; unfold block_init; cbn [W1 Q1]; split.
      + rewrite entry_mk_mat_default; destruct (_ && _); [apply Hs, Hz | reflexivity].
      + apply entry_zeros. }
  intros r c Hz; unfold block_finish; cbn [sW].
  rewrite entry_mk_mat_default; destruct (_ && _); [| reflexivity].
  destruct (Nat.ltb_spec c i1) as [Hc1 | Hc1]; [apply Hs, Hz |].
  destruct (c <? block_end n bs i1)%nat.
  - apply (Hkept r (c - i1)%nat); replace (i1 + (c - i1))%nat with c by lia; exact Hz.
  - rewrite (Hs r c Hz), (ZP_mask Hz); ring.
Qed.

Lemma scan_keeps : forall bs (s s' : Scan Qz),
  scan args g Hinv (Some M) n rws bs s = Ok s' ->
  zeros_kept s -> zeros_kept s'.
Proof.
  intros bs s s' Hrun Hs; unfold scan in Hrun.
  destruct (range_blocks n bs) as [starts | e]; simpl in Hrun; [| discriminate].
  eapply for_each_invariant; [| exact Hs | exact Hrun].
  intros i1 t t' _ Ht Hstep; eapply block_body_keeps; eassumption.
Qed.

End ZeroPreservation.

End ScanFacts.

(** ** Sparsity preservation *)

Section SparsityFacts.

Variable K : Scalar.
Variable Qz : Quantizer K.
Variable tensor_sparsity : mat K -> K.
Variable SPARSITY_THRESHOLD : K.

Add Field Kfield_sparsity : (s_field K).

Local Open Scope scalar_scope.

Lemma entry_permute_cols : forall (perm : list nat) (W : mat K) r k,
  entry (permute_cols perm W) r k
  = if ((r <? nrows W) && (k <? length perm))%nat
    then entry W r (nth k perm O) else 0.
Proof.
  intros perm W r k; unfold permute_cols.
  exact (@entry_mk_mat_default K (nrows W) (length perm)
           (fun r k => entry W r (nth k perm O)) r k).
Qed.

Lemma entry_transpose : forall (M : mat K) a b,
  entry (transpose M) a b
  = if ((a <? ncols M) && (b <? nrows M))%nat then entry M b a else 0.
Proof.
  intros M a b; unfold transpose.
  exact (@entry_mk_mat_default K (ncols M) (nrows M) (fun i j => entry M j i) a b).
Qed.

Lemma unpermute_weight : forall args (p : Prepared Qz) W (l : Layer Qz),
  weight (snd (unpermute args p W l)) = weight l /\
  layer_kind (snd (unpermute args p W l)) = layer_kind l.
Proof.
  intros args p W l; unfold unpermute.
  destruct (strategy args); try (split; reflexivity).
  destruct (actorder args) as [[|] |]; split; reflexivity.
Qed.

(** The permutation computed from a Hessian is a permutation of the indices
    [0 .. nrows H - 1]. *)
Lemma ordering_perm : forall (H0 : mat K),
  let perm := argsort_desc (diag (nrows H0) H0) in
  Permutation perm (seq 0 (length perm)).
Proof.
  intros H0 perm; unfold perm.
  rewrite length_argsort_desc; apply argsort_desc_perm.
Qed.

(** Entries that are zero in the weight, and zero in [X] wherever the
    prepared weight is, are zero in the un-permuted [X]. *)
Lemma unpermute_zero :
  forall (self self1 : GPTQWrapper Qz) args W0 o p (X : mat K) (l : Layer Qz),
  prepare self args W0 o = Ok (self1, p) ->
  (forall r k, entry (pW p) r k = 0 -> entry X r k = 0) ->
  forall r c, entry W0 r c = 0 -> entry (fst (unpermute args p X l)) r c = 0.
Proof.
  intros self self1 args W0 o p X l Hprep HX r c H0.
  assert (Hperm : forall H1 : mat K,
            entry (permute_cols (argsort_nat (argsort_desc (diag (nrows H1) H1))) X) r c = 0
            \/ True ->
            (forall r k, entry (permute_cols (argsort_desc (diag (nrows H1) H1)) W0) r k = 0 ->
                         entry X r k = 0) ->
            entry (permute_cols (argsort_nat (argsort_desc (diag (nrows H1) H1))) X) r c = 0).
  { intros H1 _ HX1; rewrite entry_permute_cols.
    destruct ((r <? nrows X)%nat && _) eqn:Hin; [| reflexivity].
    apply andb_prop in Hin; destruct Hin as [_ Hc]; apply Nat.ltb_lt in Hc.
    rewrite length_argsort_nat in Hc.
    apply HX1; rewrite entry_permute_cols.
    destruct (_ && _); [| reflexivity].
    rewrite perm_invperm; [exact H0 | apply ordering_perm | exact Hc]. }
  unfold prepare in Hprep; unfold unpermute.
  destruct (strategy args);
    try (injection Hprep as _ <-; cbn [pW] in HX; apply HX, H0).
  destruct (group_index_map _ _) as [gi | e]; [| discriminate]; cbn [bind] in Hprep.
  destruct (actorder args) as [[|] |].
  - destruct (getattr_H self) as [H1 | e]; [| discriminate]; cbn [bind] in Hprep.
    unfold _apply_activation_ordering in Hprep.
    injection Hprep as _ <-; cbn [pW pinvperm fst] in *.
    apply Hperm; [right; exact I | exact HX].
  - destruct (getattr_H self) as [H1 | e]; [| discriminate]; cbn [bind] in Hprep.
    unfold _apply_activation_ordering in Hprep.
    injection Hprep as _ <-; cbn [pW pinvperm fst] in *.
    apply Hperm; [right; exact I | exact HX].
  - injection Hprep as _ <-; cbn [pW] in HX; apply HX, H0.
Qed.

(** C8 -- sparsity preservation.  For a quantizer that maps zero to zero:
    when the sparsity of the prepared weight reaches [SPARSITY_THRESHOLD],
    so that the zero-preservation mask is active, and [compress] returns,
    every entry of the layer weight that was zero before the call is zero in
    the weight written back. *)
Theorem sparsity_preserved :
  zero_preserving Qz ->
  forall (self self' : GPTQWrapper Qz) bs pd args,
  quantization_scheme_weights (layer self) = Some args ->
  (forall self1 p,
     prepare self args (standardize (layer_kind (layer self)) (weight (layer self)))
             (get_observer Qz args) = Ok (self1, p) ->
     sleb SPARSITY_THRESHOLD (tensor_sparsity (pW p)) = true) ->
  compress tensor_sparsity SPARSITY_THRESHOLD self bs pd = (self', Returned) ->
  forall a b, entry (weight (layer self)) a b = 0 -> entry (weight (layer self')) a b = 0.
Proof.
  intros Hzp self self' bs pd args Hargs Hactive Hrun a b Hab.
  destruct (@compress_returned K Qz tensor_sparsity SPARSITY_THRESHOLD
                               self self' bs pd args Hargs Hrun)
    as (self1 & p & H1 & L & Hinv & s & Hprep & _ & _ & _ & Hscan & ->).
  specialize (Hactive self1 p Hprep).
  unfold nz_mask in Hscan; rewrite Hactive in Hscan.
  set (M := mk_mat (nrows (pW p)) (ncols (pW p))
                   (fun r c => if isclose0 (entry (pW p) r c) then 0 else 1)) in Hscan.
  assert (Hkept : zeros_kept (fun r k => entry (pW p) r k = 0) s).
  { eapply scan_keeps; [exact Hzp | | exact Hscan |].
    - intros r c Hz; unfold M; rewrite entry_mk_mat_default, Hz, isclose0_0.
      destruct (_ && _); reflexivity.
    - intros r c Hz; unfold scan_start, mask_dead_W; cbn [sW].
      rewrite entry_mk_mat_default.
      destruct (_ && _); [| reflexivity]; destruct (nth c _ false); [reflexivity | exact Hz]. }
  cbn [set_layer layer]; unfold finish, commit; cbn [weight].
  destruct (unpermute_weight args p (sW s) (layer self)) as [Hw Hk]; rewrite Hw.
  rewrite entry_mk_mat_default.
  destruct ((a <? nrows (weight (layer self)))%nat && (b <? ncols (weight (layer self)))%nat)
    eqn:Hin; [| reflexivity].
  rewrite entry_mk_mat_default, Hin.
  assert (Hu : forall r c,
            entry (standardize (layer_kind (layer self)) (weight (layer self))) r c = 0 ->
            entry (fst (unpermute args p (sW s) (layer self))) r c = 0).
  { intros r c; eapply unpermute_zero; [exact Hprep | exact Hkept]. }
  assert (Hf : entry (standardize (layer_kind (layer self))
                        (fst (unpermute args p (sW s) (layer self)))) a b = 0).
  { destruct (layer_kind (layer self)); cbn [standardize] in *.
    - apply Hu, Hab.
    - rewrite entry_transpose.
      match goal with |- (if ?c then _ else _) = _ => destruct c end; [| reflexivity].
      apply Hu; rewrite entry_transpose, Hab.
      match goal with |- (if ?c then _ else _) = _ => destruct c end; reflexivity.
    - apply Hu, Hab. }
  rewrite Hf; ring.
Qed.

End SparsityFacts.

(** ** The factorization around an isolated index *)

Section FactorFacts.

Variable K : Scalar.

Add Field Kfield_factor : (s_field K).

Local Open Scope scalar_scope.

(** Row and column [d] of [A] are zero off the diagonal. *)
Definition isolated (d : nat) (A : mat K) : Prop :=
  forall k, k <> d -> entry A d k = 0 /\ entry A k d = 0.

Lemma sdiv_zero : forall y : K, 0 / y = 0.
Proof. intros y; rewrite (Fdiv_def (s_field K)); ring. Qed.

Lemma dot_zero_l : forall u v : vec K, (forall k, nth k u 0 = 0) -> dot u v = 0.
Proof.
  intros u v Hu; unfold dot; apply sum_n_zero; intros k _; rewrite Hu; ring.
Qed.

Lemma dot_zero_r : forall u v : vec K,
  (forall k, (k < length u)%nat -> nth k v 0 = 0) -> dot u v = 0.
Proof.
  intros u v Hv; unfold dot; apply sum_n_zero; intros k Hk; rewrite Hv by exact Hk; ring.
Qed.

Lemma nth_snoc_zero : forall (acc : vec K) k,
  (forall k, nth k acc 0 = 0) -> nth k (acc ++ [0]) 0 = 0.
Proof.
  intros acc k Hacc; destruct (Nat.lt_ge_cases k (length acc)) as [Hk | Hk].
  - rewrite app_nth1 by exact Hk; apply Hacc.
  - rewrite app_nth2 by exact Hk.
    destruct (k - length acc)%nat as [| [| m]]; reflexivity.
Qed.

Lemma chol_row_entries_length : forall (a : vec K) above j acc,
  length (chol_row_entries a above j acc) = (length acc + length above)%nat.
Proof.
  intros a above; induction above as [| l above IH]; intros j acc; simpl; [lia |].
  rewrite IH, length_app; simpl; lia.
Qed.

(** A row whose entries left of the diagonal are zero in [A] is zero in the
    factor. *)
Lemma chol_row_entries_zero : forall (a : vec K) above j acc,
  (forall k, nth k acc 0 = 0) ->
  (forall c, (j <= c < j + length above)%nat -> nth c a 0 = 0) ->
  forall k, nth k (chol_row_entries a above j acc) 0 = 0.
Proof.
  intros a above; induction above as [| l above IH]; intros j acc Hacc Ha k; simpl.
  - apply Hacc.
  - apply IH.
    + intros k'; rewrite Ha by (simpl; lia).
      rewrite dot_zero_l by exact Hacc.
      replace (0 - 0) with (0 : K) by ring; rewrite sdiv_zero.
      apply nth_snoc_zero, Hacc.
    + intros c Hc; apply Ha; simpl; lia.
Qed.

(** Entry [d] of a later row: zero when [A] is zero there and row [d] of
    the factor is zero left of the diagonal. *)
Lemma chol_row_entries_col : forall (a : vec K) d above j acc,
  length acc = j ->
  ((d < j)%nat -> nth d acc 0 = 0) ->
  ((j <= d)%nat -> nth d a 0 = 0 /\
                   forall k, (k < d)%nat -> nth k (nth (d - j) above []) 0 = 0) ->
  nth d (chol_row_entries a above j acc) 0 = 0.
Proof.
  intros a d above; induction above as [| l above IH]; intros j acc Hlen Hlt Hge; simpl.
  - destruct (Nat.lt_ge_cases d j) as [Hd | Hd]; [apply Hlt, Hd |].
    apply nth_overflow; lia.
  - apply IH.
    + rewrite length_app; simpl; lia.
    + intros Hd; destruct (Nat.eq_dec d j) as [-> | Hne].
      * rewrite app_nth2 by lia; rewrite Hlen, Nat.sub_diag; simpl.
        destruct (Hge (Nat.le_refl j)) as [Ha Hl].
        rewrite Nat.sub_diag in Hl; simpl in Hl.
        rewrite Ha, dot_zero_r by (intros k Hk; apply Hl; lia).
        replace (0 - 0) with (0 : K) by ring; apply sdiv_zero.
      * rewrite app_nth1 by lia; apply Hlt; lia.
    + intros Hd; destruct (Hge ltac:(lia)) as [Ha Hl]; split; [exact Ha |].
      intros k Hk; specialize (Hl k Hk).
      replace (d - j)%nat with (S (d - S j)) in Hl by lia; exact Hl.
Qed.

Lemma nth_snoc_row : forall (L : mat K) row i,
  nth i (L ++ [row]) [] =
  if (i <? length L)%nat then nth i L []
  else if (i =? length L)%nat then row else [].
Proof.
  intros L row i; destruct (Nat.ltb_spec i (length L)) as [Hi | Hi].
  - apply app_nth1; exact Hi.
  - rewrite app_nth2 by exact Hi.
    destruct (Nat.eqb_spec i (length L)) as [-> | Hne].
    + rewrite Nat.sub_diag; reflexivity.
    + destruct (i - length L)%nat as [| m] eqn:Hm; [lia |]; destruct m; reflexivity.
Qed.

(** The pattern of the factor around an index [d]: row [d] is zero left of
    the diagonal, and column [d] is zero below it. *)
Definition chol_pattern (d : nat) (L : mat K) : Prop :=
  (forall c, (c < d)%nat -> entry L d c = 0) /\
  (forall i, (d < i)%nat -> entry L i d = 0).

Lemma chol_rows_pattern : forall (A : mat K) d n todo L L',
  (forall c, (c < d)%nat -> entry A d c = 0) ->
  (forall i, (d < i)%nat -> entry A i d = 0) ->
  chol_rows A n todo L = Ok L' ->
  chol_pattern d L -> chol_pattern d L'.
Proof.
  intros A d n todo; induction todo as [| todo IH]; intros L L' Hrow Hcol Hrun HL; simpl in Hrun.
  - injection Hrun as <-; exact HL.
  - destruct (sleb _ _); [discriminate |].
    apply IH in Hrun; try assumption; clear IH.
    destruct HL as [HLrow HLcol]; unfold chol_pattern, entry.
    set (a := nth (length L) A []) in *.
    set (acc := chol_row_entries a L 0 []) in *.
    assert (Hacc_len : length acc = length L)
      by (unfold acc; rewrite chol_row_entries_length; reflexivity).
    split.
    + intros c Hc; rewrite nth_snoc_row.
      destruct (Nat.ltb_spec d (length L)) as [Hd | Hd]; [apply HLrow, Hc |].
      destruct (Nat.eqb_spec d (length L)) as [Hd' | Hd']; [| destruct c; reflexivity].
      rewrite app_nth1 by lia.
      unfold acc; apply chol_row_entries_zero.
      * intros k; destruct k; reflexivity.
      * intros c' Hc'; unfold a; rewrite <- Hd'; apply Hrow; lia.
    + intros i Hi; rewrite nth_snoc_row.
      destruct (Nat.ltb_spec i (length L)) as [Hil | Hil]; [apply HLcol, Hi |].
      destruct (Nat.eqb_spec i (length L)) as [Hi' | Hi']; [| destruct d; reflexivity].
      rewrite app_nth1 by lia.
      unfold acc; apply chol_row_entries_col.
      * reflexivity.
      * lia.
      * intros _; split.
        -- unfold a; rewrite <- Hi'; apply Hcol, Hi.
        -- intros k Hk; rewrite Nat.sub_0_r; apply HLrow, Hk.
Qed.

Lemma cholesky_pattern : forall (A L : mat K) d,
  (forall c, (c < d)%nat -> entry A d c = 0) ->
  (forall i, (d < i)%nat -> entry A i d = 0) ->
  cholesky A = Ok L -> chol_pattern d L.
Proof.
  intros A L d Hrow Hcol Hrun; unfold cholesky in Hrun.
  eapply chol_rows_pattern; try eassumption.
  split; intros; unfold entry; [destruct d | destruct i]; (destruct c || destruct d);
    reflexivity.
Qed.

Lemma entry_snoc_row : forall (X : mat K) row r c,
  entry (X ++ [row]) r c =
  if (r <? length X)%nat then entry X r c
  else if (r =? length X)%nat then nth c row 0 else 0.
Proof.
  intros X row r c; unfold entry; rewrite nth_snoc_row.
  destruct (r <? length X)%nat; [reflexivity |].
  destruct (r =? length X)%nat; [reflexivity | destruct c; reflexivity].
Qed.

Lemma entry_nil : forall r c, entry ([] : mat K) r c = 0.
Proof. intros r c; unfold entry; destruct r; destruct c; reflexivity. Qed.

Lemma isolated_nil : forall d, isolated d ([] : mat K).
Proof. intros d k _; split; apply entry_nil. Qed.

(** The inverse of a triangular factor with the pattern has index [d]
    isolated. *)
Lemma tri_inv_rows_isolated : forall (L : mat K) d n todo X,
  chol_pattern d L -> isolated d X -> isolated d (tri_inv_rows L n todo X).
Proof.
  intros L d n todo; induction todo as [| todo IH]; intros X HL HX; simpl; [exact HX |].
  apply IH; [exact HL |]; clear IH.
  destruct HL as [HLrow HLcol].
  intros k Hk; rewrite !entry_snoc_row; split.
  - (* row d *)
    destruct (d <? length X)%nat; [apply HX, Hk |].
    destruct (Nat.eqb_spec d (length X)) as [Hd | Hd]; [| reflexivity].
    rewrite nth_mk_vec_default; destruct (k <? n)%nat; [| reflexivity].
    destruct (Nat.eqb_spec (length X) k) as [Heq | _]; [congruence |].
    rewrite sum_n_zero.
    + replace (0 - 0) with (0 : K) by ring; apply sdiv_zero.
    + intros m Hm; rewrite <- Hd, HLrow by lia; ring.
  - (* column d *)
    destruct (k <? length X)%nat; [apply HX, Hk |].
    destruct (Nat.eqb_spec k (length X)) as [Hkl | Hkl]; [| reflexivity].
    rewrite nth_mk_vec_default; destruct (d <? n)%nat; [| reflexivity].
    destruct (Nat.eqb_spec (length X) d) as [Heq | _]; [congruence |].
    rewrite sum_n_zero.
    + replace (0 - 0) with (0 : K) by ring; apply sdiv_zero.
    + intros m Hm; destruct (Nat.eq_dec m d) as [-> | Hmd].
      * rewrite <- Hkl, HLcol by lia; ring.
      * destruct (HX m Hmd) as [_ ->]; ring.
Qed.

Lemma tri_inv_isolated : forall (L : mat K) d,
  chol_pattern d L -> isolated d (tri_inv L).
Proof.
  intros L d HL; unfold tri_inv; apply tri_inv_rows_isolated; [exact HL | apply isolated_nil].
Qed.

Lemma entry_matmul : forall (A B : mat K) i j,
  entry (matmul A B) i j
  = if ((i <? nrows A) && (j <? ncols B))%nat
    then sum_n (ncols A) (fun k => entry A i k * entry B k j) else 0.
Proof.
  intros A B i j; unfold matmul.
  exact (@entry_mk_mat_default K (nrows A) (ncols B)
           (fun i j => sum_n (ncols A) (fun k => entry A i k * entry B k j)) i j).
Qed.

Lemma entry_transpose_f : forall (M : mat K) a b,
  entry (transpose M) a b
  = if ((a <? ncols M) && (b <? nrows M))%nat then entry M b a else 0.
Proof.
  intros M a b; unfold transpose.
  exact (@entry_mk_mat_default K (ncols M) (nrows M) (fun i j => entry M j i) a b).
Qed.

Lemma cholesky_inverse_isolated : forall (L : mat K) d,
  chol_pattern d L -> isolated d (cholesky_inverse L).
Proof.
  intros L d HL; pose proof (tri_inv_isolated HL) as HX.
  unfold cholesky_inverse; set (X := tri_inv L) in *.
  intros k Hk; rewrite !entry_matmul; split.
  - destruct (_ && _); [| reflexivity].
    apply sum_n_zero; intros m _; rewrite entry_transpose_f.
    destruct (Nat.eq_dec m d) as [-> | Hmd].
    + destruct (HX k Hk) as [-> _]; ring.
    + destruct (HX m Hmd) as [_ ->]; destruct (_ && _); ring.
  - destruct (_ && _); [| reflexivity].
    apply sum_n_zero; intros m _; rewrite entry_transpose_f.
    destruct (Nat.eq_dec m d) as [-> | Hmd].
    + destruct (HX k Hk) as [-> _]; destruct (_ && _); ring.
    + destruct (HX m Hmd) as [_ ->]; ring.
Qed.

(** The coefficient table [Hinv] of [compress]: above the diagonal, the
    column of an isolated index is zero. *)
Lemma Hinv_dead_column : forall (A L Hinv : mat K) d,
  isolated d A ->
  cholesky A = Ok L ->
  cholesky_upper (cholesky_inverse L) = Ok Hinv ->
  forall c, (c < d)%nat -> entry Hinv c d = 0.
Proof.
  intros A L Hinv d HA HL HU c Hc.
  assert (HLp : chol_pattern d L).
  { eapply cholesky_pattern; [| | exact HL].
    - intros c' Hc'; apply HA; lia.
    - intros i Hi; apply HA; lia. }
  pose proof (cholesky_inverse_isolated HLp) as HI.
  unfold cholesky_upper in HU.
  destruct (cholesky (cholesky_inverse L)) as [L3 | e] eqn:HL3; simpl in HU; [| discriminate].
  injection HU as <-.
  assert (HL3p : chol_pattern d L3).
  { eapply cholesky_pattern; [| | exact HL3].
    - intros c' Hc'; apply HI; lia.
    - intros i Hi; apply HI; lia. }
  rewrite entry_transpose_f; destruct (_ && _); [| reflexivity].
  apply HL3p, Hc.
Qed.

End FactorFacts.

(** ** Dead columns in the scan *)

Section DeadColumnScan.

Variable K : Scalar.
Variable Qz : Quantizer K.

Add Field Kfield_dead : (s_field K).

Local Open Scope scalar_scope.

(** The column of [Err1] for scan position [d], as the column loop of the
    block that holds [d] leaves it: the blocks before it are run, then the
    column loop of the block starting at [d / blocksize * blocksize]. *)
Definition error_column (args : QuantizationArgs) (g : list Z) (Hinv : mat K)
           (M : option (mat K)) (n rws : nat) (blocksize : Z)
           (s0 : Scan Qz) (d : nat) : result (vec K) :=
  do starts <- range_blocks n blocksize;
  let bs := Z.to_nat blocksize in
  do s_pre <- for_each (block_body args g Hinv M n rws bs) (firstn (d / bs) starts) s0;
  let i1 := (d / bs * bs)%nat in
  do blk <- run_block args g Hinv M n bs i1 s_pre;
  Ok (col (Err1 blk) (d - i1)).

Hypothesis Hzp : zero_preserving Qz.

Variable args : QuantizationArgs.
Variable g : list Z.
Variable Hinv : mat K.
Variable M : option (mat K).
Variables n rws : nat.

(** The scan position of the dead column, with the column of [Hinv] above
    the diagonal zero. *)
Variable d : nat.
Hypothesis Hinv_d : forall c, (c < d)%nat -> entry Hinv c d = 0.

Definition dead_in_block (i0 : nat) (b : Block Qz) : Prop :=
  forall r, entry (W1 b) r i0 = 0 /\ entry (Q1 b) r i0 = 0 /\ entry (Err1 b) r i0 = 0.

Definition dead_in_scan (s : Scan Qz) : Prop :=
  forall r, entry (sW s) r d = 0.

Lemma column_body_dead : forall W Hinv1 M1 i1 count i i0 (b b' : Block Qz),
  (forall a, (a < i0)%nat -> entry Hinv1 a i0 = 0) ->
  column_body args g W Hinv1 M1 i1 count i b = Ok b' ->
  dead_in_block i0 b -> dead_in_block i0 b'.
Proof.
  intros W Hinv1 M1 i1 count i i0 b b' HH1 Hrun Hb r.
  destruct (column_body_inv _ _ _ _ _ _ _ _ _ Hrun) as (o' & q & Hq & _ & HQ & HE & HW).
  destruct (Hb r) as (Hw0 & Hq0 & He0).
  assert (Hqz : i = i0 -> nth r q 0 = 0).
  { intros ->; eapply quantize_column_zero; [exact Hzp | exact Hq |].
    rewrite nth_col; exact Hw0. }
  split; [| split].
  - rewrite HW.
    match goal with |- (if ?c then _ else _) = _ => destruct c end; [| reflexivity].
    destruct (Nat.ltb_spec i0 i) as [Hlt | Hge]; [exact Hw0 |].
    destruct (Nat.eq_dec i i0) as [Heq | Hne].
    + subst i; rewrite Hw0, (Hqz eq_refl).
      replace (0 - 0) with (0 : K) by ring; rewrite sdiv_0_l; ring.
    + rewrite Hw0, HH1 by lia; ring.
  - rewrite HQ, entry_set_col.
    match goal with |- (if ?c then _ else _) = _ => destruct c end; [| reflexivity].
    destruct (Nat.eqb_spec i0 i) as [Heq | _]; [apply Hqz; congruence | exact Hq0].
  - rewrite HE, entry_set_col.
    match goal with |- (if ?c then _ else _) = _ => destruct c end; [| reflexivity].
    destruct (Nat.eqb_spec i0 i) as [Heq | _]; [| exact He0].
    rewrite nth_mk_vec_default.
    match goal with |- (if ?c then _ else _) = _ => destruct c end; [| reflexivity].
    subst i0; rewrite nth_col, Hw0, (Hqz eq_refl).
    replace (0 - 0) with (0 : K) by ring; apply sdiv_0_l.
Qed.

(** The column loop of the block that holds [d]. *)
Lemma run_block_dead : forall bs i1 (s : Scan Qz) b,
  (i1 <= d)%nat ->
  run_block args g Hinv M n bs i1 s = Ok b ->
  dead_in_scan s -> dead_in_block (d - i1) b.
Proof.
  intros bs i1 s b Hi1 Hrun Hs; unfold run_block in Hrun.
  eapply for_each_invariant; [| | exact Hrun].
  - intros i t t' _ Ht Hstep; eapply column_body_dead; [| exact Hstep | exact Ht].
    intros a Ha; rewrite entry_mk_mat_default.
    match goal with |- (if ?c then _ else _) = _ => destruct c end; [| reflexivity].
    replace (i1 + (d - i1))%nat with d by lia; apply Hinv_d; lia.
  - intros r; unfold block_init; cbn [W1 Q1 Err1].
    rewrite !entry_zeros, entry_mk_mat_default.
    replace (i1 + (d - i1))%nat with d by lia.
    split; [| split; reflexivity].
    match goal with |- (if ?c then _ else _) = _ => destruct c end; [apply Hs | reflexivity].
Qed.

Lemma block_body_dead : forall bs i1 (s s' : Scan Qz),
  block_body args g Hinv M n rws bs i1 s = Ok s' ->
  dead_in_scan s -> dead_in_scan s'.
Proof.
  intros bs i1 s s' Hrun Hs; unfold block_body in Hrun.
  destruct (run_block _ _ _ _ _ _ _ _) as [b | e] eqn:Hb; simpl in Hrun; [| discriminate].
  injection Hrun as <-; intros r.
  unfold block_finish; cbn [sW]; rewrite entry_mk_mat_default.
  match goal with |- (if ?c then _ else _) = _ => destruct c end; [| reflexivity].
  destruct (Nat.ltb_spec d i1) as [Hd1 | Hd1]; [apply Hs |].
  destruct (Nat.ltb_spec d (block_end n bs i1)) as [Hd2 | Hd2].
  - eapply run_block_dead; eassumption.
  - assert (Herr : entry (matmul (Err1 b)
                     (mk_mat (block_end n bs i1 - i1) (n - block_end n bs i1)
                        (fun a c => entry Hinv (i1 + a) (block_end n bs i1 + c))))
                     r (d - block_end n bs i1) = 0).
    { rewrite entry_matmul.
      match goal with |- (if ?c then _ else _) = _ => destruct c end; [| reflexivity].
      apply sum_n_zero; intros k _; rewrite entry_mk_mat_default.
      destruct ((k <? block_end n bs i1 - i1)%nat && _) eqn:Hin; [| ring].
      apply andb_prop in Hin; destruct Hin as [Hk _]; apply Nat.ltb_lt in Hk.
      replace (block_end n bs i1 + (d - block_end n bs i1))%nat with d by lia.
      rewrite Hinv_d by lia; ring. }
    rewrite Herr, (Hs r); destruct M; ring.
Qed.

Lemma scan_dead : forall bs (s s' : Scan Qz),
  scan args g Hinv M n rws bs s = Ok s' ->
  dead_in_scan s -> dead_in_scan s'.
Proof.
  intros bs s s' Hrun Hs; unfold scan in Hrun.
  destruct (range_blocks n bs) as [starts | e]; simpl in Hrun; [| discriminate].
  eapply for_each_invariant; [| exact Hs | exact Hrun].
  intros i1 t t' _ Ht Hstep; eapply block_body_dead; eassumption.
Qed.

(** The error computed at a dead column is zero. *)
Lemma error_column_dead : forall bs (s : Scan Qz) v,
  dead_in_scan s ->
  error_column args g Hinv M n rws bs s d = Ok v ->
  forall r, nth r v 0 = 0.
Proof.
  intros bs s v Hs Hrun r; unfold error_column in Hrun.
  destruct (range_blocks n bs) as [starts | e]; simpl in Hrun; [| discriminate].
  destruct (for_each _ (firstn _ starts) s) as [s_pre | e] eqn:Hpre; simpl in Hrun;
    [| discriminate].
  destruct (run_block _ _ _ _ _ _ _ _) as [b | e] eqn:Hb; simpl in Hrun; [| discriminate].
  injection Hrun as <-.
  assert (Hs_pre : dead_in_scan s_pre).
  { eapply for_each_invariant; [| exact Hs | exact Hpre].
    intros i1 t t' _ Ht Hstep; eapply block_body_dead; eassumption. }
  rewrite nth_col.
  assert (Hle : (d / Z.to_nat bs * Z.to_nat bs <= d)%nat)
    by (rewrite Nat.mul_comm; apply Nat.Div0.mul_div_le).
  eapply run_block_dead; eassumption.
Qed.

End DeadColumnScan.

(** ** Dead-column neutrality *)

Section DeadColumnFacts.

Variable K : Scalar.
Variable Qz : Quantizer K.
Variable tensor_sparsity : mat K -> K.
Variable SPARSITY_THRESHOLD : K.

Add Field Kfield_deadcol : (s_field K).

Local Open Scope scalar_scope.

(** Where the scan finds the original column [j]: at [invperm[j]] when the
    columns were permuted by activation order, at [j] otherwise. *)
Definition scan_position (args : QuantizationArgs) (p : Prepared Qz) (j : nat) : nat :=
  match strategy args, actorder args with
  | GROUP, Some _ => nth j (pinvperm p) O
  | _, _ => j
  end.

Lemma entry_permute_sym : forall (perm : list nat) (Hm : mat K) a b,
  entry (permute_sym perm Hm) a b
  = if ((a <? length perm) && (b <? length perm))%nat
    then entry Hm (nth a perm O) (nth b perm O) else 0.
Proof.
  intros perm Hm a b; unfold permute_sym.
  exact (@entry_mk_mat_default K (length perm) (length perm)
           (fun a b => entry Hm (nth a perm O) (nth b perm O)) a b).
Qed.

Lemma perm_injective : forall p a b,
  Permutation p (seq 0 (length p)) ->
  (a < length p)%nat -> (b < length p)%nat -> nth a p O = nth b p O -> a = b.
Proof.
  intros p a b Hp Ha Hb Heq.
  assert (Hnd : NoDup p)
    by (eapply Permutation_NoDup; [apply Permutation_sym, Hp | apply seq_NoDup]).
  apply (proj1 (NoDup_nth p O) Hnd); assumption.
Qed.

(** The permuted Hessian keeps the dead column dead and isolated, at its
    scan position. *)
Lemma permute_sym_dead : forall (H0 : mat K) j,
  (j < nrows H0)%nat -> entry H0 j j = 0 -> isolated j H0 ->
  let perm := argsort_desc (diag (nrows H0) H0) in
  let d := nth j (argsort_nat perm) O in
  (d < nrows H0)%nat /\ nth d perm O = j /\
  entry (permute_sym perm H0) d d = 0 /\ isolated d (permute_sym perm H0).
Proof.
  intros H0 j Hj Hjj Hiso perm d.
  pose proof (ordering_perm H0) as Hp; fold perm in Hp.
  assert (Hlen : length perm = nrows H0)
    by (unfold perm; rewrite length_argsort_desc; apply length_diag).
  assert (Hd : (d < length perm)%nat).
  { unfold d; apply (perm_lt (argsort_nat_perm perm)); lia. }
  assert (Hpd : nth d perm O = j) by (unfold d; apply perm_invperm; [exact Hp | lia]).
  split; [lia |]; split; [exact Hpd |]; split.
  - rewrite entry_permute_sym.
    match goal with |- (if ?c then _ else _) = _ => destruct c end; [| reflexivity].
    rewrite Hpd; exact Hjj.
  - intros k Hk; rewrite !entry_permute_sym.
    destruct (Nat.ltb_spec k (length perm)) as [Hkl | Hkl];
      [| rewrite !andb_false_r; simpl; split; reflexivity].
    assert (Hne : nth k perm O <> j).
    { intros Heq; apply Hk; apply (perm_injective Hp); try assumption; congruence. }
    rewrite Hpd; destruct (Hiso _ Hne) as [-> ->].
    split; match goal with |- (if ?c then _ else _) = _ => destruct c end; reflexivity.
Qed.

Lemma prepare_dead :
  forall (self self1 : GPTQWrapper Qz) args W0 o p (H0 : mat K) j,
  prepare self args W0 o = Ok (self1, p) ->
  H self = Some H0 -> nrows H0 = columns self -> (j < columns self)%nat ->
  entry H0 j j = 0 -> isolated j H0 ->
  exists H1,
    getattr_H self1 = Ok H1 /\
    (scan_position args p j < columns self)%nat /\
    entry H1 (scan_position args p j) (scan_position args p j) = 0 /\
    isolated (scan_position args p j) H1 /\
    forall (X : mat K) (l : Layer Qz),
      (forall r, entry X r (scan_position args p j) = 0) ->
      forall r, entry (fst (unpermute args p X l)) r j = 0.
Proof.
  intros self self1 args W0 o p H0 j Hprep HH Hn Hj Hjj Hiso.
  assert (Hplain : forall p', self1 = self -> scan_position args p' j = j ->
             (forall (X : mat K) (l : Layer Qz), fst (unpermute args p' X l) = X) ->
             exists H1,
               getattr_H self1 = Ok H1 /\
               (scan_position args p' j < columns self)%nat /\
               entry H1 (scan_position args p' j) (scan_position args p' j) = 0 /\
               isolated (scan_position args p' j) H1 /\
               forall (X : mat K) (l : Layer Qz),
                 (forall r, entry X r (scan_position args p' j) = 0) ->
                 forall r, entry (fst (unpermute args p' X l)) r j = 0).
  { intros p' -> Hpos Hun; exists H0; rewrite Hpos.
    unfold getattr_H; rewrite HH.
    repeat (split; [assumption || reflexivity |]).
    intros X l HX r; rewrite Hun; apply HX. }
  assert (Hpermuted : forall p' g,
             self1 = set_H self (Some (permute_sym (argsort_desc (diag (nrows H0) H0)) H0)) ->
             strategy args = GROUP -> actorder args <> None ->
             pinvperm p' = argsort_nat (argsort_desc (diag (nrows H0) H0)) ->
             pg_idx p' = g ->
             exists H1,
               getattr_H self1 = Ok H1 /\
               (scan_position args p' j < columns self)%nat /\
               entry H1 (scan_position args p' j) (scan_position args p' j) = 0 /\
               isolated (scan_position args p' j) H1 /\
               forall (X : mat K) (l : Layer Qz),
                 (forall r, entry X r (scan_position args p' j) = 0) ->
                 forall r, entry (fst (unpermute args p' X l)) r j = 0).
  { intros p' g' -> Hst Hact Hinvp _.
    assert (Hpos : scan_position args p' j
                   = nth j (argsort_nat (argsort_desc (diag (nrows H0) H0))) O).
    { unfold scan_position; rewrite Hst, Hinvp.
      destruct (actorder args); [reflexivity | congruence]. }
    destruct (@permute_sym_dead H0 j ltac:(lia) Hjj Hiso) as (Hd & Hpd & Hdd & Hdiso).
    eexists; split; [reflexivity |]; rewrite Hpos.
    split; [lia |]; split; [exact Hdd |]; split; [exact Hdiso |].
    intros X l HX r; unfold unpermute; rewrite Hst.
    destruct (actorder args) as [[|] |]; [| | congruence]; cbn [fst];
      rewrite entry_permute_cols, Hinvp;
      (match goal with |- (if ?c then _ else _) = _ => destruct c end; [| reflexivity]);
      apply HX. }
  unfold prepare in Hprep.
  destruct (strategy args) eqn:Hst.
  1, 2, 4: injection Hprep as <- <-; apply Hplain; try reflexivity;
    try (unfold scan_position; rewrite Hst; reflexivity);
    intros; unfold unpermute; rewrite Hst; reflexivity.
  destruct (group_index_map _ _) as [gi | e]; [| discriminate]; cbn [bind] in Hprep.
  destruct (actorder args) as [[|] |] eqn:Hact.
  - unfold getattr_H in Hprep; rewrite HH in Hprep; cbn [bind] in Hprep.
    unfold _apply_activation_ordering in Hprep.
    injection Hprep as <- <-; eapply Hpermuted; try reflexivity; try assumption; congruence.
  - unfold getattr_H in Hprep; rewrite HH in Hprep; cbn [bind] in Hprep.
    unfold _apply_activation_ordering in Hprep.
    injection Hprep as <- <-; eapply Hpermuted; try reflexivity; try assumption; congruence.
  - injection Hprep as <- <-; apply Hplain; try reflexivity.
    + unfold scan_position; rewrite Hst, Hact; reflexivity.
    + intros; unfold unpermute; rewrite Hst, Hact; reflexivity.
Qed.

Lemma nth_dead_columns : forall n (H1 : mat K) d,
  (d < n)%nat -> entry H1 d d = 0 -> nth d (dead_columns n H1) false = true.
Proof.
  intros n H1 d Hd Hdd; unfold dead_columns.
  rewrite (nth_indep _ false ((fun j => seqb (entry H1 j j) 0) O))
    by (rewrite length_map, length_seq; exact Hd).
  rewrite (map_nth (fun j => seqb (entry H1 j j) 0)), seq_nth by exact Hd; simpl.
  rewrite Hdd; apply seqb_spec; reflexivity.
Qed.

Lemma damped_isolated : forall (self : GPTQWrapper Qz) pd (H1 : mat K) d,
  isolated d H1 -> isolated d (damped self pd H1).
Proof.
  intros self pd H1 d Hiso k Hk; unfold damped, damp_H, mask_dead_H.
  rewrite !entry_mk_mat_default.
  destruct (Hiso k Hk) as [Hdk Hkd].
  assert (Hdk' : (d =? k)%nat = false) by (apply Nat.eqb_neq; congruence).
  assert (Hkd' : (k =? d)%nat = false) by (apply Nat.eqb_neq; congruence).
  rewrite Hdk', Hkd'; cbn [andb]; rewrite Hdk, Hkd.
  split; repeat (match goal with |- (if ?c then _ else _) = _ => destruct c end);
    reflexivity.
Qed.

(** C3 -- dead-column neutrality.  Let column [j] of the accumulated
    Hessian be dead: [H[j,j] = 0], with zero off-diagonal entries in row and
    column [j].  For a quantizer that maps zero to zero, when [compress]
    returns: at the scan position of [j] the diagonal of the Hessian was set
    to 1 and the weight column was zeroed before the scan; column [j] of the
    weight written back is zero; and the error [err1] computed at that
    column, which is what is propagated to the other columns, is zero. *)
Theorem dead_column_neutral :
  zero_preserving Qz ->
  forall (self self' : GPTQWrapper Qz) bs pd args (H0 : mat K) j,
  quantization_scheme_weights (layer self) = Some args ->
  H self = Some H0 ->
  nrows H0 = columns self ->
  (j < columns self)%nat ->
  entry H0 j j = 0 ->
  isolated j H0 ->
  compress tensor_sparsity SPARSITY_THRESHOLD self bs pd = (self', Returned) ->
  exists self1 p H1 L Hinv,
    prepare self args (standardize (layer_kind (layer self)) (weight (layer self)))
            (get_observer Qz args) = Ok (self1, p) /\
    getattr_H self1 = Ok H1 /\
    cholesky (damped self pd H1) = Ok L /\
    cholesky_upper (cholesky_inverse L) = Ok Hinv /\
    entry (mask_dead_H (columns self) (dead_columns (columns self) H1) H1)
          (scan_position args p j) (scan_position args p j) = 1 /\
    (forall r, entry (sW (scan_start self p H1)) r (scan_position args p j) = 0) /\
    (forall r, entry (standardize (layer_kind (layer self)) (weight (layer self'))) r j = 0) /\
    (forall v,
       error_column args (pg_idx p) Hinv
                    (nz_mask tensor_sparsity SPARSITY_THRESHOLD (pW p))
                    (columns self) (rows self) bs (scan_start self p H1)
                    (scan_position args p j) = Ok v ->
       forall r, nth r v 0 = 0).
Proof.
  intros Hzp self self' bs pd args H0 j Hargs HH Hn Hj Hjj Hiso Hrun.
  destruct (@compress_returned K Qz tensor_sparsity SPARSITY_THRESHOLD
                               self self' bs pd args Hargs Hrun)
    as (self1 & p & H1 & L & Hinv & s & Hprep & HH1 & HL & HU & Hscan & ->).
  destruct (@prepare_dead _ _ _ _ _ _ _ _ Hprep HH Hn Hj Hjj Hiso)
    as (H1' & HH1' & Hd & Hdd & Hdiso & Hun).
  rewrite HH1 in HH1'; injection HH1' as <-.
  set (d := scan_position args p j) in *.
  exists self1, p, H1, L, Hinv.
  repeat (split; [assumption |]).
  assert (Hdead : nth d (dead_columns (columns self) H1) false = true)
    by (apply nth_dead_columns; assumption).
  assert (Hstart : dead_in_scan d (scan_start self p H1)).
  { intros r; unfold scan_start, mask_dead_W; cbn [sW].
    rewrite entry_mk_mat_default, Hdead.
    match goal with |- (if ?c then _ else _) = _ => destruct c end; reflexivity. }
  assert (Hinv_d : forall c, (c < d)%nat -> entry Hinv c d = 0).
  { eapply Hinv_dead_column; [| exact HL | exact HU].
    apply damped_isolated, Hdiso. }
  split; [| split; [exact Hstart | split]].
  - unfold mask_dead_H; rewrite entry_mk_mat by assumption.
    cbv beta; rewrite Nat.eqb_refl; fold d; rewrite Hdead; reflexivity.
  - assert (Hfin : dead_in_scan d s) by (eapply scan_dead; eassumption).
    intros r; cbn [set_layer layer]; unfold finish, commit; cbn [weight].
    destruct (unpermute_weight args p (sW s) (layer self)) as [Hw _]; rewrite Hw.
    assert (Hu : forall r', entry (fst (unpermute args p (sW s) (layer self))) r' j = 0)
      by (apply Hun; exact Hfin).
    set (w0 := weight (layer self)) in *.
    set (Wu := fst (unpermute args p (sW s) (layer self))) in *.
    assert (Hcell : forall a b,
              entry (standardize (layer_kind (layer self)) Wu) a b = 0 ->
              entry (mk_mat (nrows w0) (ncols w0)
                       (fun r c =>
                          entry (mk_mat (nrows w0) (ncols w0)
                                   (fun r0 c0 => entry w0 r0 c0 - entry w0 r0 c0)) r c
                          + entry (standardize (layer_kind (layer self)) Wu) r c)) a b = 0).
    { intros a b Hab; rewrite entry_mk_mat_default.
      destruct ((a <? nrows w0)%nat && (b <? ncols w0)%nat) eqn:Hin; [| reflexivity].
      rewrite entry_mk_mat_default, Hin, Hab; ring. }
    destruct (layer_kind (layer self)); cbn [standardize] in *.
    + apply Hcell, Hu.
    + rewrite entry_transpose.
      match goal with |- (if ?c then _ else _) = _ => destruct c end; [| reflexivity].
      apply Hcell; rewrite entry_transpose, Hu.
      match goal with |- (if ?c then _ else _) = _ => destruct c end; reflexivity.
    + apply Hcell, Hu.
  - intros v Hv; eapply error_column_dead; [exact Hzp | exact Hinv_d | exact Hstart | exact Hv].
Qed.

End DeadColumnFacts.

(** ** Block-size invariance *)

Lemma for_each_app : forall (A S : Type) (body : A -> S -> result S) xs ys s,
  for_each body (xs ++ ys) s = bind (for_each body xs s) (for_each body ys).
Proof.
  intros A S body xs; induction xs as [| x xs IH]; intros ys s; simpl; [reflexivity |].
  destruct (body x s) as [t | e]; simpl; [apply IH | reflexivity].
Qed.

Section BlockInvariance.

Variable K : Scalar.
Variable Qz : Quantizer K.

Add Field Kfield_block : (s_field K).

Local Open Scope scalar_scope.

Variable args : QuantizationArgs.
Hypothesis Hstrategy : strategy args <> GROUP.

Variable Hinv : mat K.
Variable M : option (mat K).
Variables n rws : nat.

Definition mask_at (r c : nat) : K :=
  match M with
  | Some m => entry m r c
  | None => 1
  end.

(** The column-by-column recurrence the blocks are a chunking of: column [c]
    is quantized, and its error is propagated to the columns right of it. *)
Definition seq_step (c : nat) (st : mat K * observer Qz) : result (mat K * observer Qz) :=
  let W := fst st in
  do oq <- quantize_column args [] (snd st) W c (col W c);
  Ok (mk_mat (nrows W) (ncols W)
        (fun r k =>
           if (k <? c)%nat then entry W r k
           else if (k =? c)%nat then nth r (snd oq) 0
           else entry W r k
                - (entry W r c - nth r (snd oq) 0) / entry Hinv c c
                  * entry Hinv c k * mask_at r k),
      fst oq).

Lemma quantize_column_nongroup : forall g g' (o : observer Qz) (W W' : mat K) c w,
  quantize_column args g o W c w = quantize_column args g' o W' c w.
Proof.
  intros; unfold quantize_column; destruct (strategy args); try reflexivity; congruence.
Qed.

Definition rectangular (W : mat K) : Prop :=
  mk_mat (nrows W) (ncols W) (entry W) = W.

Lemma rectangular_mk_mat : forall m k (f : nat -> nat -> K), rectangular (mk_mat m k f).
Proof.
  intros m k f; unfold rectangular; rewrite nrows_mk_mat, ncols_mk_mat_gen.
  destruct m as [| m]; [reflexivity |]; cbn [Nat.eqb].
  apply mk_mat_ext; intros r c Hr Hc; apply entry_mk_mat; assumption.
Qed.

Lemma ncols_set_col : forall (A : mat K) c v, ncols (set_col A c v) = ncols A.
Proof.
  intros A c v; unfold set_col; rewrite ncols_mk_mat_gen.
  destruct A as [| row A]; reflexivity.
Qed.

Lemma nrows_set_col : forall (A : mat K) c v, nrows (set_col A c v) = nrows A.
Proof. intros; unfold set_col; apply nrows_mk_mat. Qed.

Lemma column_body_raise : forall g W Hinv1 M1 i1 count i (b : Block Qz) e,
  column_body args g W Hinv1 M1 i1 count i b = Raise e ->
  quantize_column args g (bobs b) W (i1 + i) (col (W1 b) i) = Raise e.
Proof.
  intros g W Hinv1 M1 i1 count i b e Hrun; unfold column_body in Hrun.
  destruct (quantize_column _ _ _ _ _ _) as [[o' q] | e']; simpl in Hrun;
    [discriminate | injection Hrun as ->; reflexivity].
Qed.

(** The relation between a block in its column loop, [i] columns done, and
    the recurrence run up to column [i1 + i]. *)
Definition sim (W : mat K) (i1 count i : nat) (b : Block Qz)
           (st : mat K * observer Qz) : Prop :=
  bobs b = snd st /\
  (nrows (W1 b) = nrows W /\ nrows (Q1 b) = nrows W /\ nrows (Err1 b) = nrows W) /\
  (ncols (Q1 b) = ncols (zeros K (nrows W) count) /\
   ncols (Err1 b) = ncols (zeros K (nrows W) count)) /\
  (nrows (fst st) = nrows W /\ ncols (fst st) = ncols W /\ rectangular (fst st)) /\
  (forall r k, (r < nrows W)%nat -> (i <= k < count)%nat ->
     entry (W1 b) r k = entry (fst st) r (i1 + k)) /\
  (forall r k, (r < nrows W)%nat -> (k < i)%nat ->
     entry (Q1 b) r k = entry (fst st) r (i1 + k)) /\
  (forall r c, (r < nrows W)%nat -> (c < i1)%nat -> entry (fst st) r c = entry W r c) /\
  (forall r c, (r < nrows W)%nat -> (i1 + count <= c < ncols W)%nat ->
     entry (fst st) r c
     = entry W r c
       - sum_n i (fun k => entry (Err1 b) r k * entry Hinv (i1 + k) c) * mask_at r c).

Lemma ncols_zeros_pos : forall m k r, (r < m)%nat -> ncols (zeros K m k) = k.
Proof. intros m k r Hr; unfold zeros; apply ncols_mk_mat; lia. Qed.

Lemma sim_init : forall (W : mat K) (o : observer Qz) i1 count,
  rectangular W ->
  sim W i1 count 0 (block_init W o i1 count) (W, o).
Proof.
  intros W o i1 count Hrect; unfold sim, block_init; cbn [W1 Q1 Err1 bobs fst snd].
  unfold zeros at 1 2; rewrite !nrows_mk_mat.
  repeat split; try reflexivity; try assumption.
  - intros r k Hr Hk; rewrite entry_mk_mat by lia; reflexivity.
  - intros r k Hr Hk; lia.
  - intros r c Hr Hc; cbn [sum_n]; ring.
Qed.

Lemma ncols_mk_mat_self : forall (A : mat K) (f : nat -> nat -> K),
  ncols (mk_mat (nrows A) (ncols A) f) = ncols A.
Proof.
  intros A f; rewrite ncols_mk_mat_gen; destruct A as [| row A]; reflexivity.
Qed.

Lemma column_body_nrows : forall g W Hinv1 M1 i1 count i (b b' : Block Qz),
  column_body args g W Hinv1 M1 i1 count i b = Ok b' -> nrows (W1 b') = nrows (W1 b).
Proof.
  intros g W Hinv1 M1 i1 count i b b' Hrun; unfold column_body in Hrun.
  destruct (quantize_column _ _ _ _ _ _) as [[o' q] | e]; simpl in Hrun; [| discriminate].
  injection Hrun as <-; cbn [W1]; apply nrows_mk_mat.
Qed.

Lemma entry_block_mask : forall (m : mat K) count i1 r k,
  (k < count)%nat ->
  entry (mk_mat (nrows m) count (fun r k => entry m r (i1 + k))) r k = entry m r (i1 + k).
Proof.
  intros m count i1 r k Hk; rewrite entry_mk_mat_default.
  destruct (Nat.ltb_spec r (nrows m)) as [Hr | Hr]; cbn [andb].
  - apply Nat.ltb_lt in Hk; rewrite Hk; reflexivity.
  - symmetry; apply entry_row_overflow; exact Hr.
Qed.

(** One column: the block and the recurrence stay related, or raise alike. *)
Lemma sim_step : forall g (W : mat K) i1 count i (b : Block Qz) st,
  (nrows W = 0 \/ i1 + count <= ncols W)%nat ->
  (i < count)%nat ->
  sim W i1 count i b st ->
  match column_body args g W
          (mk_mat count count (fun a c => entry Hinv (i1 + a) (i1 + c)))
          (option_map (fun m => mk_mat (nrows m) count (fun r k => entry m r (i1 + k))) M)
          i1 count i b with
  | Ok b' => exists st', seq_step (i1 + i) st = Ok st' /\ sim W i1 count (S i) b' st'
  | Raise e => seq_step (i1 + i) st = Raise e
  end.
Proof.
  intros g W i1 count i b st Hfit Hi Hsim.
  destruct Hsim as (Hobs & (HrW1 & HrQ & HrE) & (HcQ & HcE) & (HrS & HcS & Hrect)
                    & HW1 & HQ1 & Hleft & Hright).
  assert (Hcol : col (fst st) (i1 + i) = col (W1 b) i).
  { unfold col; rewrite HrS, HrW1; apply mk_vec_ext; intros r Hr.
    symmetry; apply HW1; lia. }
  assert (Hq : quantize_column args [] (snd st) (fst st) (i1 + i) (col (fst st) (i1 + i))
               = quantize_column args g (bobs b) W (i1 + i) (col (W1 b) i)).
  { rewrite Hcol, Hobs; apply quantize_column_nongroup. }
  destruct (column_body _ _ _ _ _ _ _ _ _) as [b' | e] eqn:Hrun.
  - pose proof (column_body_nrows _ _ _ _ _ _ _ _ Hrun) as HrW1'.
    destruct (column_body_inv _ _ _ _ _ _ _ _ _ Hrun) as (o' & q & Hqc & Hbo & HQ' & HE' & HW').
    unfold seq_step; rewrite Hq, Hqc; cbn [bind fst snd].
    eexists; split; [reflexivity |].
    unfold sim; cbn [fst snd].
    assert (Hfit' : forall r, (r < nrows W)%nat -> (i1 + count <= ncols W)%nat)
      by (intros r Hr; destruct Hfit; lia).
    assert (Hd : entry (mk_mat count count (fun a c => entry Hinv (i1 + a) (i1 + c))) i i
                 = entry Hinv (i1 + i) (i1 + i)) by (rewrite entry_mk_mat by lia; reflexivity).
    assert (Hmask : forall r k, (k < count)%nat ->
              match option_map
                      (fun m => mk_mat (nrows m) count (fun r k => entry m r (i1 + k))) M with
              | Some m1 => entry m1 r k
              | None => 1
              end = mask_at r (i1 + k)).
    { intros r k Hk; unfold mask_at; destruct M as [m |]; cbn [option_map]; [| reflexivity].
      apply entry_block_mask; exact Hk. }
    split; [exact Hbo |].
    split; [rewrite HrW1', HQ', HE', !nrows_set_col; auto |].
    split; [rewrite HQ', HE', !ncols_set_col; auto |].
    split; [rewrite nrows_mk_mat, ncols_mk_mat_self; repeat split; auto;
            apply rectangular_mk_mat |].
    split; [| split; [| split]].
    + intros r k Hr Hk; rewrite HW'.
      assert (Hr1 : (r <? nrows (W1 b))%nat = true) by (apply Nat.ltb_lt; lia).
      assert (Hk1 : (k <? count)%nat = true) by (apply Nat.ltb_lt; lia).
      assert (Hk2 : (k <? i)%nat = false) by (apply Nat.ltb_ge; lia).
      rewrite Hr1, Hk1, Hk2; cbn [andb].
      rewrite (@entry_mk_mat K (nrows (fst st)) (ncols (fst st)))
        by (specialize (Hfit' r Hr); lia); cbv beta.
      assert (Hk3 : (i1 + k <? i1 + i)%nat = false) by (apply Nat.ltb_ge; lia).
      assert (Hk4 : (i1 + k =? i1 + i)%nat = false) by (apply Nat.eqb_neq; lia).
      rewrite Hk3, Hk4, Hd, (Hmask r k) by lia.
      rewrite (@entry_mk_mat K count count) by lia.
      rewrite (HW1 r k), (HW1 r i) by lia; reflexivity.
    + intros r k Hr Hk; rewrite HQ', entry_set_col.
      assert (Hr1 : (r <? nrows (Q1 b))%nat = true) by (apply Nat.ltb_lt; lia).
      assert (Hk1 : (k <? ncols (Q1 b))%nat = true)
        by (apply Nat.ltb_lt; rewrite HcQ, (ncols_zeros_pos _ Hr); lia).
      rewrite Hr1, Hk1; cbn [andb].
      rewrite (@entry_mk_mat K (nrows (fst st)) (ncols (fst st)))
        by (specialize (Hfit' r Hr); lia); cbv beta.
      destruct (Nat.eqb_spec k i) as [-> | Hne].
      * rewrite Nat.ltb_irrefl, Nat.eqb_refl; reflexivity.
      * assert (Hk3 : (i1 + k <? i1 + i)%nat = true) by (apply Nat.ltb_lt; lia).
        rewrite Hk3; apply HQ1; lia.
    + intros r c Hr Hc.
      rewrite (@entry_mk_mat K (nrows (fst st)) (ncols (fst st)))
        by (specialize (Hfit' r Hr); lia); cbv beta.
      assert (Hc1 : (c <? i1 + i)%nat = true) by (apply Nat.ltb_lt; lia).
      rewrite Hc1; apply Hleft; assumption.
    + intros r c Hr Hc.
      rewrite (@entry_mk_mat K (nrows (fst st)) (ncols (fst st))) by lia; cbv beta.
      assert (Hc1 : (c <? i1 + i)%nat = false) by (apply Nat.ltb_ge; lia).
      assert (Hc2 : (c =? i1 + i)%nat = false) by (apply Nat.eqb_neq; lia).
      rewrite Hc1, Hc2, (Hright r c Hr Hc); cbn [sum_n].
      assert (Hsum : sum_n i (fun k => entry (Err1 b') r k * entry Hinv (i1 + k) c)
                     = sum_n i (fun k => entry (Err1 b) r k * entry Hinv (i1 + k) c)).
      { apply sum_n_ext; intros k Hk; rewrite HE', entry_set_col.
        assert (Hr1 : (r <? nrows (Err1 b))%nat = true) by (apply Nat.ltb_lt; lia).
        assert (Hk1 : (k <? ncols (Err1 b))%nat = true)
          by (apply Nat.ltb_lt; rewrite HcE, (ncols_zeros_pos _ Hr); lia).
        assert (Hk2 : (k =? i)%nat = false) by (apply Nat.eqb_neq; lia).
        rewrite Hr1, Hk1, Hk2; reflexivity. }
      assert (Herr : entry (Err1 b') r i
                     = (entry (fst st) r (i1 + i) - nth r q 0) / entry Hinv (i1 + i) (i1 + i)).
      { rewrite HE', entry_set_col.
        assert (Hr1 : (r <? nrows (Err1 b))%nat = true) by (apply Nat.ltb_lt; lia).
        assert (Hk1 : (i <? ncols (Err1 b))%nat = true)
          by (apply Nat.ltb_lt; rewrite HcE, (ncols_zeros_pos _ Hr); lia).
        rewrite Hr1, Hk1, Nat.eqb_refl; cbn [andb].
        rewrite nth_mk_vec by (unfold col; rewrite length_mk_vec; lia).
        rewrite nth_col, Hd, (HW1 r i) by lia; reflexivity. }
      rewrite Hsum, Herr; ring.
  - apply column_body_raise in Hrun.
    unfold seq_step; rewrite Hq, Hrun; reflexivity.
Qed.

Lemma sim_loop : forall g (W : mat K) i1 count m i (b : Block Qz) st,
  (nrows W = 0 \/ i1 + count <= ncols W)%nat ->
  (i + m = count)%nat ->
  sim W i1 count i b st ->
  match for_each (column_body args g W
                    (mk_mat count count (fun a c => entry Hinv (i1 + a) (i1 + c)))
                    (option_map (fun m => mk_mat (nrows m) count
                                            (fun r k => entry m r (i1 + k))) M)
                    i1 count)
                 (seq i m) b with
  | Ok b' => exists st', for_each seq_step (seq (i1 + i) m) st = Ok st'
                         /\ sim W i1 count count b' st'
  | Raise e => for_each seq_step (seq (i1 + i) m) st = Raise e
  end.
Proof.
  intros g W i1 count m; induction m as [| m IH]; intros i b st Hfit Him Hsim.
  - cbn [seq for_each]; exists st; split; [reflexivity |].
    assert (Hic : i = count) by lia; subst i; exact Hsim.
  - cbn [seq for_each].
    pose proof (@sim_step g W i1 count i b st Hfit ltac:(lia) Hsim) as Hstep.
    destruct (column_body _ _ _ _ _ _ _ _ _) as [b' | e]; cbn [bind].
    + destruct Hstep as (st' & Hs & Hsim'); rewrite Hs; cbn [bind].
      specialize (IH (S i) b' st' Hfit ltac:(lia) Hsim').
      rewrite Nat.add_succ_r in IH; exact IH.
    + rewrite Hstep; reflexivity.
Qed.

(** The loop-carried state of a scan that the rest of [compress] reads. *)
Definition scan_view (r : result (Scan Qz)) : result (mat K * observer Qz) :=
  match r with
  | Ok s => Ok (sW s, sobs s)
  | Raise e => Raise e
  end.

Definition fits (W : mat K) : Prop :=
  rectangular W /\ (nrows W = 0 \/ ncols W = n)%nat.

(** A block is the recurrence over its columns. *)
Lemma block_sim : forall g bs i1 (s : Scan Qz),
  fits (sW s) -> (i1 <= n)%nat ->
  scan_view (block_body args g Hinv M n rws bs i1 s)
  = for_each seq_step (seq i1 (block_end n bs i1 - i1)) (sW s, sobs s) /\
  (forall s', block_body args g Hinv M n rws bs i1 s = Ok s' -> fits (sW s')).
Proof.
  intros g bs i1 s [Hrect Hn] Hi1.
  set (W := sW s) in *; set (count := (block_end n bs i1 - i1)%nat).
  assert (Hcount : (i1 + count <= n)%nat) by (unfold count, block_end; lia).
  assert (Hfit : (nrows W = 0 \/ i1 + count <= ncols W)%nat) by (destruct Hn; [left | right]; lia).
  pose proof (@sim_loop g W i1 count count O (block_init W (sobs s) i1 count) (W, sobs s)
                        Hfit ltac:(lia) (sim_init (sobs s) i1 count Hrect)) as Hloop.
  rewrite Nat.add_0_r in Hloop.
  unfold block_body, run_block; fold W; fold count.
  destruct (for_each _ (seq 0 count) _) as [b | e]; cbn [bind scan_view].
  2: { split; [symmetry; exact Hloop | intros; discriminate]. }
  destruct Hloop as ([Ws os] & Hseq & Hsim).
  destruct Hsim as (Hobs & (HrW1 & HrQ & HrE) & (HcQ & HcE) & (HrS & HcS & HrectS)
                    & HW1 & HQ1 & Hleft & Hright).
  cbn [fst snd] in *.
  assert (Hfin : sW (block_finish Hinv M n rws bs i1 s b) = Ws).
  { unfold block_finish; cbn [sW]; fold W; fold count.
    rewrite <- HrectS, HrS, HcS.
    apply mk_mat_ext; intros r c Hr Hc.
    assert (HnW : ncols W = n) by (destruct Hn; lia).
    destruct (Nat.ltb_spec c i1) as [Hc1 | Hc1]; [symmetry; apply Hleft; assumption |].
    destruct (Nat.ltb_spec c (block_end n bs i1)) as [Hc2 | Hc2].
    - rewrite (HQ1 r (c - i1)%nat) by (unfold count; lia).
      replace (i1 + (c - i1))%nat with c by lia; reflexivity.
    - assert (Hc3 : (i1 + count <= c < ncols W)%nat) by (unfold count; lia).
      rewrite (Hright r c Hr Hc3).
      assert (Herr : entry (matmul (Err1 b)
                        (mk_mat count (n - block_end n bs i1)
                           (fun a c0 => entry Hinv (i1 + a) (block_end n bs i1 + c0))))
                        r (c - block_end n bs i1)
                     = sum_n count (fun k => entry (Err1 b) r k * entry Hinv (i1 + k) c)).
      { rewrite entry_matmul, HrE, HcE, (ncols_zeros_pos _ Hr), ncols_mk_mat_gen.
        assert (Hr1 : (r <? nrows W)%nat = true) by (apply Nat.ltb_lt; exact Hr).
        rewrite Hr1; cbn [andb].
        destruct (Nat.eqb_spec count 0) as [Hz | Hz].
        - rewrite Hz; cbn [Nat.ltb Nat.leb sum_n]; reflexivity.
        - assert (Hc4 : (c - block_end n bs i1 <? n - block_end n bs i1)%nat = true)
            by (apply Nat.ltb_lt; lia).
          rewrite Hc4; apply sum_n_ext; intros k Hk.
          rewrite (@entry_mk_mat K count (n - block_end n bs i1)) by lia.
          replace (block_end n bs i1 + (c - block_end n bs i1))%nat with c by lia.
          reflexivity. }
      rewrite Herr; unfold mask_at; destruct M; ring. }
  split.
  - transitivity (@Ok (mat K * observer Qz) (Ws, os)); [| symmetry; exact Hseq].
    f_equal; f_equal; [exact Hfin | exact Hobs].
  - intros s' Hs'; injection Hs' as <-; rewrite Hfin; split; [exact HrectS |].
    rewrite HrS, HcS; exact Hn.
Qed.

Lemma blocks_sim : forall g bs starts (s : Scan Qz),
  fits (sW s) -> Forall (fun i1 => (i1 <= n)%nat) starts ->
  scan_view (for_each (block_body args g Hinv M n rws bs) starts s)
  = for_each seq_step
             (concat (map (fun i1 => seq i1 (block_end n bs i1 - i1)) starts))
             (sW s, sobs s).
Proof.
  intros g bs starts; induction starts as [| i1 starts IH]; intros s Hfits Hall.
  - reflexivity.
  - inversion Hall as [| ? ? Hi1 Hall']; subst.
    cbn [map concat for_each]; rewrite for_each_app.
    destruct (block_sim g bs s Hfits Hi1) as [Hview Hfits'].
    rewrite <- Hview.
    destruct (block_body args g Hinv M n rws bs i1 s) as [s' | e]; cbn [bind scan_view].
    + apply IH; [apply Hfits'; reflexivity | exact Hall'].
    + reflexivity.
Qed.

(** The blocks of a positive block size cover the columns [0 .. n-1] once,
    in increasing order. *)
Lemma blocks_cover : forall bs m,
  (0 < bs)%nat ->
  concat (map (fun i1 => seq i1 (block_end n bs i1 - i1))
              (map (fun k => (k * bs)%nat) (seq 0 m)))
  = seq 0 (Nat.min (m * bs) n).
Proof.
  intros bs m Hbs; induction m as [| m IH]; [reflexivity |].
  rewrite seq_S, !map_app, concat_app, IH; cbn [map concat plus].
  rewrite app_nil_r; unfold block_end.
  destruct (Nat.le_gt_cases (m * bs) n) as [Hle | Hgt].
  - replace (Nat.min (m * bs) n) with (m * bs)%nat by lia.
    replace (Nat.min (S m * bs) n)
      with (m * bs + (Nat.min (m * bs + bs) n - m * bs))%nat by lia.
    rewrite seq_app; reflexivity.
  - replace (Nat.min (m * bs + bs) n - m * bs)%nat with O by lia.
    replace (Nat.min (S m * bs) n) with (Nat.min (m * bs) n) by lia.
    apply app_nil_r.
Qed.

(** The scan, whatever its positive block size, is the recurrence over the
    columns [0 .. n-1]. *)
Lemma scan_is_recurrence : forall g bs (s : Scan Qz),
  (0 < bs)%Z -> fits (sW s) ->
  scan_view (scan args g Hinv M n rws bs s)
  = for_each seq_step (seq 0 n) (sW s, sobs s).
Proof.
  intros g bs s Hbs Hfits; unfold scan, range_blocks.
  destruct (Z.eqb_spec bs 0) as [Hz | _]; [lia |].
  destruct (Z.ltb_spec bs 0) as [Hz | _]; [lia |].
  cbn [bind]; set (b := Z.to_nat bs).
  assert (Hb : (0 < b)%nat) by (unfold b; lia).
  set (nb := ((n + b - 1) / b)%nat).
  assert (Hlo : (b * nb <= n + b - 1)%nat) by (apply Nat.Div0.mul_div_le).
  assert (Hhi : (n + b - 1 < b * S nb)%nat) by (apply Nat.mul_succ_div_gt; lia).
  rewrite blocks_sim.
  - rewrite blocks_cover by exact Hb.
    replace (Nat.min (nb * b) n) with n by nia; reflexivity.
  - exact Hfits.
  - apply Forall_forall; intros i1 Hin; apply in_map_iff in Hin.
    destruct Hin as (k & <- & Hk); apply in_seq in Hk; nia.
Qed.

(** Two positive block sizes leave the same weight and observer, or raise
    the same error. *)
Lemma scan_blocksize : forall g bs1 bs2 (s : Scan Qz),
  (0 < bs1)%Z -> (0 < bs2)%Z -> fits (sW s) ->
  scan_view (scan args g Hinv M n rws bs1 s) = scan_view (scan args g Hinv M n rws bs2 s).
Proof.
  intros g bs1 bs2 s H1 H2 Hfits; rewrite !scan_is_recurrence by assumption; reflexivity.
Qed.

End BlockInvariance.

Section BlockInvarianceCompress.

Variable K : Scalar.
Variable Qz : Quantizer K.
Variable tensor_sparsity : mat K -> K.
Variable SPARSITY_THRESHOLD : K.

Lemma prepare_nongroup : forall (self : GPTQWrapper Qz) args W o,
  strategy args <> GROUP ->
  prepare self args W o
  = Ok (self, {| pW := W; pinvperm := []; pg_idx := []; pobs := observe Qz o W |}).
Proof.
  intros self args W o Hst; unfold prepare.
  destruct (strategy args); try reflexivity; congruence.
Qed.

(** C1 (amended) -- block-size invariance.  For every strategy other than
    GROUP, on a session whose weight has [columns] columns, [compress] with
    any block size [0 < blocksize <= columns] leaves the session, the layer
    and the outcome that the single block [blocksize = columns] leaves: the
    same quantized weight, or the same error. *)
Theorem blocksize_invariance :
  forall (self : GPTQWrapper Qz) bs pd args,
  quantization_scheme_weights (layer self) = Some args ->
  strategy args <> GROUP ->
  ncols (standardize (layer_kind (layer self)) (weight (layer self))) = columns self ->
  (0 < bs <= Z.of_nat (columns self))%Z ->
  compress tensor_sparsity SPARSITY_THRESHOLD self bs pd
  = compress tensor_sparsity SPARSITY_THRESHOLD self (Z.of_nat (columns self)) pd.
Proof.
  intros self bs pd args Hargs Hst Hcols Hbs.
  unfold compress; rewrite Hargs, (@prepare_nongroup self args _ _ Hst); cbn [pW pg_idx pobs].
  destruct (getattr_H self) as [H1 | e]; [| reflexivity].
  destruct (cholesky _) as [L | e]; [| reflexivity].
  destruct (cholesky_upper _) as [Hinv | e]; [| reflexivity].
  match goal with
  | |- match scan ?a ?g ?h ?m ?n ?r _ ?s with _ => _ end = _ =>
      pose proof (@scan_blocksize K Qz a Hst h m n r g bs (Z.of_nat (columns self)) s
                    ltac:(lia) ltac:(lia)) as Hview
  end.
  cbn [sW] in Hview.
  assert (Hfits : fits (columns self)
                       (mask_dead_W (dead_columns (columns self) H1)
                          (standardize (layer_kind (layer self)) (weight (layer self))))).
  { unfold mask_dead_W; split; [apply rectangular_mk_mat |].
    right; rewrite ncols_mk_mat_self; exact Hcols. }
  specialize (Hview Hfits).
  destruct (scan _ _ _ _ _ _ bs _) as [s1 | e1];
    destruct (scan _ _ _ _ _ _ (Z.of_nat (columns self)) _) as [s2 | e2];
    cbn [scan_view] in Hview; try discriminate.
  - injection Hview as HW Ho; rewrite HW, Ho; reflexivity.
  - injection Hview as ->; reflexivity.
Qed.

End BlockInvarianceCompress.

(** * Worked runs on the rationals

    The sessions below are evaluated with the scalars [QcS] and the quantizer
    [MinMax.quantizer]. *)

Lemma returned_eta : forall (A : Type) (x : A * outcome),
  snd x = Returned -> x = (fst x, Returned).
Proof. intros A [a o]; simpl; intros ->; reflexivity. Qed.

Lemma raised_eta : forall (A : Type) (x : A * outcome) e,
  snd x = Raised e -> x = (fst x, Raised e).
Proof. intros A [a o] e; simpl; intros ->; reflexivity. Qed.

Lemma MinMax_fq1_zero : forall bits scale, MinMax.fq1 bits scale (Q2Qc 0) = Q2Qc 0.
Proof.
  intros bits scale; unfold MinMax.fq1.
  assert (Hdiv : (Q2Qc 0 / scale)%Qc = Q2Qc 0) by (unfold Qcdiv; ring).
  rewrite Hdiv.
  change (MinMax.round_half_even (this (Q2Qc 0))) with 0%Z.
  assert (Hclamp : Z.max (MinMax.q_min bits) (Z.min (MinMax.q_max bits) 0) = 0%Z).
  { unfold MinMax.q_min, MinMax.q_max.
    pose proof (Z.pow_nonneg 2 (Z.of_nat bits - 1) ltac:(lia)); lia. }
  rewrite Hclamp; change (Q2Qc (inject_Z 0)) with (Q2Qc 0); ring.
Qed.

(** The min-max quantizer maps zero to zero. *)
Lemma MinMax_zero_preserving : zero_preserving MinMax.quantizer.
Proof.
  intros w s z a r Hw.
  change (nth r (MinMax.fake_quantize w s z a) (Q2Qc 0) = Q2Qc 0).
  change (nth r w (Q2Qc 0) = Q2Qc 0) in Hw.
  unfold MinMax.fake_quantize.
  destruct (Nat.lt_ge_cases r (length w)) as [Hr | Hr].
  - rewrite (nth_indep _ (Q2Qc 0)
               ((fun r => MinMax.fq1 (num_bits a) (MinMax.param_at s r (Q2Qc 1))
                            (nth r w (Q2Qc 0))) O))
      by (rewrite length_map, length_seq; exact Hr).
    rewrite (map_nth (fun r => MinMax.fq1 (num_bits a) (MinMax.param_at s r (Q2Qc 1))
                                 (nth r w (Q2Qc 0)))).
    rewrite seq_nth by exact Hr; cbn [plus]; rewrite Hw; apply MinMax_fq1_zero.
  - apply nth_overflow; rewrite length_map, length_seq; exact Hr.
Qed.

Abbreviation run_compress :=
  (@compress QcS MinMax.quantizer MinMax.tensor_sparsity MinMax.SPARSITY_THRESHOLD).

Definition qargs (s : QuantizationStrategy) (a : option ActivationOrdering)
  : QuantizationArgs :=
  {| num_bits := 4; strategy := s; actorder := a; group_size := 2 |}.

Definition linear (w : mat QcS) (a : QuantizationArgs) : Layer MinMax.quantizer :=
  {| layer_kind := Linear; weight := w; quantization_scheme_weights := Some a;
     weight_scale := None; weight_zero_point := None; weight_g_idx := None |}.

(** A session after calibration: the layer and the Hessian accumulated. *)
Definition calibrated (w : mat QcS) (a : QuantizationArgs) (h : mat QcS)
  : GPTQWrapper MinMax.quantizer :=
  set_H (init "fc" (linear w a)) (Some h).

(** One output row, two input columns. *)
Definition W_1x2 : mat QcS := [[Q2Qc 1; Q2Qc (3 # 10)]].

(** A positive-definite Hessian whose factors are rational: the coefficient
    table of [compress] is [[1, 3], [0, 4]]. *)
Definition H_2x2 : mat QcS :=
  [[Q2Qc (25 # 16); Q2Qc (-3 # 16)]; [Q2Qc (-3 # 16); Q2Qc (1 # 16)]].

Definition show (m : mat QcS) : list (list Q) := map (map this) m.

(** ** C1: block sizes *)

Definition group_session : GPTQWrapper MinMax.quantizer :=
  calibrated W_1x2 (qargs GROUP None) H_2x2.

Definition tensor_session : GPTQWrapper MinMax.quantizer :=
  calibrated W_1x2 (qargs TENSOR None) H_2x2.

(** With the GROUP strategy the two columns form one group, and its
    parameters are taken from [W] as the block loop has left it: with one
    block of two columns both columns use the scale of the original weight,
    with blocks of one column the second column uses the scale of the weight
    after the first block was written back. *)
Lemma blocksize_invariance_group_counterexample :
  columns group_session = 2%nat /\
  snd (run_compress group_session 2 (Q2Qc 0)) = Returned /\
  snd (run_compress group_session 1 (Q2Qc 0)) = Returned /\
  show (weight (layer (fst (run_compress group_session 2 (Q2Qc 0)))))
  = [[14 # 15; 2 # 15]]%Q /\
  show (weight (layer (fst (run_compress group_session 1 (Q2Qc 0)))))
  = [[14 # 15; 28 # 225]]%Q /\
  weight (layer (fst (run_compress group_session 2 (Q2Qc 0))))
  <> weight (layer (fst (run_compress group_session 1 (Q2Qc 0)))).
Proof.
  repeat (split; [vm_compute; reflexivity |]).
  intros Heq; apply (f_equal show) in Heq; vm_compute in Heq; discriminate.
Qed.

Lemma blocksize_invariance_witness :
  (quantization_scheme_weights (layer tensor_session) = Some (qargs TENSOR None) /\
   strategy (qargs TENSOR None) <> GROUP /\
   ncols (standardize (layer_kind (layer tensor_session)) (weight (layer tensor_session)))
   = columns tensor_session /\
   (0 < 1 <= Z.of_nat (columns tensor_session))%Z) /\
  run_compress tensor_session 1 (Q2Qc 0)
  = run_compress tensor_session (Z.of_nat (columns tensor_session)) (Q2Qc 0).
Proof.
  assert (H1 : quantization_scheme_weights (layer tensor_session) = Some (qargs TENSOR None))
    by reflexivity.
  assert (H2 : strategy (qargs TENSOR None) <> GROUP) by discriminate.
  assert (H3 : ncols (standardize (layer_kind (layer tensor_session))
                        (weight (layer tensor_session)))
               = columns tensor_session) by reflexivity.
  assert (H4 : (0 < 1 <= Z.of_nat (columns tensor_session))%Z) by (vm_compute; split; congruence).
  split; [exact (conj H1 (conj H2 (conj H3 H4))) |].
  exact (@blocksize_invariance QcS MinMax.quantizer MinMax.tensor_sparsity
           MinMax.SPARSITY_THRESHOLD tensor_session 1%Z (Q2Qc 0) (qargs TENSOR None)
           H1 H2 H3 H4).
Defined.

(** ** C2 and C10: the accumulator *)

(** Two batches of one token each, for a layer of width 2. *)
Definition no_output : tensor QcS := @T2 QcS [].

Definition calibration_inputs : list (tensor QcS * tensor QcS) :=
  [(@T3 QcS [[[Q2Qc 1; Q2Qc 2]]; [[Q2Qc 0; Q2Qc 1]]], no_output)].


(** Three token rows enter as one 2-D input, two batches as one 3-D input. *)
Definition tokens_3x2 : mat QcS :=
  [[Q2Qc 1; Q2Qc 2]; [Q2Qc 3; Q2Qc 4]; [Q2Qc 5; Q2Qc 6]].

Lemma add_batch_counts_batches_witness :
  H tensor_session = Some H_2x2 /\
  n_samples (fst (add_batch tensor_session (@T2 QcS tokens_3x2) no_output))
  = (n_samples tensor_session + 1)%nat /\
  n_samples (fst (add_batch tensor_session (@T3 QcS [tokens_3x2; tokens_3x2]) no_output))
  = (n_samples tensor_session + length [tokens_3x2; tokens_3x2])%nat /\
  length (concat (as_batches (@T2 QcS tokens_3x2))) = length tokens_3x2 /\
  length (concat (as_batches (@T3 QcS [tokens_3x2; tokens_3x2])))
  = list_sum (map (@length _) [tokens_3x2; tokens_3x2]).
Proof.
  assert (H1 : H tensor_session = Some H_2x2) by reflexivity.
  split; [exact H1 |].
  exact (@add_batch_counts_batches QcS MinMax.quantizer tensor_session tokens_3x2
           [tokens_3x2; tokens_3x2] no_output H_2x2 H1).
Defined.

(** ** C3: a dead column *)

(** Column 1 was never observed. *)
Definition H_dead : mat QcS := [[Q2Qc 1; Q2Qc 0]; [Q2Qc 0; Q2Qc 0]].

Definition dead_session : GPTQWrapper MinMax.quantizer :=
  calibrated W_1x2 (qargs TENSOR None) H_dead.

Lemma H_dead_isolated : isolated 1 H_dead.
Proof.
  intros k Hk; destruct k as [| [| k]]; [split; reflexivity | congruence |].
  split; unfold entry; cbn [nth H_dead]; destruct k; reflexivity.
Qed.

Lemma dead_column_neutral_witness :
  (zero_preserving MinMax.quantizer /\
   quantization_scheme_weights (layer dead_session) = Some (qargs TENSOR None) /\
   H dead_session = Some H_dead /\
   nrows H_dead = columns dead_session /\
   (1 < columns dead_session)%nat /\
   entry H_dead 1 1 = @s0 QcS /\
   isolated 1 H_dead /\
   run_compress dead_session 128 (Q2Qc 0)
   = (fst (run_compress dead_session 128 (Q2Qc 0)), Returned)) /\
  exists self1 p H1 L Hinv,
    prepare dead_session (qargs TENSOR None)
            (standardize (layer_kind (layer dead_session)) (weight (layer dead_session)))
            (get_observer MinMax.quantizer (qargs TENSOR None)) = Ok (self1, p) /\
    getattr_H self1 = Ok H1 /\
    cholesky (damped dead_session (Q2Qc 0) H1) = Ok L /\
    cholesky_upper (cholesky_inverse L) = Ok Hinv /\
    entry (mask_dead_H (columns dead_session)
                       (dead_columns (columns dead_session) H1) H1)
          (scan_position (qargs TENSOR None) p 1)
          (scan_position (qargs TENSOR None) p 1) = @s1 QcS /\
    (forall r, entry (sW (scan_start dead_session p H1)) r
                     (scan_position (qargs TENSOR None) p 1) = @s0 QcS) /\
    (forall r,
       entry (standardize (layer_kind (layer dead_session))
                          (weight (layer (fst (run_compress dead_session 128 (Q2Qc 0))))))
             r 1 = @s0 QcS) /\
    (forall v,
       error_column (qargs TENSOR None) (pg_idx p) Hinv
                    (nz_mask MinMax.tensor_sparsity MinMax.SPARSITY_THRESHOLD (pW p))
                    (columns dead_session) (rows dead_session) 128
                    (scan_start dead_session p H1)
                    (scan_position (qargs TENSOR None) p 1) = Ok v ->
       forall r, nth r v (@s0 QcS) = @s0 QcS).
Proof.
  assert (H2 : quantization_scheme_weights (layer dead_session) = Some (qargs TENSOR None))
    by reflexivity.
  assert (H3 : H dead_session = Some H_dead) by reflexivity.
  assert (H4 : nrows H_dead = columns dead_session) by reflexivity.
  assert (H5 : (1 < columns dead_session)%nat) by (vm_compute; lia).
  assert (H6 : entry H_dead 1 1 = @s0 QcS) by reflexivity.
  assert (H8 : run_compress dead_session 128 (Q2Qc 0)
               = (fst (run_compress dead_session 128 (Q2Qc 0)), Returned))
    by (apply returned_eta; vm_compute; reflexivity).
  split;
    [exact (conj MinMax_zero_preserving
              (conj H2 (conj H3 (conj H4 (conj H5 (conj H6 (conj H_dead_isolated H8))))))) |].
  exact (@dead_column_neutral QcS MinMax.quantizer MinMax.tensor_sparsity
           MinMax.SPARSITY_THRESHOLD MinMax_zero_preserving dead_session
           (fst (run_compress dead_session 128 (Q2Qc 0))) 128%Z (Q2Qc 0)
           (qargs TENSOR None) H_dead 1%nat H2 H3 H4 H5 H6 H_dead_isolated H8).
Defined.

(** The weight written back: column 1 is zero. *)
Example dead_column_run :
  show (weight (layer (fst (run_compress dead_session 128 (Q2Qc 0)))))
  = [[14 # 15; 0]]%Q.
Proof. vm_compute; reflexivity. Qed.

(** ** C4: the permutation *)

Definition W_2x2 : mat QcS :=
  [[Q2Qc 1; Q2Qc (3 # 10)]; [Q2Qc (-1 # 2); Q2Qc (7 # 10)]].

Definition H_order : mat QcS :=
  [[Q2Qc (1 # 2); Q2Qc (1 # 10)]; [Q2Qc (1 # 10); Q2Qc (9 # 10)]].

Lemma activation_ordering_roundtrip_witness :
  (rect 2 (nrows H_order) W_2x2 /\
   rect (nrows H_order) (nrows H_order) H_order /\
   _apply_activation_ordering W_2x2 H_order
   = ([[Q2Qc (3 # 10); Q2Qc 1]; [Q2Qc (7 # 10); Q2Qc (-1 # 2)]],
      [[Q2Qc (9 # 10); Q2Qc (1 # 10)]; [Q2Qc (1 # 10); Q2Qc (1 # 2)]],
      [1; 0]%nat, [1; 0]%nat)) /\
  (forall i, (i < nrows H_order)%nat -> nth (nth i [1; 0]%nat O) [1; 0]%nat O = i) /\
  permute_cols [1; 0]%nat
    ([[Q2Qc (3 # 10); Q2Qc 1]; [Q2Qc (7 # 10); Q2Qc (-1 # 2)]] : mat QcS) = W_2x2 /\
  permute_sym [1; 0]%nat
    ([[Q2Qc (9 # 10); Q2Qc (1 # 10)]; [Q2Qc (1 # 10); Q2Qc (1 # 2)]] : mat QcS) = H_order.
Proof.
  assert (H1 : rect 2 (nrows H_order) W_2x2) by (split; [reflexivity | repeat constructor]).
  assert (H2 : rect (nrows H_order) (nrows H_order) H_order)
    by (split; [reflexivity | repeat constructor]).
  assert (H3 : _apply_activation_ordering W_2x2 H_order
               = ([[Q2Qc (3 # 10); Q2Qc 1]; [Q2Qc (7 # 10); Q2Qc (-1 # 2)]],
                  [[Q2Qc (9 # 10); Q2Qc (1 # 10)]; [Q2Qc (1 # 10); Q2Qc (1 # 2)]],
                  [1; 0]%nat, [1; 0]%nat)) by (vm_compute; reflexivity).
  split; [exact (conj H1 (conj H2 H3)) |].
  exact (@activation_ordering_roundtrip QcS W_2x2 H_order _ _ _ _ 2%nat H1 H2 H3).
Defined.

(** ** C5: GROUP activation ordering on four columns *)

Definition W_1x4 : mat QcS :=
  [[Q2Qc 1; Q2Qc (3 # 10); Q2Qc (-1 # 2); Q2Qc (7 # 10)]].

Definition H_scenario : mat QcS :=
  [[Q2Qc (1 # 10); Q2Qc 0; Q2Qc 0; Q2Qc 0];
   [Q2Qc 0; Q2Qc (9 # 10); Q2Qc 0; Q2Qc 0];
   [Q2Qc 0; Q2Qc 0; Q2Qc (1 # 2); Q2Qc 0];
   [Q2Qc 0; Q2Qc 0; Q2Qc 0; Q2Qc (1 # 5)]].

Definition scenario_session : GPTQWrapper MinMax.quantizer :=
  calibrated W_1x4 (qargs GROUP (Some ActGROUP)) H_scenario.

Lemma group_actorder_scenario_witness :
  (columns scenario_session = 4%nat /\
   H scenario_session = Some H_scenario /\
   nrows H_scenario = 4%nat /\
   diag 4 H_scenario = scenario_diag /\
   quantization_scheme_weights (layer scenario_session)
   = Some (qargs GROUP (Some ActGROUP)) /\
   strategy (qargs GROUP (Some ActGROUP)) = GROUP /\
   actorder (qargs GROUP (Some ActGROUP)) = Some ActGROUP /\
   group_size (qargs GROUP (Some ActGROUP)) = 2%Z /\
   run_compress scenario_session 128 (Q2Qc (1 # 100))
   = (fst (run_compress scenario_session 128 (Q2Qc (1 # 100))), Returned)) /\
  argsort_desc (diag (nrows H_scenario) H_scenario) = [1; 2; 3; 0]%nat /\
  weight_g_idx (layer (fst (run_compress scenario_session 128 (Q2Qc (1 # 100)))))
  = Some [1; 0; 0; 1]%Z /\
  [1; 0; 0; 1]%Z <> [0; 0; 1; 1]%Z /\
  (forall c, (c < 4)%nat ->
     nth c [1; 0; 0; 1]%Z 0%Z
     = (Z.of_nat (nth c (argsort_nat [1; 2; 3; 0]%nat) O) / 2)%Z).
Proof.
  assert (H4 : diag 4 H_scenario = scenario_diag) by reflexivity.
  assert (H9 : run_compress scenario_session 128 (Q2Qc (1 # 100))
               = (fst (run_compress scenario_session 128 (Q2Qc (1 # 100))), Returned))
    by (apply returned_eta; vm_compute; reflexivity).
  split;
    [exact (conj eq_refl (conj eq_refl (conj eq_refl (conj H4 (conj eq_refl
              (conj eq_refl (conj eq_refl (conj eq_refl H9)))))))) |].
  exact (@group_actorder_scenario MinMax.quantizer MinMax.tensor_sparsity
           MinMax.SPARSITY_THRESHOLD scenario_session
           (fst (run_compress scenario_session 128 (Q2Qc (1 # 100))))
           H_scenario 128%Z (Q2Qc (1 # 100)) (qargs GROUP (Some ActGROUP))
           eq_refl eq_refl eq_refl H4 eq_refl eq_refl eq_refl eq_refl H9).
Defined.

(** ** C6: a strategy outside TENSOR, CHANNEL and GROUP *)

Definition block_session : GPTQWrapper MinMax.quantizer :=
  calibrated W_1x2 (qargs (OtherStrategy "block") None) H_2x2.

(** The strategy dispatch sits in the column loop: with a negative block size
    [range(0, columns, blocksize)] is empty, no column is visited, and
    [compress] returns with the weight written back as it was. *)
Lemma unsupported_strategy_counterexample :
  strategy (qargs (OtherStrategy "block") None) <> TENSOR /\
  strategy (qargs (OtherStrategy "block") None) <> CHANNEL /\
  strategy (qargs (OtherStrategy "block") None) <> GROUP /\
  quantization_scheme_weights (layer block_session)
  = Some (qargs (OtherStrategy "block") None) /\
  range_blocks (columns block_session) (-1) = Ok [] /\
  snd (run_compress block_session (-1) (Q2Qc 0)) = Returned /\
  weight (layer (fst (run_compress block_session (-1) (Q2Qc 0)))) = W_1x2.
Proof.
  repeat (split; [first [discriminate | vm_compute; reflexivity] |]).
  vm_compute; reflexivity.
Qed.

Lemma unsupported_strategy_raises_witness :
  (quantization_scheme_weights (layer block_session)
   = Some (qargs (OtherStrategy "block") None) /\
   strategy (qargs (OtherStrategy "block") None) = OtherStrategy "block" /\
   (0 < columns block_session)%nat /\ (0 < 128)%Z) /\
  exists (self' : GPTQWrapper MinMax.quantizer) (e : exn),
    run_compress block_session 128 (Q2Qc 0) = (self', Raised e) /\
    (e = AttributeError "H" \/ e = LinAlgError \/ e = unsupported "block") /\
    (forall H1 L Hinv : mat QcS,
       H block_session = Some H1 ->
       cholesky (damped block_session (Q2Qc 0) H1) = Ok L ->
       cholesky_upper (cholesky_inverse L) = Ok Hinv ->
       e = unsupported "block").
Proof.
  assert (H3 : (0 < columns block_session)%nat) by (vm_compute; lia).
  assert (H4 : (0 < 128)%Z) by lia.
  split; [exact (conj eq_refl (conj eq_refl (conj H3 H4))) |].
  exact (@unsupported_strategy_raises QcS MinMax.quantizer MinMax.tensor_sparsity
           MinMax.SPARSITY_THRESHOLD block_session 128%Z (Q2Qc 0)
           (qargs (OtherStrategy "block") None) "block" eq_refl eq_refl H3 H4).
Defined.

(** The run of the theorem's session: the error is the one of the dispatch. *)
Example unsupported_strategy_run :
  snd (run_compress block_session 128 (Q2Qc 0)) = Raised (unsupported "block").
Proof. vm_compute; reflexivity. Qed.

(** ** C7: calls out of order *)






(** ** C8: a weight with a zero entry *)

Definition W_sparse : mat QcS := [[Q2Qc (1 # 2); Q2Qc 0]].

Definition sparse_session : GPTQWrapper MinMax.quantizer :=
  calibrated W_sparse (qargs TENSOR None) H_2x2.

Lemma sparsity_preserved_witness :
  (zero_preserving MinMax.quantizer /\
   quantization_scheme_weights (layer sparse_session) = Some (qargs TENSOR None) /\
   (forall (self1 : GPTQWrapper MinMax.quantizer) (p : Prepared MinMax.quantizer),
      prepare sparse_session (qargs TENSOR None)
        (standardize (layer_kind (layer sparse_session)) (weight (layer sparse_session)))
        (get_observer MinMax.quantizer (qargs TENSOR None)) = Ok (self1, p) ->
      @sleb QcS MinMax.SPARSITY_THRESHOLD (MinMax.tensor_sparsity (pW p)) = true) /\
   run_compress sparse_session 128 (Q2Qc 0)
   = (fst (run_compress sparse_session 128 (Q2Qc 0)), Returned) /\
   entry (weight (layer sparse_session)) 0 1 = @s0 QcS) /\
  entry (weight (layer (fst (run_compress sparse_session 128 (Q2Qc 0))))) 0 1 = @s0 QcS.
Proof.
  assert (H2 : forall (self1 : GPTQWrapper MinMax.quantizer) (p : Prepared MinMax.quantizer),
      prepare sparse_session (qargs TENSOR None)
        (standardize (layer_kind (layer sparse_session)) (weight (layer sparse_session)))
        (get_observer MinMax.quantizer (qargs TENSOR None)) = Ok (self1, p) ->
      @sleb QcS MinMax.SPARSITY_THRESHOLD (MinMax.tensor_sparsity (pW p)) = true).
  { intros self1 p Hp; injection Hp as _ <-; vm_compute; reflexivity. }
  assert (H3 : run_compress sparse_session 128 (Q2Qc 0)
               = (fst (run_compress sparse_session 128 (Q2Qc 0)), Returned))
    by (apply returned_eta; vm_compute; reflexivity).
  assert (H4 : entry (weight (layer sparse_session)) 0 1 = @s0 QcS) by reflexivity.
  split; [exact (conj MinMax_zero_preserving (conj eq_refl (conj H2 (conj H3 H4)))) |].
  exact (@sparsity_preserved QcS MinMax.quantizer MinMax.tensor_sparsity
           MinMax.SPARSITY_THRESHOLD MinMax_zero_preserving sparse_session
           (fst (run_compress sparse_session 128 (Q2Qc 0))) 128%Z (Q2Qc 0)
           (qargs TENSOR None) eq_refl H2 H3 0%nat 1%nat H4).
Defined.

(** The run of the theorem's session: the nonzero entry is quantized, the
    zero entry stays. *)
Example sparsity_preserved_run :
  show (weight (layer (fst (run_compress sparse_session 128 (Q2Qc 0)))))
  = [[7 # 15; 0]]%Q.
Proof. vm_compute; reflexivity. Qed.

(** ** C9: the layer after an error *)

Lemma compress_error_atomic_witness :
  run_compress block_session 128 (Q2Qc 0)
  = (fst (run_compress block_session 128 (Q2Qc 0)), Raised (unsupported "block")) /\
  layer (fst (run_compress block_session 128 (Q2Qc 0))) = layer block_session /\
  (forall (args : QuantizationArgs) (self1 : GPTQWrapper MinMax.quantizer)
          (p : Prepared MinMax.quantizer) (H1 : mat QcS),
     quantization_scheme_weights (layer block_session) = Some args ->
     prepare block_session args
       (standardize (layer_kind (layer block_session)) (weight (layer block_session)))
       (get_observer MinMax.quantizer args) = Ok (self1, p) ->
     getattr_H self1 = Ok H1 ->
     (forall e' : exn,
        cholesky (damped block_session (Q2Qc 0) H1) = Raise e' ->
        H (fst (run_compress block_session 128 (Q2Qc 0)))
        = Some (damped block_session (Q2Qc 0) H1)) /\
     (forall L Hinv : mat QcS,
        cholesky (damped block_session (Q2Qc 0) H1) = Ok L ->
        cholesky_upper (cholesky_inverse L) = Ok Hinv ->
        H (fst (run_compress block_session 128 (Q2Qc 0))) = Some Hinv)).
Proof.
  assert (H1 : run_compress block_session 128 (Q2Qc 0)
               = (fst (run_compress block_session 128 (Q2Qc 0)),
                  Raised (unsupported "block")))
    by (apply raised_eta; vm_compute; reflexivity).
  split; [exact H1 |].
  exact (@compress_error_atomic QcS MinMax.quantizer MinMax.tensor_sparsity
           MinMax.SPARSITY_THRESHOLD block_session
           (fst (run_compress block_session 128 (Q2Qc 0))) 128%Z (Q2Qc 0)
           (unsupported "block") H1).
Defined.

(** The same run: the weight is the one before the call, the Hessian buffer
    holds the factor. *)
Example compress_error_run :
  weight (layer (fst (run_compress block_session 128 (Q2Qc 0)))) = W_1x2 /\
  option_map show (H (fst (run_compress block_session 128 (Q2Qc 0))))
  = Some [[1; 3]; [0; 4]]%Q /\
  option_map show (H block_session)
  = Some [[25 # 16; -3 # 16]; [-3 # 16; 1 # 16]]%Q.
Proof. repeat split; vm_compute; reflexivity. Qed.

(** * Further properties of [compress] *)

(** A loop invariant that may mention the elements already visited. *)
Lemma for_each_prefix :
  forall (A S : Type) (body : A -> S -> result S) (P : list A -> S -> Prop) xs s s',
  (forall pre x post t t',
     xs = pre ++ x :: post -> P pre t -> body x t = Ok t' -> P (pre ++ [x]) t') ->
  P [] s -> for_each body xs s = Ok s' -> P xs s'.
Proof.
  intros A S body P xs; revert P.
  induction xs as [| x xs IH]; intros P s s' Hstep Hs Hrun; simpl in Hrun.
  - injection Hrun as <-; exact Hs.
  - destruct (body x s) as [t | e] eqn:Hb; simpl in Hrun; [| discriminate].
    apply (IH (fun pre => P (x :: pre)) t s'); [| | exact Hrun].
    + intros pre y post u u' Heq Hu Hy.
      apply (Hstep (x :: pre) y post u u'); [rewrite Heq; reflexivity | exact Hu | exact Hy].
    + apply (Hstep [] x xs s t); [reflexivity | exact Hs | exact Hb].
Qed.

Section CompressFrame.

Variable K : Scalar.
Variable Qz : Quantizer K.
Variable tensor_sparsity : mat K -> K.
Variable SPARSITY_THRESHOLD : K.

Local Open Scope scalar_scope.

Lemma prepare_frame : forall (self self1 : GPTQWrapper Qz) args W o p,
  prepare self args W o = Ok (self1, p) ->
  name self1 = name self /\ n_samples self1 = n_samples self.
Proof.
  intros self self1 args W o p Hp; unfold prepare in Hp.
  destruct (strategy args);
    try (injection Hp as <- _; split; reflexivity).
  destruct (group_index_map _ _) as [g | e]; [| discriminate]; simpl in Hp.
  destruct (actorder args) as [[|] |].
  - destruct (getattr_H self) as [H0 | e]; [| discriminate]; simpl in Hp.
    destruct (_apply_activation_ordering W H0) as [[[W' H'] perm] invperm].
    injection Hp as <- _; split; reflexivity.
  - destruct (getattr_H self) as [H0 | e]; [| discriminate]; simpl in Hp.
    destruct (_apply_activation_ordering W H0) as [[[W' H'] perm] invperm].
    injection Hp as <- _; split; reflexivity.
  - injection Hp as <- _; split; reflexivity.
Qed.

Lemma unpermute_frame : forall args (p : Prepared Qz) W (l : Layer Qz),
  quantization_scheme_weights (snd (unpermute args p W l)) = quantization_scheme_weights l /\
  (~ (strategy args = GROUP /\ actorder args = Some ActGROUP) ->
   weight_g_idx (snd (unpermute args p W l)) = weight_g_idx l).
Proof.
  intros args p W l; unfold unpermute.
  destruct (strategy args); try (split; reflexivity).
  destruct (actorder args) as [[|] |]; split; try reflexivity.
  intros Hn; exfalso; apply Hn; split; reflexivity.
Qed.

Local Ltac frame_raised Hsame :=
  match goal with
  | |- context [fst (?s, Raised ?e)] =>
      apply (fun a b c d f => Hsame s a b c d f (Raised e));
        try discriminate; try reflexivity;
        cbn [set_H name rows columns n_samples layer]; congruence
  end.

(** X1 -- What [compress] never touches: the name, the recorded shape and the
    sample count of the session, the kind, the configuration and the shape
    of the layer's weight, whether it returns or raises; the group index map
    is written only under the GROUP strategy with GROUP activation ordering;
    and when it returns on a configured layer, scale and zero point are
    set. *)
Theorem compress_frame : forall (self : GPTQWrapper Qz) bs pd,
  name (fst (compress tensor_sparsity SPARSITY_THRESHOLD self bs pd)) = name self /\
  rows (fst (compress tensor_sparsity SPARSITY_THRESHOLD self bs pd)) = rows self /\
  columns (fst (compress tensor_sparsity SPARSITY_THRESHOLD self bs pd)) = columns self /\
  n_samples (fst (compress tensor_sparsity SPARSITY_THRESHOLD self bs pd)) = n_samples self /\
  layer_kind (layer (fst (compress tensor_sparsity SPARSITY_THRESHOLD self bs pd)))
  = layer_kind (layer self) /\
  quantization_scheme_weights (layer (fst (compress tensor_sparsity SPARSITY_THRESHOLD self bs pd)))
  = quantization_scheme_weights (layer self) /\
  nrows (weight (layer (fst (compress tensor_sparsity SPARSITY_THRESHOLD self bs pd))))
  = nrows (weight (layer self)) /\
  ncols (weight (layer (fst (compress tensor_sparsity SPARSITY_THRESHOLD self bs pd))))
  = ncols (weight (layer self)) /\
  (forall args,
     quantization_scheme_weights (layer self) = Some args ->
     ~ (strategy args = GROUP /\ actorder args = Some ActGROUP) ->
     weight_g_idx (layer (fst (compress tensor_sparsity SPARSITY_THRESHOLD self bs pd)))
     = weight_g_idx (layer self)) /\
  (forall args,
     quantization_scheme_weights (layer self) = Some args ->
     snd (compress tensor_sparsity SPARSITY_THRESHOLD self bs pd) = Returned ->
     weight_scale (layer (fst (compress tensor_sparsity SPARSITY_THRESHOLD self bs pd))) <> None /\
     weight_zero_point (layer (fst (compress tensor_sparsity SPARSITY_THRESHOLD self bs pd)))
     <> None).
Proof.
  intros self bs pd.
  assert (Hsame : forall s : GPTQWrapper Qz,
            name s = name self -> rows s = rows self -> columns s = columns self ->
            n_samples s = n_samples self -> layer s = layer self ->
            forall o, o <> Returned ->
            compress tensor_sparsity SPARSITY_THRESHOLD self bs pd = (s, o) ->
            name (fst (compress tensor_sparsity SPARSITY_THRESHOLD self bs pd)) = name self /\
  rows (fst (compress tensor_sparsity SPARSITY_THRESHOLD self bs pd)) = rows self /\
  columns (fst (compress tensor_sparsity SPARSITY_THRESHOLD self bs pd)) = columns self /\
  n_samples (fst (compress tensor_sparsity SPARSITY_THRESHOLD self bs pd)) = n_samples self /\
  layer_kind (layer (fst (compress tensor_sparsity SPARSITY_THRESHOLD self bs pd)))
  = layer_kind (layer self) /\
  quantization_scheme_weights (layer (fst (compress tensor_sparsity SPARSITY_THRESHOLD self bs pd)))
  = quantization_scheme_weights (layer self) /\
  nrows (weight (layer (fst (compress tensor_sparsity SPARSITY_THRESHOLD self bs pd))))
  = nrows (weight (layer self)) /\
  ncols (weight (layer (fst (compress tensor_sparsity SPARSITY_THRESHOLD self bs pd))))
  = ncols (weight (layer self)) /\
  (forall args,
     quantization_scheme_weights (layer self) = Some args ->
     ~ (strategy args = GROUP /\ actorder args = Some ActGROUP) ->
     weight_g_idx (layer (fst (compress tensor_sparsity SPARSITY_THRESHOLD self bs pd)))
     = weight_g_idx (layer self)) /\
  (forall args,
     quantization_scheme_weights (layer self) = Some args ->
     snd (compress tensor_sparsity SPARSITY_THRESHOLD self bs pd) = Returned ->
     weight_scale (layer (fst (compress tensor_sparsity SPARSITY_THRESHOLD self bs pd))) <> None /\
     weight_zero_point (layer (fst (compress tensor_sparsity SPARSITY_THRESHOLD self bs pd)))
     <> None)).
  { intros s Hn Hr Hc Hs Hl o Ho Hrun; rewrite Hrun; cbn [fst snd]; rewrite Hl.
    do 8 (split; [congruence |]).
    split; [intros; reflexivity | intros args _ Hret; congruence]. }
  unfold compress in *.
  destruct (quantization_scheme_weights (layer self)) as [args |] eqn:Hargs.
  2: { cbn [fst snd]; do 8 (split; [congruence |]).
       split; [intros; reflexivity | intros; discriminate]. }
  destruct (prepare self args _ _) as [[self1 p] | e] eqn:Hprep.
  2: { frame_raised Hsame. }
  destruct (prepare_layer _ _ _ _ Hprep) as (Hl1 & Hc1 & Hr1).
  destruct (prepare_frame _ _ _ _ Hprep) as (Hn1 & Hs1).
  destruct (getattr_H self1) as [H1 | e].
  2: { frame_raised Hsame. }
  destruct (cholesky _) as [L | e].
  2: { frame_raised Hsame. }
  destruct (cholesky_upper _) as [Hinv | e].
  2: { frame_raised Hsame. }
  destruct (scan _ _ _ _ _ _ _ _) as [s | e].
  2: { frame_raised Hsame. }
  clear Hsame.
  destruct (unpermute_weight args p (sW s) (layer self)) as [Hw Hk].
  destruct (unpermute_frame args p (sW s) (layer self)) as [Hq Hg].
  destruct (unpermute args p (sW s) (layer self)) as [Wu l1]; cbn [fst snd] in *.
  unfold commit; cbn [layer set_layer set_H name rows columns n_samples layer_kind weight
                      quantization_scheme_weights weight_scale weight_zero_point weight_g_idx].
  rewrite Hw, Hk, Hq, nrows_mk_mat, ncols_mk_mat_self.
  do 8 (split; [congruence |]).
  split.
  - intros a Ha Hn; injection Ha as <-; apply Hg, Hn.
  - intros; split; discriminate.
Qed.

End CompressFrame.

(** ** Every column written back is a quantized column *)

Section QuantizedOutput.

Variable K : Scalar.
Variable Qz : Quantizer K.

Local Open Scope scalar_scope.

Variable args : QuantizationArgs.

(** The observer with which the scan starts. *)
Variable o0 : observer Qz.

(** Column [c] of [X] is an output of [fake_quantize]; under the TENSOR
    strategy, with the parameters of the observer [o0] and the arguments of
    the layer. *)
Definition quantized_column (rws : nat) (X : mat K) (c : nat) : Prop :=
  exists (w : vec K) sc z a,
    (forall r, (r < rws)%nat -> entry X r c = nth r (fake_quantize Qz w sc z a) 0) /\
    (strategy args = TENSOR -> sc = _scale o0 /\ z = _zero_point o0 /\ a = args).

Lemma quantize_column_output : forall g (o o' : observer Qz) W c w q,
  quantize_column args g o W c w = Ok (o', q) ->
  exists sc z a,
    q = fake_quantize Qz w sc z a /\
    (strategy args = TENSOR ->
     o' = o /\ sc = _scale o /\ z = _zero_point o /\ a = args).
Proof.
  intros g o o' W c w q Hq; unfold quantize_column in Hq.
  destruct (strategy args) eqn:Hst.
  - injection Hq as <- <-; do 3 eexists; split; [reflexivity |].
    intros _; repeat split; reflexivity.
  - destruct (calculate_qparams Qz o w) as [o1 [us uz]].
    destruct (setitem_row Qz _ _ us) as [s' | e]; [| discriminate]; simpl in Hq.
    destruct (setitem_row Qz _ _ uz) as [z' | e]; [| discriminate]; simpl in Hq.
    destruct (getitem_col Qz s' _) as [s | e]; [| discriminate]; simpl in Hq.
    destruct (getitem_col Qz z' _) as [z | e]; [| discriminate]; simpl in Hq.
    injection Hq as _ <-; do 3 eexists; split; [reflexivity | discriminate].
  - destruct (get_qparams_along_dim Qz o _) as [o1 [us uz]].
    destruct (getitem_col Qz us _) as [us0 | e]; [| discriminate]; simpl in Hq.
    destruct (setitem_col Qz _ _ us0) as [s' | e]; [| discriminate]; simpl in Hq.
    destruct (getitem_col Qz uz _) as [uz0 | e]; [| discriminate]; simpl in Hq.
    destruct (setitem_col Qz _ _ uz0) as [z' | e]; [| discriminate]; simpl in Hq.
    destruct (getitem_col Qz s' _) as [s | e]; [| discriminate]; simpl in Hq.
    destruct (getitem_col Qz z' _) as [z | e]; [| discriminate]; simpl in Hq.
    injection Hq as _ <-; do 3 eexists; split; [reflexivity | discriminate].
  - discriminate.
Qed.

Variable g : list Z.
Variable Hinv : mat K.
Variable M : option (mat K).
Variables n rws : nat.

(** The column loop of a block fills [Q1] with quantized columns. *)
Lemma run_block_quantized : forall bs i1 (s : Scan Qz) (b : Block Qz),
  (strategy args = TENSOR -> sobs s = o0) ->
  run_block args g Hinv M n bs i1 s = Ok b ->
  (strategy args = TENSOR -> bobs b = o0) /\
  forall k, (k < block_end n bs i1 - i1)%nat ->
            quantized_column (nrows (sW s)) (Q1 b) k.
Proof.
  intros bs i1 s b Hobs Hrun; unfold run_block in Hrun.
  set (count := (block_end n bs i1 - i1)%nat) in *.
  set (m := nrows (sW s)) in *.
  pose (P := fun (pre : list nat) (t : Block Qz) =>
               nrows (Q1 t) = m /\ ((0 < m)%nat -> ncols (Q1 t) = count) /\
               (strategy args = TENSOR -> bobs t = o0) /\
               forall k, In k pre -> quantized_column m (Q1 t) k).
  assert (HP : P (seq 0 count) b).
  { eapply (@for_each_prefix _ _ _ P); [| | exact Hrun].
    - intros pre x post t t' Hxs (Hr & Hc & Ho & Hq) Hstep.
      assert (Hx : (x < count)%nat).
      { assert (Hin : In x (seq 0 count)) by (rewrite Hxs; apply in_elt).
        apply in_seq in Hin; lia. }
      assert (Hpre : forall k, In k pre -> (k < count)%nat).
      { intros k Hk.
        assert (Hin : In k (seq 0 count)) by (rewrite Hxs; apply in_or_app; left; exact Hk).
        apply in_seq in Hin; lia. }
      destruct (column_body_inv _ _ _ _ _ _ _ _ _ Hstep) as (o' & q & Hqc & Hb' & HQ & _ & _).
      destruct (quantize_column_output _ _ _ _ _ Hqc) as (sc & z & a & -> & Hten).
      unfold P; rewrite HQ, nrows_set_col, ncols_set_col.
      split; [exact Hr |]; split; [exact Hc |]; split.
      + intros Hst; rewrite Hb'; destruct (Hten Hst) as (-> & _); apply Ho, Hst.
      + intros k Hk; apply in_app_or in Hk.
        assert (Hcase : k = x \/ (k <> x /\ In k pre)).
        { destruct (Nat.eq_dec k x) as [-> | Hne]; [left; reflexivity |].
          destruct Hk as [Hk | [<- | []]]; [right; split; assumption | congruence]. }
        destruct Hcase as [-> | [Hne Hin]].
        * exists (col (W1 t) x), sc, z, a; split.
          -- intros r Hrm; rewrite entry_set_col, Hr, (Hc ltac:(lia)).
             apply Nat.ltb_lt in Hrm, Hx; rewrite Hrm, Hx, Nat.eqb_refl; reflexivity.
          -- intros Hst; destruct (Hten Hst) as (_ & -> & -> & ->).
             rewrite (Ho Hst); repeat split; reflexivity.
        * destruct (Hq k Hin) as (w & sc' & z' & a' & Hent & Hpar).
          exists w, sc', z', a'; split; [| exact Hpar].
          intros r Hrm; rewrite entry_set_col, Hr, (Hc ltac:(lia)).
          pose proof (Hpre k Hin) as Hkc.
          apply Nat.ltb_lt in Hkc; rewrite Hkc.
          pose proof Hrm as Hrm'; apply Nat.ltb_lt in Hrm'; rewrite Hrm'; cbn [andb].
          apply Nat.eqb_neq in Hne; rewrite Hne; apply Hent, Hrm.
    - unfold P, block_init; cbn [Q1 bobs]; unfold zeros.
      split; [apply nrows_mk_mat |]; split; [intros Hm; apply ncols_mk_mat; exact Hm |].
      split; [exact Hobs | intros k []]. }
  destruct HP as (_ & _ & Ho & Hq); split; [exact Ho |].
  intros k Hk; apply Hq, in_seq; lia.
Qed.

(** A block leaves its columns quantized and the columns left of it as
    they were. *)
Lemma block_body_quantized : forall bs i1 (s s' : Scan Qz),
  (strategy args = TENSOR -> sobs s = o0) ->
  (nrows (sW s) = 0 \/ ncols (sW s) = n)%nat ->
  block_body args g Hinv M n rws bs i1 s = Ok s' ->
  nrows (sW s') = nrows (sW s) /\
  (nrows (sW s') = 0 \/ ncols (sW s') = n)%nat /\
  (strategy args = TENSOR -> sobs s' = o0) /\
  (forall r c, (r < nrows (sW s))%nat -> (c < i1)%nat -> (c < n)%nat ->
     entry (sW s') r c = entry (sW s) r c) /\
  (forall c, (i1 <= c < block_end n bs i1)%nat ->
             quantized_column (nrows (sW s)) (sW s') c).
Proof.
  intros bs i1 s s' Hobs Hshape Hrun; unfold block_body in Hrun.
  destruct (run_block _ _ _ _ _ _ _ _) as [b | e] eqn:Hb; simpl in Hrun; [| discriminate].
  injection Hrun as <-.
  destruct (run_block_quantized _ _ _ Hobs Hb) as [Ho Hq].
  unfold block_finish; cbn [sW sobs].
  rewrite nrows_mk_mat, ncols_mk_mat_self.
  split; [reflexivity |]; split; [exact Hshape |]; split; [exact Ho |]; split.
  - intros r c Hr Hc Hcn; rewrite entry_mk_mat_default.
    assert (Hn : ncols (sW s) = n) by (destruct Hshape; [lia | assumption]).
    rewrite Hn.
    apply Nat.ltb_lt in Hr, Hc, Hcn; rewrite Hr, Hc, Hcn; reflexivity.
  - intros c Hc.
    destruct (Hq (c - i1)%nat ltac:(lia)) as (w & sc & z & a & Hent & Hpar).
    exists w, sc, z, a; split; [| exact Hpar].
    intros r Hr; rewrite entry_mk_mat_default.
    assert (Hn : ncols (sW s) = n) by (destruct Hshape; [lia | assumption]).
    assert (Hcn : (c < n)%nat) by (unfold block_end in Hc; lia).
    rewrite Hn.
    apply Nat.ltb_lt in Hr as Hr', Hcn; rewrite Hr', Hcn; cbn [andb].
    assert (Hc1 : (c <? i1)%nat = false) by (apply Nat.ltb_ge; lia).
    assert (Hc2 : (c <? block_end n bs i1)%nat = true) by (apply Nat.ltb_lt; lia).
    rewrite Hc1, Hc2; apply Hent, Hr.
Qed.

(** The scan with a positive block size leaves every column quantized. *)
Lemma scan_quantized : forall bs (s s' : Scan Qz),
  (0 < bs)%Z ->
  (strategy args = TENSOR -> sobs s = o0) ->
  (nrows (sW s) = 0 \/ ncols (sW s) = n)%nat ->
  scan args g Hinv M n rws bs s = Ok s' ->
  nrows (sW s') = nrows (sW s) /\
  (nrows (sW s') = 0 \/ ncols (sW s') = n)%nat /\
  (strategy args = TENSOR -> sobs s' = o0) /\
  forall c, (c < n)%nat -> quantized_column (nrows (sW s)) (sW s') c.
Proof.
  intros bs s s' Hbs Hobs Hshape Hrun; unfold scan, range_blocks in Hrun.
  destruct (Z.eqb_spec bs 0) as [Hz | _]; [lia |].
  destruct (Z.ltb_spec bs 0) as [Hz | _]; [lia |].
  cbn [bind] in Hrun; set (b := Z.to_nat bs) in *.
  assert (Hb : (0 < b)%nat) by (unfold b; lia).
  set (nb := ((n + b - 1) / b)%nat) in *.
  assert (Hhi : (n + b - 1 < b * S nb)%nat) by (apply Nat.mul_succ_div_gt; lia).
  set (m := nrows (sW s)) in *.
  pose (P := fun (pre : list nat) (t : Scan Qz) =>
               nrows (sW t) = m /\ (nrows (sW t) = 0 \/ ncols (sW t) = n)%nat /\
               (strategy args = TENSOR -> sobs t = o0) /\
               forall c, (c < Nat.min (length pre * b) n)%nat -> quantized_column m (sW t) c).
  assert (HP : P (map (fun k => (k * b)%nat) (seq 0 nb)) s').
  { eapply (@for_each_prefix _ _ _ P); [| | exact Hrun].
    - intros pre x post t t' Hxs (Hr & Hsh & Ho & Hq) Hstep.
      assert (Hx : x = (length pre * b)%nat).
      { assert (Hlen : (length pre < nb)%nat).
        { apply (f_equal (@length nat)) in Hxs.
          rewrite length_map, length_seq, length_app in Hxs; simpl in Hxs; lia. }
        transitivity (nth (length pre) (map (fun k => (k * b)%nat) (seq 0 nb)) O).
        - rewrite Hxs, nth_middle; reflexivity.
        - rewrite (nth_indep _ O ((fun k => (k * b)%nat) O))
            by (rewrite length_map, length_seq; exact Hlen).
          rewrite (map_nth (fun k => (k * b)%nat)), seq_nth by exact Hlen; reflexivity. }
      destruct (block_body_quantized _ _ _ Ho Hsh Hstep) as (Hr' & Hsh' & Ho' & Hleft & Hblock).
      unfold P; rewrite Hr', Hr.
      split; [reflexivity |]; split; [rewrite <- Hr, <- Hr'; exact Hsh' |];
        split; [exact Ho' |].
      intros c Hc; rewrite length_app in Hc; cbn [length] in Hc.
      destruct (Nat.lt_ge_cases c x) as [Hcx | Hcx].
      + destruct (Hq c ltac:(lia)) as (w & sc & z & a & Hent & Hpar).
        exists w, sc, z, a; split; [| exact Hpar].
        intros r Hrm; rewrite Hleft by lia; apply Hent, Hrm.
      + rewrite <- Hr; apply Hblock; unfold block_end; lia.
    - unfold P; split; [reflexivity |]; split; [exact Hshape |]; split; [exact Hobs |].
      intros c Hc; simpl in Hc; lia. }
  destruct HP as (Hr & Hsh & Ho & Hq).
  split; [exact Hr |]; split; [exact Hsh |]; split; [exact Ho |].
  intros c Hc; apply Hq; rewrite length_map, length_seq; nia.
Qed.

End QuantizedOutput.

Section CompressOutput.

Variable K : Scalar.
Variable Qz : Quantizer K.
Variable tensor_sparsity : mat K -> K.
Variable SPARSITY_THRESHOLD : K.

Add Field Kfield_output : (s_field K).

Local Open Scope scalar_scope.

Lemma rect_ncols : forall m n (X : mat K), rect m n X -> (0 < m)%nat -> ncols X = n.
Proof.
  intros m n X HX Hm; unfold ncols.
  replace (hd [] X) with (nth O X []) by (destruct X; reflexivity).
  eapply rect_row_length; eassumption.
Qed.

(** [weight -= weight; weight += W] leaves the entries of [W]. *)
Lemma commit_entry : forall (l : Layer Qz) Wf (o : observer Qz) r c,
  (r < nrows (weight l))%nat -> (c < ncols (weight l))%nat ->
  entry (weight (commit l Wf o)) r c = entry Wf r c.
Proof.
  intros l Wf o r c Hr Hc; unfold commit; cbn [weight].
  rewrite entry_mk_mat by assumption.
  rewrite entry_mk_mat by assumption; ring.
Qed.

(** The weight written back, read in the standard orientation, is the
    matrix handed to the commit. *)
Lemma standardized_commit_entry :
  forall (l : Layer Qz) m n (Wu : mat K) (o : observer Qz) r c,
  rect m n (standardize (layer_kind l) (weight l)) ->
  nrows Wu = m -> ncols Wu = n -> (r < m)%nat -> (c < n)%nat ->
  entry (standardize (layer_kind l)
           (weight (commit l (standardize (layer_kind l) Wu) o))) r c
  = entry Wu r c.
Proof.
  intros l m n Wu o r c Hrect HrW HcW Hr Hc.
  pose proof (rect_ncols Hrect ltac:(lia)) as Hnc; destruct Hrect as [Hnr _].
  destruct (layer_kind l); cbn [standardize] in *.
  - apply commit_entry; lia.
  - unfold transpose in Hnr, Hnc; rewrite nrows_mk_mat in Hnr.
    rewrite ncols_mk_mat in Hnc by lia.
    rewrite entry_transpose.
    assert (Hsh : nrows (weight (commit l (transpose Wu) o)) = nrows (weight l) /\
                  ncols (weight (commit l (transpose Wu) o)) = ncols (weight l)).
    { unfold commit; cbn [weight]; rewrite nrows_mk_mat, ncols_mk_mat_self; split; reflexivity. }
    destruct Hsh as [-> ->].
    assert (H1 : (r <? ncols (weight l))%nat = true) by (apply Nat.ltb_lt; lia).
    assert (H2 : (c <? nrows (weight l))%nat = true) by (apply Nat.ltb_lt; lia).
    rewrite H1, H2; cbn [andb].
    rewrite commit_entry by lia.
    rewrite entry_transpose.
    assert (H3 : (c <? ncols Wu)%nat = true) by (apply Nat.ltb_lt; lia).
    assert (H4 : (r <? nrows Wu)%nat = true) by (apply Nat.ltb_lt; lia).
    rewrite H3, H4; reflexivity.
  - apply commit_entry; lia.
Qed.

(** The shape of the prepared weight, and where the scan finds each column
    [c] of the layer: a position [c'] that holds column [c] of the weight
    and entry [(c, c)] of the Hessian, and from which the un-permutation
    takes column [c] back. *)
Lemma prepare_positions :
  forall (self self1 : GPTQWrapper Qz) args (W0 : mat K) o (p : Prepared Qz),
  rect (rows self) (columns self) W0 -> (0 < rows self)%nat ->
  (strategy args = GROUP -> forall H0, H self = Some H0 -> nrows H0 = columns self) ->
  prepare self args W0 o = Ok (self1, p) ->
  nrows (pW p) = rows self /\ ncols (pW p) = columns self /\
  (forall (X : mat K) (l : Layer Qz),
     nrows X = rows self -> ncols X = columns self ->
     nrows (fst (unpermute args p X l)) = rows self /\
     ncols (fst (unpermute args p X l)) = columns self) /\
  forall c, (c < columns self)%nat ->
    exists c', (c' < columns self)%nat /\
      (forall (X : mat K) (l : Layer Qz) r,
         nrows X = rows self -> (r < rows self)%nat ->
         entry (fst (unpermute args p X l)) r c = entry X r c') /\
      (forall r, (r < rows self)%nat -> entry (pW p) r c' = entry W0 r c) /\
      (forall H0 H1, H self = Some H0 -> getattr_H self1 = Ok H1 ->
                     entry H1 c' c' = entry H0 c c).
Proof.
  intros self self1 args W0 o p Hrect Hrows HH Hprep.
  pose proof (rect_ncols Hrect Hrows) as Hnc; pose proof Hrect as [Hnr _].
  assert (Hplain : forall p' : Prepared Qz,
            self1 = self -> pW p' = W0 ->
            (forall (X : mat K) (l : Layer Qz), fst (unpermute args p' X l) = X) ->
            nrows (pW p') = rows self /\ ncols (pW p') = columns self /\
            (forall (X : mat K) (l : Layer Qz),
               nrows X = rows self -> ncols X = columns self ->
               nrows (fst (unpermute args p' X l)) = rows self /\
               ncols (fst (unpermute args p' X l)) = columns self) /\
            forall c, (c < columns self)%nat ->
              exists c', (c' < columns self)%nat /\
                (forall (X : mat K) (l : Layer Qz) r,
                   nrows X = rows self -> (r < rows self)%nat ->
                   entry (fst (unpermute args p' X l)) r c = entry X r c') /\
                (forall r, (r < rows self)%nat -> entry (pW p') r c' = entry W0 r c) /\
                (forall H0 H1, H self = Some H0 -> getattr_H self1 = Ok H1 ->
                               entry H1 c' c' = entry H0 c c)).
  { intros p' -> HW Hun; rewrite HW.
    split; [exact Hnr |]; split; [exact Hnc |]; split.
    - intros X l HrX HcX; rewrite Hun; split; assumption.
    - intros c Hc; exists c; split; [exact Hc |]; split; [| split].
      + intros X l r _ _; rewrite Hun; reflexivity.
      + reflexivity.
      + intros H0 H1 HH0 HH1; unfold getattr_H in HH1; rewrite HH0 in HH1.
        injection HH1 as <-; reflexivity. }
  assert (Hpermuted : forall (p' : Prepared Qz) (H0 : mat K),
            strategy args = GROUP -> actorder args <> None ->
            H self = Some H0 ->
            self1 = set_H self (Some (permute_sym (argsort_desc (diag (nrows H0) H0)) H0)) ->
            pW p' = permute_cols (argsort_desc (diag (nrows H0) H0)) W0 ->
            pinvperm p' = argsort_nat (argsort_desc (diag (nrows H0) H0)) ->
            nrows (pW p') = rows self /\ ncols (pW p') = columns self /\
            (forall (X : mat K) (l : Layer Qz),
               nrows X = rows self -> ncols X = columns self ->
               nrows (fst (unpermute args p' X l)) = rows self /\
               ncols (fst (unpermute args p' X l)) = columns self) /\
            forall c, (c < columns self)%nat ->
              exists c', (c' < columns self)%nat /\
                (forall (X : mat K) (l : Layer Qz) r,
                   nrows X = rows self -> (r < rows self)%nat ->
                   entry (fst (unpermute args p' X l)) r c = entry X r c') /\
                (forall r, (r < rows self)%nat -> entry (pW p') r c' = entry W0 r c) /\
                (forall H0 H1, H self = Some H0 -> getattr_H self1 = Ok H1 ->
                               entry H1 c' c' = entry H0 c c)).
  { intros p' H0 Hst Hact HH0 -> HW Hinvp.
    set (perm := argsort_desc (diag (nrows H0) H0)) in *.
    pose proof (HH Hst H0 HH0) as Hn.
    pose proof (ordering_perm H0) as Hp; fold perm in Hp.
    assert (Hlen : length perm = columns self)
      by (unfold perm; rewrite length_argsort_desc, length_diag; exact Hn).
    assert (Hlen' : length (argsort_nat perm) = columns self)
      by (rewrite length_argsort_nat; exact Hlen).
    assert (Hun : forall (X : mat K) (l : Layer Qz),
              fst (unpermute args p' X l) = permute_cols (argsort_nat perm) X).
    { intros X l; unfold unpermute; rewrite Hst, Hinvp.
      destruct (actorder args) as [[|] |]; [reflexivity | reflexivity | congruence]. }
    rewrite HW; unfold permute_cols at 1 2.
    rewrite nrows_mk_mat, ncols_mk_mat by lia.
    split; [exact Hnr |]; split; [exact Hlen |]; split.
    - intros X l HrX HcX; rewrite Hun; unfold permute_cols.
      rewrite nrows_mk_mat, ncols_mk_mat by lia; split; assumption.
    - intros c Hc; exists (nth c (argsort_nat perm) O).
      assert (Hc' : (nth c (argsort_nat perm) O < length perm)%nat)
        by (apply (perm_lt (argsort_nat_perm perm)); lia).
      assert (Hback : nth (nth c (argsort_nat perm) O) perm O = c)
        by (apply perm_invperm; [exact Hp | lia]).
      split; [lia |]; split; [| split].
      + intros X l r HrX Hr; rewrite Hun, entry_permute_cols, HrX, Hlen'.
        apply Nat.ltb_lt in Hr, Hc; rewrite Hr, Hc; reflexivity.
      + intros r Hr; rewrite entry_permute_cols, Hnr.
        apply Nat.ltb_lt in Hr, Hc'; rewrite Hr, Hc'; cbn [andb].
        rewrite Hback; reflexivity.
      + intros H0' H1 HH0' HH1; rewrite HH0 in HH0'; injection HH0' as <-.
        unfold getattr_H in HH1; cbn [set_H H] in HH1; injection HH1 as <-.
        rewrite entry_permute_sym.
        apply Nat.ltb_lt in Hc'; rewrite Hc'; cbn [andb]; rewrite Hback; reflexivity. }
  unfold prepare in Hprep.
  destruct (strategy args) eqn:Hst.
  1, 2, 4: injection Hprep as <- <-; apply Hplain; try reflexivity;
    intros; unfold unpermute; rewrite Hst; reflexivity.
  destruct (group_index_map _ _) as [gi | e]; [| discriminate]; cbn [bind] in Hprep.
  destruct (actorder args) as [[|] |] eqn:Hact.
  - unfold getattr_H in Hprep; destruct (H self) as [H0 |] eqn:HH0; [| discriminate].
    cbn [bind] in Hprep; unfold _apply_activation_ordering in Hprep.
    injection Hprep as <- <-.
    apply (Hpermuted _ H0); try reflexivity; congruence.
  - unfold getattr_H in Hprep; destruct (H self) as [H0 |] eqn:HH0; [| discriminate].
    cbn [bind] in Hprep; unfold _apply_activation_ordering in Hprep.
    injection Hprep as <- <-.
    apply (Hpermuted _ H0); try reflexivity; congruence.
  - injection Hprep as <- <-; apply Hplain; try reflexivity.
    intros; unfold unpermute; rewrite Hst, Hact; reflexivity.
Qed.

(** A returned [compress] with a positive block size: every column of the
    weight written back is a quantized column. *)
Lemma compress_output :
  forall (self self' : GPTQWrapper Qz) bs pd args,
  quantization_scheme_weights (layer self) = Some args ->
  rect (rows self) (columns self)
       (standardize (layer_kind (layer self)) (weight (layer self))) ->
  (strategy args = GROUP -> forall H0, H self = Some H0 -> nrows H0 = columns self) ->
  (0 < bs)%Z ->
  compress tensor_sparsity SPARSITY_THRESHOLD self bs pd = (self', Returned) ->
  exists (self1 : GPTQWrapper Qz) (p : Prepared Qz),
    prepare self args (standardize (layer_kind (layer self)) (weight (layer self)))
            (get_observer Qz args) = Ok (self1, p) /\
    (strategy args = TENSOR ->
     weight_scale (layer self') = Some (_scale (pobs p)) /\
     weight_zero_point (layer self') = Some (_zero_point (pobs p))) /\
    forall c, (c < columns self)%nat ->
      quantized_column args (pobs p) (rows self)
        (standardize (layer_kind (layer self')) (weight (layer self'))) c.
Proof.
  intros self self' bs pd args Hargs Hrect HH Hbs Hrun.
  destruct (@compress_returned K Qz tensor_sparsity SPARSITY_THRESHOLD
                               self self' bs pd args Hargs Hrun)
    as (self1 & p & H1 & L & Hinv & s & Hprep & _ & _ & _ & Hscan & ->).
  exists self1, p; split; [exact Hprep |].
  destruct (Nat.eq_dec (rows self) 0) as [Hz | Hnz].
  { (* no row: compare nothing *)
    assert (Hobs : strategy args = TENSOR -> sobs s = pobs p).
    { intros Hst.
      assert (Hsh : (nrows (sW (scan_start self p H1)) = 0
                     \/ ncols (sW (scan_start self p H1)) = columns self)%nat).
      { left; unfold scan_start, mask_dead_W; cbn [sW]; rewrite nrows_mk_mat.
        unfold prepare in Hprep; rewrite Hst in Hprep; injection Hprep as _ <-; cbn [pW].
        destruct Hrect as [Hnr _]; lia. }
      destruct (@scan_quantized K Qz args (pobs p) (pg_idx p) Hinv
                  (nz_mask tensor_sparsity SPARSITY_THRESHOLD (pW p))
                  (columns self) (rows self) bs (scan_start self p H1) s Hbs (fun _ => eq_refl) Hsh Hscan)
        as (_ & _ & Ho & _); apply Ho, Hst. }
    split.
    - intros Hst; cbn [set_layer layer]; unfold finish, commit;
        cbn [weight_scale weight_zero_point]; rewrite (Hobs Hst); split; reflexivity.
    - intros c Hc; exists [], (_scale (pobs p)), (_zero_point (pobs p)), args.
      split; [intros r Hr; lia | intros; repeat split; reflexivity]. }
  assert (Hrows : (0 < rows self)%nat) by lia.
  destruct (@prepare_positions self self1 args _ _ p Hrect Hrows HH Hprep)
    as (HrP & HcP & Hshape & Hpos).
  assert (Hsh : (nrows (sW (scan_start self p H1)) = 0
                 \/ ncols (sW (scan_start self p H1)) = columns self)%nat).
  { right; unfold scan_start, mask_dead_W; cbn [sW]; rewrite ncols_mk_mat_self; exact HcP. }
  assert (Hm : nrows (sW (scan_start self p H1)) = rows self).
  { unfold scan_start, mask_dead_W; cbn [sW]; rewrite nrows_mk_mat; exact HrP. }
  destruct (@scan_quantized K Qz args (pobs p) (pg_idx p) Hinv
              (nz_mask tensor_sparsity SPARSITY_THRESHOLD (pW p))
              (columns self) (rows self) bs (scan_start self p H1) s Hbs (fun _ => eq_refl) Hsh Hscan)
    as (Hr' & Hsh' & Ho & Hq).
  rewrite Hm in Hr', Hq.
  assert (Hc' : ncols (sW s) = columns self) by (destruct Hsh'; [lia | assumption]).
  split.
  - intros Hst; cbn [set_layer layer]; unfold finish, commit;
      cbn [weight_scale weight_zero_point]; rewrite (Ho Hst); split; reflexivity.
  - intros c Hc; cbn [set_layer layer]; unfold finish.
    destruct (Hshape (sW s) (layer self) Hr' Hc') as (HrU & HcU).
    destruct (Hpos c Hc) as (c' & Hc'lt & Hent & _).
    destruct (Hq c' Hc'lt) as (w & sc & z & a & Hw & Hpar).
    exists w, sc, z, a; split; [| exact Hpar].
    intros r Hr.
    destruct (unpermute_weight args p (sW s) (layer self)) as [Hwt Hk].
    set (l1 := snd (unpermute args p (sW s) (layer self))) in *.
    set (Wu := fst (unpermute args p (sW s) (layer self))) in *.
    assert (Hkind : layer_kind (commit l1 (standardize (layer_kind (layer self)) Wu) (sobs s))
                    = layer_kind l1) by reflexivity.
    rewrite Hkind, <- Hk.
    rewrite (@standardized_commit_entry l1 (rows self) (columns self) Wu (sobs s) r c);
      try assumption.
    + unfold Wu; rewrite (Hent (sW s) (layer self) r Hr' Hr); apply Hw, Hr.
    + rewrite Hk, Hwt; exact Hrect.
Qed.


(** X3 -- Under the TENSOR strategy the parameters stored in the layer are those
    of the one observation of the whole weight made before the scan, and
    every column of the weight written back is [fake_quantize] with exactly
    these parameters. *)
Theorem tensor_strategy_parameters :
  forall (self self' : GPTQWrapper Qz) bs pd args,
  quantization_scheme_weights (layer self) = Some args ->
  strategy args = TENSOR ->
  rect (rows self) (columns self)
       (standardize (layer_kind (layer self)) (weight (layer self))) ->
  (0 < bs)%Z ->
  compress tensor_sparsity SPARSITY_THRESHOLD self bs pd = (self', Returned) ->
  weight_scale (layer self')
  = Some (_scale (observe Qz (get_observer Qz args)
                    (standardize (layer_kind (layer self)) (weight (layer self))))) /\
  weight_zero_point (layer self')
  = Some (_zero_point (observe Qz (get_observer Qz args)
                         (standardize (layer_kind (layer self)) (weight (layer self))))) /\
  forall c, (c < columns self)%nat ->
    exists w : vec K,
      forall r, (r < rows self)%nat ->
        entry (standardize (layer_kind (layer self')) (weight (layer self'))) r c
        = nth r (fake_quantize Qz w
                   (_scale (observe Qz (get_observer Qz args)
                      (standardize (layer_kind (layer self)) (weight (layer self)))))
                   (_zero_point (observe Qz (get_observer Qz args)
                      (standardize (layer_kind (layer self)) (weight (layer self)))))
                   args) 0.
Proof.
  intros self self' bs pd args Hargs Hst Hrect Hbs Hrun.
  assert (HH : strategy args = GROUP ->
               forall H0, H self = Some H0 -> nrows H0 = columns self)
    by (intros Hg; rewrite Hst in Hg; discriminate).
  destruct (@compress_output self self' bs pd args Hargs Hrect HH Hbs Hrun)
    as (self1 & p & Hprep & Hpar & Hq).
  assert (Hst' : strategy args <> GROUP) by (rewrite Hst; discriminate).
  rewrite (@prepare_nongroup K Qz self args _ _ Hst') in Hprep.
  injection Hprep as _ <-; cbn [pobs] in *.
  destruct (Hpar Hst) as [Hs Hz].
  split; [exact Hs |]; split; [exact Hz |].
  intros c Hc; destruct (Hq c Hc) as (w & sc & z & a & Hent & Heq).
  destruct (Heq Hst) as (-> & -> & ->).
  exists w; exact Hent.
Qed.

End CompressOutput.

(** ** A quantizer without rounding error *)

Section LosslessQuantizer.

Variable K : Scalar.
Variable Qz : Quantizer K.
Variable tensor_sparsity : mat K -> K.
Variable SPARSITY_THRESHOLD : K.

Add Field Kfield_lossless : (s_field K).

Local Open Scope scalar_scope.

(** [fake_quantize] returns its input: every value lies on the grid. *)
Definition lossless : Prop :=
  forall (w : vec K) s z a, fake_quantize Qz w s z a = w.

Hypothesis Hid : lossless.

Variable args : QuantizationArgs.
Variable g : list Z.
Variable Hinv : mat K.
Variable M : option (mat K).
Variables n rws : nat.

(** Without rounding error a block copies its columns and records no
    error. *)
Lemma run_block_lossless : forall bs i1 (s : Scan Qz) (b : Block Qz),
  run_block args g Hinv M n bs i1 s = Ok b ->
  (forall r k, (r < nrows (sW s))%nat -> (k < block_end n bs i1 - i1)%nat ->
     entry (Q1 b) r k = entry (sW s) r (i1 + k)) /\
  (forall r k, entry (Err1 b) r k = 0).
Proof.
  intros bs i1 s b Hrun; unfold run_block in Hrun.
  set (count := (block_end n bs i1 - i1)%nat) in *.
  set (m := nrows (sW s)) in *.
  set (b0 := block_init (sW s) (sobs s) i1 count) in *.
  pose (P := fun (pre : list nat) (t : Block Qz) =>
               nrows (W1 t) = m /\
               (forall r k, entry (W1 t) r k = entry (W1 b0) r k) /\
               nrows (Q1 t) = m /\ ((0 < m)%nat -> ncols (Q1 t) = count) /\
               (forall k, In k pre -> forall r, (r < m)%nat ->
                  entry (Q1 t) r k = entry (W1 b0) r k) /\
               (forall r k, entry (Err1 t) r k = 0)).
  assert (Hb0 : forall r k,
            entry (W1 b0) r k
            = if ((r <? m)%nat && (k <? count)%nat) then entry (sW s) r (i1 + k) else 0).
  { intros r k; unfold b0, block_init; cbn [W1].
    exact (@entry_mk_mat_default K m count (fun r0 k0 => entry (sW s) r0 (i1 + k0)) r k). }
  assert (HP : P (seq 0 count) b).
  { eapply (@for_each_prefix _ _ _ P); [| | exact Hrun].
    - intros pre x post t t' Hxs (HrW & HW & HrQ & HcQ & HQ & HE) Hstep.
      assert (Hx : (x < count)%nat).
      { assert (Hin : In x (seq 0 count)) by (rewrite Hxs; apply in_elt).
        apply in_seq in Hin; lia. }
      assert (Hpre : forall k, In k pre -> (k < count)%nat).
      { intros k Hk.
        assert (Hin : In k (seq 0 count)) by (rewrite Hxs; apply in_or_app; left; exact Hk).
        apply in_seq in Hin; lia. }
      destruct (column_body_inv _ _ _ _ _ _ _ _ _ Hstep)
        as (o' & q & Hqc & _ & HQ' & HE' & HW').
      destruct (quantize_column_output _ _ _ _ _ _ Hqc) as (sc & z & a & Hq & _).
      rewrite Hid in Hq; subst q.
      unfold P; rewrite HQ', HE', nrows_set_col, ncols_set_col.
      split; [| split; [| split; [exact HrQ | split; [exact HcQ | split]]]].
      + unfold column_body in Hstep; rewrite Hqc in Hstep; cbn [bind] in Hstep.
        injection Hstep as <-; cbn [W1]; rewrite nrows_mk_mat; exact HrW.
      + intros r k; rewrite HW', HrW, nth_col, !HW, !Hb0.
        destruct ((r <? m)%nat && (k <? count)%nat) eqn:Hin; [| reflexivity].
        destruct (k <? x)%nat; [reflexivity |].
        match goal with
        | |- _ - (?a - ?a) / _ * _ * _ = _ => replace (a - a) with (0 : K) by ring
        end.
        rewrite sdiv_0_l; ring.
      + intros k Hk r Hr; apply in_app_or in Hk.
        rewrite entry_set_col, HrQ, (HcQ ltac:(lia)).
        pose proof Hr as Hr'; apply Nat.ltb_lt in Hr'; rewrite Hr'.
        destruct (Nat.eqb_spec k x) as [-> | Hne].
        * apply Nat.ltb_lt in Hx; rewrite Hx; cbn [andb].
          rewrite nth_col; apply HW.
        * destruct Hk as [Hk | [<- | []]]; [| congruence].
          pose proof (Hpre k Hk) as Hkc; apply Nat.ltb_lt in Hkc; rewrite Hkc; cbn [andb].
          apply HQ; assumption.
      + intros r k; rewrite entry_set_col.
        destruct (_ && _); [| reflexivity].
        destruct (k =? x)%nat; [| apply HE].
        rewrite nth_mk_vec_default; destruct (_ <? _)%nat; [| reflexivity].
        replace (nth r (col (W1 t) x) 0 - nth r (col (W1 t) x) 0) with (0 : K) by ring.
        apply sdiv_0_l.
    - unfold P, b0, block_init; cbn [W1 Q1 Err1]; unfold zeros.
      rewrite !nrows_mk_mat.
      split; [reflexivity |]; split; [reflexivity |]; split; [reflexivity |].
      split; [intros Hm; apply ncols_mk_mat; exact Hm |].
      split; [intros k [] | intros r k; apply entry_zeros]. }
  destruct HP as (_ & _ & _ & _ & HQ & HE); split; [| exact HE].
  intros r k Hr Hk; rewrite (HQ k) by (try apply in_seq; lia).
  rewrite Hb0; apply Nat.ltb_lt in Hr, Hk; rewrite Hr, Hk; reflexivity.
Qed.

(** Without rounding error the scan leaves the weight it started from. *)
Lemma scan_lossless : forall bs (s s' : Scan Qz),
  (nrows (sW s) = 0 \/ ncols (sW s) = n)%nat ->
  scan args g Hinv M n rws bs s = Ok s' ->
  nrows (sW s') = nrows (sW s) /\
  (nrows (sW s') = 0 \/ ncols (sW s') = n)%nat /\
  forall r c, (r < nrows (sW s))%nat -> (c < n)%nat ->
    entry (sW s') r c = entry (sW s) r c.
Proof.
  intros bs s s' Hshape Hrun; unfold scan in Hrun.
  destruct (range_blocks n bs) as [starts | e]; cbn [bind] in Hrun; [| discriminate].
  set (m := nrows (sW s)) in *.
  pose (P := fun t : Scan Qz =>
               nrows (sW t) = m /\ (nrows (sW t) = 0 \/ ncols (sW t) = n)%nat /\
               forall r c, (r < m)%nat -> (c < n)%nat ->
                 entry (sW t) r c = entry (sW s) r c).
  assert (HP : P s').
  { eapply (@for_each_invariant _ _ _ P); [| | exact Hrun].
    - intros i1 t t' _ (Hr & Hsh & Hent) Hstep; unfold block_body in Hstep.
      destruct (run_block _ _ _ _ _ _ _ _) as [b | e] eqn:Hb; cbn [bind] in Hstep;
        [| discriminate].
      injection Hstep as <-.
      destruct (run_block_lossless _ _ _ Hb) as [HQ HE].
      unfold P, block_finish; cbn [sW].
      rewrite nrows_mk_mat, ncols_mk_mat_self.
      split; [exact Hr |]; split; [exact Hsh |].
      intros r c Hrm Hcn.
      assert (Hn : ncols (sW t) = n) by (destruct Hsh; [lia | assumption]).
      rewrite entry_mk_mat by lia.
      destruct (Nat.ltb_spec c i1) as [Hc1 | Hc1]; [apply Hent; assumption |].
      destruct (Nat.ltb_spec c (block_end n (Z.to_nat bs) i1)) as [Hc2 | Hc2].
      + rewrite HQ by lia.
        replace (i1 + (c - i1))%nat with c by lia; apply Hent; assumption.
      + assert (Herr : entry (matmul (Err1 b)
                          (mk_mat (block_end n (Z.to_nat bs) i1 - i1)
                             (n - block_end n (Z.to_nat bs) i1)
                             (fun a c0 => entry Hinv (i1 + a)
                                            (block_end n (Z.to_nat bs) i1 + c0))))
                          r (c - block_end n (Z.to_nat bs) i1) = 0).
        { rewrite entry_matmul; destruct (_ && _); [| reflexivity].
          apply sum_n_zero; intros k _; rewrite HE; ring. }
        rewrite Herr, (Hent r c Hrm Hcn); destruct M; ring.
    - unfold P; split; [reflexivity |]; split; [exact Hshape |]; reflexivity. }
  destruct HP as (Hr & Hsh & Hent); split; [exact Hr |]; split; assumption.
Qed.

End LosslessQuantizer.

Section LosslessCompress.

Variable K : Scalar.
Variable Qz : Quantizer K.
Variable tensor_sparsity : mat K -> K.
Variable SPARSITY_THRESHOLD : K.

Local Open Scope scalar_scope.

Lemma nth_dead_columns_seqb : forall n (H1 : mat K) d,
  (d < n)%nat -> nth d (dead_columns n H1) false = seqb (entry H1 d d) 0.
Proof.
  intros n H1 d Hd; unfold dead_columns.
  rewrite (nth_indep _ false ((fun j => seqb (entry H1 j j) 0) O))
    by (rewrite length_map, length_seq; exact Hd).
  rewrite (map_nth (fun j => seqb (entry H1 j j) 0)), seq_nth by exact Hd; reflexivity.
Qed.

(** X4 -- With a quantizer that leaves every value as it is, [compress] writes
    back the weight it read, except that the columns whose Hessian diagonal
    is zero are zeroed: permutation, scan, un-permutation and the in-place
    commit compose to the identity on the other columns. *)
Theorem lossless_quantizer_keeps_weight :
  lossless Qz ->
  forall (self self' : GPTQWrapper Qz) bs pd args (H0 : mat K),
  quantization_scheme_weights (layer self) = Some args ->
  rect (rows self) (columns self)
       (standardize (layer_kind (layer self)) (weight (layer self))) ->
  H self = Some H0 -> nrows H0 = columns self ->
  compress tensor_sparsity SPARSITY_THRESHOLD self bs pd = (self', Returned) ->
  forall r c, (r < rows self)%nat -> (c < columns self)%nat ->
    entry (standardize (layer_kind (layer self')) (weight (layer self'))) r c
    = if seqb (entry H0 c c) 0 then 0
      else entry (standardize (layer_kind (layer self)) (weight (layer self))) r c.
Proof.
  intros Hid self self' bs pd args H0 Hargs Hrect HH0 Hn Hrun r c Hr Hc.
  destruct (@compress_returned K Qz tensor_sparsity SPARSITY_THRESHOLD
                               self self' bs pd args Hargs Hrun)
    as (self1 & p & H1 & L & Hinv & s & Hprep & HH1 & _ & _ & Hscan & ->).
  assert (Hrows : (0 < rows self)%nat) by lia.
  assert (HH : strategy args = GROUP ->
               forall H0', H self = Some H0' -> nrows H0' = columns self).
  { intros _ H0' HH0'; rewrite HH0 in HH0'; injection HH0' as <-; exact Hn. }
  destruct (@prepare_positions K Qz self self1 args _ _ p Hrect Hrows HH Hprep)
    as (HrP & HcP & Hshape & Hpos).
  destruct (Hpos c Hc) as (c' & Hc' & Hun & HW & HHc).
  assert (Hsh : (nrows (sW (scan_start self p H1)) = 0
                 \/ ncols (sW (scan_start self p H1)) = columns self)%nat).
  { right; unfold scan_start, mask_dead_W; cbn [sW]; rewrite ncols_mk_mat_self; exact HcP. }
  assert (Hm : nrows (sW (scan_start self p H1)) = rows self).
  { unfold scan_start, mask_dead_W; cbn [sW]; rewrite nrows_mk_mat; exact HrP. }
  destruct (@scan_lossless K Qz Hid args (pg_idx p) Hinv
              (nz_mask tensor_sparsity SPARSITY_THRESHOLD (pW p))
              (columns self) (rows self) bs (scan_start self p H1) s Hsh Hscan)
    as (Hr' & Hsh' & Hent).
  rewrite Hm in Hr', Hent.
  assert (Hcs : ncols (sW s) = columns self) by (destruct Hsh'; [lia | assumption]).
  destruct (Hshape (sW s) (layer self) Hr' Hcs) as (HrU & HcU).
  destruct (unpermute_weight args p (sW s) (layer self)) as [Hwt Hk].
  cbn [set_layer layer]; unfold finish.
  set (l1 := snd (unpermute args p (sW s) (layer self))) in *.
  set (Wu := fst (unpermute args p (sW s) (layer self))) in *.
  assert (Hkind : layer_kind (commit l1 (standardize (layer_kind (layer self)) Wu) (sobs s))
                  = layer_kind l1) by reflexivity.
  rewrite Hkind, <- Hk.
  rewrite (@standardized_commit_entry K Qz l1 (rows self) (columns self) Wu (sobs s) r c);
    try assumption; [| rewrite Hk, Hwt; exact Hrect].
  unfold Wu; rewrite (Hun (sW s) (layer self) r Hr' Hr), (Hent r c' Hr Hc').
  unfold scan_start, mask_dead_W; cbn [sW].
  rewrite entry_mk_mat by lia.
  rewrite nth_dead_columns_seqb by exact Hc'.
  rewrite (HHc H0 H1 HH0 HH1), (HW r Hr), Hk; reflexivity.
Qed.

End LosslessCompress.

(** * Further properties of the Hessian accumulator *)

Section AccumulatorProperties.

Variable K : Scalar.
Variable Qz : Quantizer K.

Add Field Kfield_accprop : (s_field K).

Local Open Scope scalar_scope.

(** *** Sums of squares in an ordered field *)

Lemma add_nonneg_zero : forall x y : K,
  sleb 0 x = true -> sleb 0 y = true -> x + y = 0 -> x = 0 /\ y = 0.
Proof.
  intros x y Hx Hy Hxy.
  assert (Hx0 : x = 0).
  { apply (sleb_antisym K); [| exact Hx].
    pose proof (sleb_add K _ _ x Hy) as H1.
    replace (0 + x) with x in H1 by ring.
    replace (y + x) with (0 : K) in H1 by (rewrite <- Hxy; ring).
    exact H1. }
  split; [exact Hx0 |].
  rewrite Hx0 in Hxy; rewrite <- Hxy; ring.
Qed.

Lemma square_zero : forall x : K, x * x = 0 -> x = 0.
Proof.
  intros x Hxx; destruct (seqb x 0) eqn:Hx; [apply seqb_spec; exact Hx |].
  assert (Hne : x <> 0).
  { intros Heq; apply seqb_spec in Heq; rewrite Heq in Hx; discriminate. }
  replace x with (sinv x * (x * x)) by (field; exact Hne).
  rewrite Hxx; ring.
Qed.

Lemma sum_n_nonneg : forall k (f : nat -> K),
  (forall i, (i < k)%nat -> sleb 0 (f i) = true) -> sleb 0 (sum_n k f) = true.
Proof.
  intros k f Hf; induction k as [| k IH]; cbn [sum_n]; [apply sleb_refl |].
  apply sleb_0_add; [apply IH; intros; apply Hf; lia | apply Hf; lia].
Qed.

Lemma sum_n_nonneg_zero : forall k (f : nat -> K),
  (forall i, (i < k)%nat -> sleb 0 (f i) = true) ->
  sum_n k f = 0 -> forall i, (i < k)%nat -> f i = 0.
Proof.
  intros k f Hf; induction k as [| k IH]; cbn [sum_n]; intros Hsum i Hi; [lia |].
  destruct (@add_nonneg_zero (sum_n k f) (f k)) as [Hs Hk]; try assumption.
  - apply sum_n_nonneg; intros; apply Hf; lia.
  - apply Hf; lia.
  - destruct (Nat.eq_dec i k) as [-> | Hne]; [exact Hk |].
    apply IH; [intros; apply Hf; lia | exact Hs | lia].
Qed.

(** *** The Gram matrix *)

Lemma entry_gram : forall (X : mat K) i j,
  (i < nrows X)%nat -> (j < nrows X)%nat ->
  entry (gram X) i j = sum_n (ncols X) (fun k => entry X i k * entry X j k).
Proof.
  intros X i j Hi Hj; unfold gram; rewrite entry_matmul.
  destruct (Nat.eq_dec (ncols X) 0) as [Hz | Hz].
  - rewrite Hz; cbn [sum_n]; destruct (_ && _); reflexivity.
  - unfold transpose at 1; rewrite ncols_mk_mat by lia.
    apply Nat.ltb_lt in Hi as Hi', Hj as Hj'; rewrite Hi', Hj'; cbn [andb].
    apply sum_n_ext; intros k Hk; rewrite entry_transpose.
    apply Nat.ltb_lt in Hk; rewrite Hk, Hj'; reflexivity.
Qed.

Lemma entry_gram_sym : forall (X : mat K) i j,
  (i < nrows X)%nat -> (j < nrows X)%nat -> entry (gram X) i j = entry (gram X) j i.
Proof.
  intros X i j Hi Hj; rewrite !entry_gram by assumption.
  apply sum_n_ext; intros; ring.
Qed.

(** Row [j] of the reshaped input [X]: what the calibration batch holds in
    column [j] of the layer's input. *)
Definition unobserved (inps : list (tensor K * tensor K)) (j : nat) : Prop :=
  forall io, In io inps -> forall t, entry (reshaped (fst io)) j t = 0.

Lemma reshaped_overflow : forall (inp : tensor K) j t,
  (ncols (reshaped inp) <= t)%nat -> entry (reshaped inp) j t = 0.
Proof.
  intros inp j t Ht; unfold reshaped in *; rewrite entry_transpose.
  destruct (Nat.ltb_spec j (ncols (concat (as_batches inp)))) as [Hj | Hj]; [| reflexivity].
  unfold transpose in Ht; rewrite ncols_mk_mat in Ht by lia.
  destruct (Nat.ltb_spec t (nrows (concat (as_batches inp)))) as [Ht' | Ht']; [lia | reflexivity].
Qed.

Lemma gram_sum_sym : forall n (inps : list (tensor K * tensor K)) i j,
  Forall (well_shaped_batch n) inps -> (i < n)%nat -> (j < n)%nat ->
  gram_sum inps i j = gram_sum inps j i.
Proof.
  intros n inps i j Hwf Hi Hj; induction Hwf as [| io rest [_ Hshape] _ IH];
    cbn [gram_sum]; [reflexivity |].
  rewrite IH, (@entry_gram_sym (reshaped (fst io)) i j) by lia; reflexivity.
Qed.

Lemma gram_sum_diag_nonneg : forall n (inps : list (tensor K * tensor K)) j,
  Forall (well_shaped_batch n) inps -> (j < n)%nat ->
  sleb 0 (gram_sum inps j j) = true.
Proof.
  intros n inps j Hwf Hj; induction Hwf as [| io rest [_ Hshape] _ IH];
    cbn [gram_sum]; [apply sleb_refl |].
  apply sleb_0_add; [| exact IH].
  rewrite entry_gram by lia; apply sum_n_nonneg; intros; apply sleb_0_sq.
Qed.

Lemma gram_sum_diag_zero : forall n (inps : list (tensor K * tensor K)) j,
  Forall (well_shaped_batch n) inps -> (j < n)%nat ->
  (gram_sum inps j j = 0 <-> unobserved inps j).
Proof.
  intros n inps j Hwf Hj; induction Hwf as [| io rest [Hb Hshape] Hwf IH];
    cbn [gram_sum].
  - split; [intros _ io [] | reflexivity].
  - assert (Hnn : sleb 0 (entry (gram (reshaped (fst io))) j j) = true).
    { rewrite entry_gram by lia; apply sum_n_nonneg; intros; apply sleb_0_sq. }
    split.
    + intros Hsum.
      destruct (@add_nonneg_zero _ _ Hnn (@gram_sum_diag_nonneg n rest j Hwf Hj) Hsum) as [H1 H2].
      intros io' [<- | Hin]; [| apply IH; assumption].
      intros t; destruct (Nat.lt_ge_cases t (ncols (reshaped (fst io)))) as [Ht | Ht];
        [| apply reshaped_overflow; exact Ht].
      rewrite entry_gram in H1 by lia.
      apply square_zero.
      apply (@sum_n_nonneg_zero (ncols (reshaped (fst io)))
               (fun k => entry (reshaped (fst io)) j k * entry (reshaped (fst io)) j k));
        [intros; apply sleb_0_sq | exact H1 | exact Ht].
    + intros Hun.
      assert (Hrest : gram_sum rest j j = 0).
      { apply IH; intros io' Hin; apply Hun; right; exact Hin. }
      rewrite Hrest, entry_gram by lia.
      rewrite sum_n_zero; [ring |].
      intros k _; rewrite (Hun io (or_introl eq_refl)); ring.
Qed.

Lemma gram_sum_unobserved : forall n (inps : list (tensor K * tensor K)) j k,
  Forall (well_shaped_batch n) inps -> (j < n)%nat -> (k < n)%nat ->
  unobserved inps j -> gram_sum inps j k = 0.
Proof.
  intros n inps j k Hwf Hj Hk Hun; induction Hwf as [| io rest [_ Hshape] _ IH];
    cbn [gram_sum]; [reflexivity |].
  rewrite IH by (intros io' Hin; apply Hun; right; exact Hin).
  rewrite entry_gram by lia.
  rewrite sum_n_zero; [ring |].
  intros t _; rewrite (Hun io (or_introl eq_refl)); ring.
Qed.

(** A returned [add_batch] leaves a Hessian of the layer's order. *)
Lemma add_batch_returned_shape : forall (self self' : GPTQWrapper Qz) inp out,
  add_batch self inp out = (self', Returned) ->
  columns self' = columns self /\
  exists f, H self' = Some (mk_mat (columns self) (columns self) f).
Proof.
  intros self self' inp out Hrun; unfold add_batch in Hrun.
  destruct (H self) as [H0 |]; [| discriminate].
  destruct (_ =? 0)%nat; [discriminate |].
  destruct (layer_kind (layer self)); try discriminate.
  all: unfold iadd_square in Hrun;
    destruct (_ =? columns self)%nat;
    [| destruct (_ =? 1)%nat; [| discriminate]];
    injection Hrun as <-; split; try reflexivity; eexists; reflexivity.
Qed.

Lemma add_batches_shape : forall inps (self self' : GPTQWrapper Qz),
  (exists f, H self = Some (mk_mat (columns self) (columns self) f)) ->
  add_batches self inps = (self', Returned) ->
  columns self' = columns self /\
  exists f, H self' = Some (mk_mat (columns self) (columns self) f).
Proof.
  induction inps as [| io rest IH]; intros self self' Hf Hrun; cbn [add_batches] in Hrun.
  - injection Hrun as <-; split; [reflexivity | exact Hf].
  - destruct (add_batch self (fst io) (snd io)) as [self1 [| e]] eqn:Hstep; [| discriminate].
    destruct (add_batch_returned_shape _ _ _ Hstep) as [Hc Hf1].
    rewrite <- Hc in Hf1.
    destruct (IH self1 self' Hf1 Hrun) as [Hc' Hf']; rewrite Hc in *.
    split; assumption.
Qed.

(** What a calibration run from a fresh session leaves in [H]. *)
Lemma accumulated_hessian : forall nm (l : Layer Qz) inps,
  layer_kind l <> Conv2d ->
  Forall (well_shaped_batch (columns (init nm l))) inps ->
  Forall (@sqrt_exact K) (running_counts O (batch_counts inps)) ->
  exists self' Hm,
    add_batches (init nm l) inps = (self', Returned) /\
    H self' = Some Hm /\
    (forall i j, entry Hm i j = entry Hm j i) /\
    (forall j, sleb 0 (entry Hm j j) = true) /\
    (forall j, (j < columns (init nm l))%nat ->
       (entry Hm j j = 0 <-> unobserved inps j)) /\
    (forall j, (j < columns (init nm l))%nat -> entry Hm j j = 0 -> isolated j Hm).
Proof.
  intros nm l inps Hkind Hwf Hsqrt.
  set (n := columns (init nm l)) in *.
  destruct (@add_batches_inv K Qz inps (init nm l) (zeros K n n) (fun _ _ => 0))
    as (self' & Hm & Hrun & HH & Hn & Hent); try assumption.
  { reflexivity. }
  { apply square_mk_mat. }
  { intros i j Hi Hj; cbn [init n_samples of_nat]; ring. }
  destruct (@add_batches_shape inps (init nm l) self') as [_ [f Hf]];
    [eexists; reflexivity | exact Hrun |].
  fold n in Hf; rewrite HH in Hf; injection Hf as ->.
  assert (Hval : exists c : K, c <> 0 /\ sleb 0 c = true /\
            forall i j, (i < n)%nat -> (j < n)%nat ->
              entry (mk_mat n n f) i j = c * gram_sum inps i j).
  { destruct inps as [| io rest].
    - exists 1; split; [apply one_neq_zero |]; split; [apply sleb_0_1 |].
      intros i j Hi Hj; cbn [add_batches] in Hrun.
      injection Hrun as <-; cbn [init H] in HH.
      rewrite <- (f_equal (fun o => match o with Some M => entry M i j | None => 0 end) HH).
      unfold zeros; rewrite entry_mk_mat by assumption; cbn [gram_sum]; ring.
    - assert (Hpos : (0 < n_samples self')%nat).
      { rewrite Hn; inversion Hwf as [| ? ? [Hb _] _]; subst.
        unfold batch_counts, list_sum; cbn [init n_samples map fold_right plus]; lia. }
      assert (Hne : of_nat K (n_samples self') <> 0) by (apply of_nat_neq_0; exact Hpos).
      exists (of_nat K 2 / of_nat K (n_samples self')).
      split; [| split].
      + intros Hz.
        assert (H2 : of_nat K 2 = 0).
        { replace (of_nat K 2)
            with (of_nat K 2 / of_nat K (n_samples self') * of_nat K (n_samples self'))
            by (field; exact Hne).
          rewrite Hz; ring. }
        revert H2; apply of_nat_neq_0; lia.
      + replace (of_nat K 2 / of_nat K (n_samples self'))
          with (of_nat K 2 * sinv (of_nat K (n_samples self'))) by (field; exact Hne).
        apply sleb_mul; [apply sleb_0_of_nat |].
        apply sleb_0_inv; [apply sleb_0_of_nat | exact Hne].
      + intros i j Hi Hj; specialize (Hent i j Hi Hj).
        transitivity (sinv (of_nat K (n_samples self'))
                      * (of_nat K (n_samples self') * entry (mk_mat n n f) i j)).
        * field; exact Hne.
        * rewrite Hent; field; exact Hne. }
  destruct Hval as (c & Hc & Hc0 & Hval).
  exists self', (mk_mat n n f); split; [exact Hrun |]; split; [exact HH |].
  assert (Hsym : forall i j, entry (mk_mat n n f) i j = entry (mk_mat n n f) j i).
  { intros i j.
    destruct (Nat.lt_ge_cases i n) as [Hi | Hi];
      destruct (Nat.lt_ge_cases j n) as [Hj | Hj].
    - rewrite !Hval by assumption; f_equal; eapply gram_sum_sym; eassumption.
    - rewrite !entry_mk_mat_default.
      apply Nat.ltb_ge in Hj; rewrite Hj, andb_false_r; reflexivity.
    - rewrite !entry_mk_mat_default.
      apply Nat.ltb_ge in Hi; rewrite Hi, andb_false_r; reflexivity.
    - rewrite !entry_mk_mat_default.
      apply Nat.ltb_ge in Hi; rewrite Hi, andb_false_r; reflexivity. }
  assert (Hiff : forall j, (j < n)%nat ->
            (entry (mk_mat n n f) j j = 0 <-> unobserved inps j)).
  { intros j Hj; rewrite Hval by assumption.
    rewrite <- (@gram_sum_diag_zero n inps j Hwf Hj); split.
    - intros Hz; replace (gram_sum inps j j) with (sinv c * (c * gram_sum inps j j))
        by (field; exact Hc).
      rewrite Hz; ring.
    - intros ->; ring. }
  split; [exact Hsym |]; split; [| split; [exact Hiff |]].
  - intros j; destruct (Nat.lt_ge_cases j n) as [Hj | Hj].
    + rewrite Hval by assumption.
      apply sleb_mul; [exact Hc0 | eapply gram_sum_diag_nonneg; eassumption].
    + rewrite entry_mk_mat_default.
      apply Nat.ltb_ge in Hj; rewrite Hj; apply sleb_refl.
  - intros j Hj Hjj k Hk.
    assert (Hjk : entry (mk_mat n n f) j k = 0).
    { destruct (Nat.lt_ge_cases k n) as [Hkn | Hkn].
      - rewrite Hval by assumption.
        rewrite (@gram_sum_unobserved n inps j k) by (try assumption; apply Hiff; assumption).
        ring.
      - rewrite entry_mk_mat_default.
        apply Nat.ltb_ge in Hkn; rewrite Hkn, andb_false_r; reflexivity. }
    split; [exact Hjk | rewrite Hsym; exact Hjk].
Qed.

(** X7 -- The Hessian accumulated by a calibration run is symmetric and its
    diagonal is not negative. *)
Theorem hessian_symmetric_nonneg : forall nm (l : Layer Qz) inps,
  layer_kind l <> Conv2d ->
  Forall (well_shaped_batch (columns (init nm l))) inps ->
  Forall (@sqrt_exact K) (running_counts O (batch_counts inps)) ->
  exists self' Hm,
    add_batches (init nm l) inps = (self', Returned) /\
    H self' = Some Hm /\
    (forall i j, entry Hm i j = entry Hm j i) /\
    (forall j, sleb 0 (entry Hm j j) = true).
Proof.
  intros nm l inps Hkind Hwf Hsqrt.
  destruct (@accumulated_hessian nm l inps Hkind Hwf Hsqrt)
    as (self' & Hm & Hrun & HH & Hsym & Hpos & _).
  exists self', Hm; split; [exact Hrun |]; split; [exact HH |]; split; assumption.
Qed.

(** X8 -- A column of the accumulated Hessian has a zero diagonal exactly when
    every input vector observed is zero in that position; such a column has
    no nonzero entry in its row or column either, so it is dead and isolated
    in the sense [compress] relies on. *)
Theorem dead_column_iff_unobserved : forall nm (l : Layer Qz) inps,
  layer_kind l <> Conv2d ->
  Forall (well_shaped_batch (columns (init nm l))) inps ->
  Forall (@sqrt_exact K) (running_counts O (batch_counts inps)) ->
  exists self' Hm,
    add_batches (init nm l) inps = (self', Returned) /\
    H self' = Some Hm /\
    (forall j, (j < columns (init nm l))%nat ->
       (entry Hm j j = 0 <-> unobserved inps j)) /\
    (forall j, (j < columns (init nm l))%nat -> entry Hm j j = 0 -> isolated j Hm).
Proof.
  intros nm l inps Hkind Hwf Hsqrt.
  destruct (@accumulated_hessian nm l inps Hkind Hwf Hsqrt)
    as (self' & Hm & Hrun & HH & _ & _ & Hiff & Hiso).
  exists self', Hm; split; [exact Hrun |]; split; [exact HH |]; split; assumption.
Qed.

End AccumulatorProperties.

(** * Further properties of the activation-order permuter *)

Section OrderingProperties.

Variable K : Scalar.

Local Open Scope scalar_scope.

Lemma strongly_sorted_nth : forall (R : nat -> nat -> Prop) l a b,
  StronglySorted R l -> (a < b)%nat -> (b < length l)%nat ->
  R (nth a l O) (nth b l O).
Proof.
  intros R l a b Hs; revert a b.
  induction Hs as [| x l Hs IH Hall]; intros a b Hab Hb; [simpl in Hb; lia |].
  destruct b as [| b]; [lia |]; simpl in Hb.
  destruct a as [| a]; cbn [nth].
  - rewrite Forall_forall in Hall; apply Hall, nth_In; lia.
  - apply IH; lia.
Qed.

(** X9 -- The permuted Hessian has its diagonal in descending order: the scan
    visits the columns from the largest Hessian diagonal to the smallest. *)
Theorem activation_order_descending :
  forall (W Hm W' H' : mat K) (perm invperm : list nat) a b,
  _apply_activation_ordering W Hm = (W', H', perm, invperm) ->
  (a <= b)%nat -> (b < nrows Hm)%nat ->
  sleb (entry H' b b) (entry H' a a) = true.
Proof.
  intros W Hm W' H' perm invperm a b Hrun Hab Hb.
  unfold _apply_activation_ordering in Hrun; injection Hrun as _ <- <- _.
  set (d := diag (nrows Hm) Hm).
  assert (Hlen : length (argsort_desc d) = nrows Hm)
    by (unfold d; rewrite length_argsort_desc; apply length_diag).
  assert (Hd : forall i, (i < nrows Hm)%nat -> nth i d 0 = entry Hm i i).
  { intros i Hi; unfold d, diag.
    exact (@nth_mk_vec K (nrows Hm) (fun i => entry Hm i i) i 0 Hi). }
  assert (Hin : forall i, (i < nrows Hm)%nat -> (nth i (argsort_desc d) O < nrows Hm)%nat).
  { intros i Hi; apply (@perm_lt (argsort_desc d) (nrows Hm) i); [| exact Hi].
    replace (nrows Hm) with (length d) by (unfold d; apply length_diag).
    apply argsort_desc_perm. }
  rewrite !entry_permute_sym, Hlen.
  assert (Ha' : (a <? nrows Hm)%nat = true) by (apply Nat.ltb_lt; lia).
  assert (Hb' : (b <? nrows Hm)%nat = true) by (apply Nat.ltb_lt; lia).
  rewrite Ha', Hb'; cbn [andb].
  rewrite <- !Hd by (apply Hin; lia).
  destruct (Nat.eq_dec a b) as [-> | Hne]; [apply sleb_refl |].
  assert (Hs : StronglySorted
                 (fun i j => sleb (nth j d 0) (nth i d 0) = true) (argsort_desc d)).
  { unfold argsort_desc.
    apply (@argsort_by_sorted (fun i j => sleb (nth j d 0) (nth i d 0))).
    - intros i j Hij; destruct (sleb_total K (nth i d 0) (nth j d 0)) as [H1 | H1];
        [exact H1 | congruence].
    - intros i j k Hij Hjk; eapply sleb_trans; eassumption. }
  apply (strongly_sorted_nth Hs); lia.
Qed.

End OrderingProperties.

(** ** The persisted group index map *)

Section GroupIndexMap.

Variable K : Scalar.
Variable Qz : Quantizer K.
Variable tensor_sparsity : mat K -> K.
Variable SPARSITY_THRESHOLD : K.

Local Open Scope scalar_scope.

Lemma nth_take : forall (g_idx : list Z) (index : list nat) c,
  (c < length index)%nat ->
  nth c (take g_idx index) 0%Z = nth (nth c index O) g_idx 0%Z.
Proof.
  intros g_idx index c Hc; unfold take.
  rewrite (nth_indep _ 0%Z ((fun k => nth k g_idx 0%Z) O))
    by (rewrite length_map; exact Hc).
  apply (map_nth (fun k => nth k g_idx 0%Z)).
Qed.

Lemma nth_group_index_map : forall n gs g c,
  group_index_map n gs = Ok g -> (c < n)%nat ->
  gs <> 0%Z /\ length g = n /\ nth c g 0%Z = (Z.of_nat c / gs)%Z.
Proof.
  intros n gs g c Hg Hc; unfold group_index_map in Hg.
  destruct (Z.eqb_spec gs 0) as [Hz | Hz]; [discriminate |].
  injection Hg as <-; split; [exact Hz |]; split.
  - rewrite length_map, length_seq; reflexivity.
  - rewrite (nth_indep _ 0%Z ((fun c => (Z.of_nat c / gs)%Z) O))
      by (rewrite length_map, length_seq; exact Hc).
    rewrite (map_nth (fun c => (Z.of_nat c / gs)%Z)), seq_nth by exact Hc; reflexivity.
Qed.

(** X5 -- Under the GROUP strategy with GROUP activation ordering a returned
    [compress] always stores [weight_g_idx], and the group stored for a
    column is the group of the position that the activation order gave it:
    [invperm[c] // group_size]. *)
Theorem group_actorder_g_idx :
  forall (self self' : GPTQWrapper Qz) (H0 : mat K) bs pd args,
  quantization_scheme_weights (layer self) = Some args ->
  strategy args = GROUP ->
  actorder args = Some ActGROUP ->
  H self = Some H0 ->
  nrows H0 = columns self ->
  compress tensor_sparsity SPARSITY_THRESHOLD self bs pd = (self', Returned) ->
  exists g_idx,
    weight_g_idx (layer self') = Some g_idx /\
    length g_idx = columns self /\
    group_size args <> 0%Z /\
    forall c, (c < columns self)%nat ->
      nth c g_idx 0%Z
      = (Z.of_nat (nth c (argsort_nat (argsort_desc (diag (nrows H0) H0))) O)
         / group_size args)%Z.
Proof.
  intros self self' H0 bs pd args Hargs Hst Hact HH Hn Hrun.
  destruct (@compress_returned K Qz tensor_sparsity SPARSITY_THRESHOLD
                               self self' bs pd args Hargs Hrun)
    as (self1 & p & H1 & L & Hinv & s & Hprep & _ & _ & _ & _ & ->).
  unfold prepare in Hprep; rewrite Hst, Hact in Hprep.
  destruct (group_index_map (columns self) (group_size args)) as [g | e] eqn:Hg;
    [| discriminate].
  unfold getattr_H in Hprep; rewrite HH in Hprep; cbn [bind] in Hprep.
  unfold _apply_activation_ordering in Hprep; injection Hprep as _ <-.
  set (perm := argsort_desc (diag (nrows H0) H0)) in *.
  assert (Hlen : length (argsort_nat perm) = columns self).
  { rewrite length_argsort_nat; unfold perm.
    rewrite length_argsort_desc, length_diag; exact Hn. }
  exists (take g (argsort_nat perm)); split; [| split; [| split]].
  - unfold finish, unpermute; rewrite Hst, Hact; reflexivity.
  - unfold take; rewrite length_map; exact Hlen.
  - unfold group_index_map in Hg.
    destruct (Z.eqb_spec (group_size args) 0) as [Hz | Hz]; [discriminate | exact Hz].
  - intros c Hc; rewrite nth_take by lia.
    assert (Hlt : (nth c (argsort_nat perm) O < columns self)%nat).
    { assert (Hp : (nth c (argsort_nat perm) O < length perm)%nat)
        by (apply (perm_lt (argsort_nat_perm perm)); rewrite <- length_argsort_nat; lia).
      rewrite length_argsort_nat in Hlen; lia. }
    destruct (@nth_group_index_map _ _ _ _ Hg Hlt) as (_ & _ & ->); reflexivity.
Qed.

End GroupIndexMap.

(** * When [add_batch] returns *)

Section AddBatchOutcome.

Variable K : Scalar.
Variable Qz : Quantizer K.

Local Open Scope scalar_scope.


End AddBatchOutcome.

(** * Worked runs for the further properties *)

(** ** Quantized output *)

Lemma tensor_session_rect :
  rect (rows tensor_session) (columns tensor_session)
       (standardize (layer_kind (layer tensor_session)) (weight (layer tensor_session))).
Proof. split; [reflexivity | repeat constructor]. Qed.


Lemma tensor_strategy_parameters_witness :
  (quantization_scheme_weights (layer tensor_session) = Some (qargs TENSOR None) /\
   strategy (qargs TENSOR None) = TENSOR /\
   rect (rows tensor_session) (columns tensor_session)
        (standardize (layer_kind (layer tensor_session)) (weight (layer tensor_session))) /\
   (0 < 1)%Z /\
   run_compress tensor_session 1 (Q2Qc 0)
   = (fst (run_compress tensor_session 1 (Q2Qc 0)), Returned)) /\
  weight_scale (layer (fst (run_compress tensor_session 1 (Q2Qc 0))))
  = Some (_scale (observe MinMax.quantizer (get_observer MinMax.quantizer (qargs TENSOR None))
                    (standardize (layer_kind (layer tensor_session))
                                 (weight (layer tensor_session))))) /\
  weight_zero_point (layer (fst (run_compress tensor_session 1 (Q2Qc 0))))
  = Some (_zero_point
            (observe MinMax.quantizer (get_observer MinMax.quantizer (qargs TENSOR None))
               (standardize (layer_kind (layer tensor_session))
                            (weight (layer tensor_session))))) /\
  forall c, (c < columns tensor_session)%nat ->
    exists w : vec QcS,
      forall r, (r < rows tensor_session)%nat ->
        entry (standardize (layer_kind (layer (fst (run_compress tensor_session 1 (Q2Qc 0)))))
                 (weight (layer (fst (run_compress tensor_session 1 (Q2Qc 0)))))) r c
        = nth r (fake_quantize MinMax.quantizer w
                   (_scale (observe MinMax.quantizer
                              (get_observer MinMax.quantizer (qargs TENSOR None))
                              (standardize (layer_kind (layer tensor_session))
                                           (weight (layer tensor_session)))))
                   (_zero_point (observe MinMax.quantizer
                              (get_observer MinMax.quantizer (qargs TENSOR None))
                              (standardize (layer_kind (layer tensor_session))
                                           (weight (layer tensor_session)))))
                   (qargs TENSOR None)) (@s0 QcS).
Proof.
  assert (H4 : (0 < 1)%Z) by lia.
  assert (H5 : run_compress tensor_session 1 (Q2Qc 0)
               = (fst (run_compress tensor_session 1 (Q2Qc 0)), Returned))
    by (apply returned_eta; vm_compute; reflexivity).
  split; [exact (conj eq_refl (conj eq_refl (conj tensor_session_rect (conj H4 H5)))) |].
  exact (@tensor_strategy_parameters QcS MinMax.quantizer MinMax.tensor_sparsity
           MinMax.SPARSITY_THRESHOLD tensor_session
           (fst (run_compress tensor_session 1 (Q2Qc 0))) 1%Z (Q2Qc 0)
           (qargs TENSOR None) eq_refl eq_refl tensor_session_rect H4 H5).
Defined.

(** ** A quantizer without rounding error *)

(** The min-max observer with a [fake_quantize] that returns its input. *)
Definition exact_quantizer : Quantizer QcS :=
  @MkQuantizer QcS (ptensor MinMax.quantizer) (ostats MinMax.quantizer)
    (get_observer MinMax.quantizer) (observe MinMax.quantizer)
    (calculate_qparams MinMax.quantizer) (get_qparams_along_dim MinMax.quantizer)
    (setitem_row MinMax.quantizer) (setitem_col MinMax.quantizer)
    (getitem_col MinMax.quantizer) (fun w _ _ _ => w).

Lemma exact_quantizer_lossless : lossless exact_quantizer.
Proof. intros w s z a; reflexivity. Qed.

(** [H_2x2] with its two columns exchanged: the activation order is
    [[1, 0]]. *)
Definition H_swapped : mat QcS :=
  [[Q2Qc (1 # 16); Q2Qc (-3 # 16)]; [Q2Qc (-3 # 16); Q2Qc (25 # 16)]].

(** A layer with weight-ordered groups, so that the columns are permuted,
    scanned and permuted back. *)
Definition exact_session : GPTQWrapper exact_quantizer :=
  set_H (init "fc"
           {| layer_kind := Linear; weight := W_2x2;
              quantization_scheme_weights := Some (qargs GROUP (Some ActWEIGHT));
              weight_scale := None; weight_zero_point := None; weight_g_idx := None |})
        (Some H_swapped).

Lemma lossless_quantizer_keeps_weight_witness :
  (lossless exact_quantizer /\
   quantization_scheme_weights (layer exact_session) = Some (qargs GROUP (Some ActWEIGHT)) /\
   rect (rows exact_session) (columns exact_session)
        (standardize (layer_kind (layer exact_session)) (weight (layer exact_session))) /\
   H exact_session = Some H_swapped /\
   nrows H_swapped = columns exact_session /\
   @compress QcS exact_quantizer MinMax.tensor_sparsity MinMax.SPARSITY_THRESHOLD
             exact_session 1 (Q2Qc 0)
   = (fst (@compress QcS exact_quantizer MinMax.tensor_sparsity MinMax.SPARSITY_THRESHOLD
                     exact_session 1 (Q2Qc 0)), Returned) /\
   (1 < rows exact_session)%nat /\ (0 < columns exact_session)%nat) /\
  entry (standardize
           (layer_kind (layer (fst (@compress QcS exact_quantizer MinMax.tensor_sparsity
                                      MinMax.SPARSITY_THRESHOLD exact_session 1
                                      (Q2Qc 0)))))
           (weight (layer (fst (@compress QcS exact_quantizer MinMax.tensor_sparsity
                                  MinMax.SPARSITY_THRESHOLD exact_session 1
                                  (Q2Qc 0)))))) 1 0
  = if @seqb QcS (entry H_swapped 0 0) (@s0 QcS) then @s0 QcS
    else entry (standardize (layer_kind (layer exact_session))
                            (weight (layer exact_session))) 1 0.
Proof.
  assert (H3 : rect (rows exact_session) (columns exact_session)
                    (standardize (layer_kind (layer exact_session))
                                 (weight (layer exact_session))))
    by (split; [reflexivity | repeat constructor]).
  assert (H6 : @compress QcS exact_quantizer MinMax.tensor_sparsity MinMax.SPARSITY_THRESHOLD
                         exact_session 1 (Q2Qc 0)
               = (fst (@compress QcS exact_quantizer MinMax.tensor_sparsity
                                 MinMax.SPARSITY_THRESHOLD exact_session 1 (Q2Qc 0)),
                  Returned))
    by (apply returned_eta; vm_compute; reflexivity).
  assert (H7 : (1 < rows exact_session)%nat) by (vm_compute; lia).
  assert (H8 : (0 < columns exact_session)%nat) by (vm_compute; lia).
  split; [exact (conj exact_quantizer_lossless (conj eq_refl (conj H3 (conj eq_refl
                   (conj eq_refl (conj H6 (conj H7 H8))))))) |].
  exact (@lossless_quantizer_keeps_weight QcS exact_quantizer MinMax.tensor_sparsity
           MinMax.SPARSITY_THRESHOLD exact_quantizer_lossless exact_session
           (fst (@compress QcS exact_quantizer MinMax.tensor_sparsity
                           MinMax.SPARSITY_THRESHOLD exact_session 1 (Q2Qc 0)))
           1%Z (Q2Qc 0) (qargs GROUP (Some ActWEIGHT)) H_swapped
           eq_refl H3 eq_refl eq_refl H6 1%nat 0%nat H7 H8).
Defined.

(** The run: the weight written back is the weight read. *)
Example lossless_run :
  weight (layer (fst (@compress QcS exact_quantizer MinMax.tensor_sparsity
                        MinMax.SPARSITY_THRESHOLD exact_session 1 (Q2Qc 0))))
  = W_2x2.
Proof. vm_compute; reflexivity. Qed.

(** ** The accumulated Hessian *)

(** Two batches of one token each; position 1 of the input is never
    nonzero. *)
Definition calibration_dead : list (tensor QcS * tensor QcS) :=
  [(@T3 QcS [[[Q2Qc 1; Q2Qc 0]]; [[Q2Qc 2; Q2Qc 0]]], no_output)].

Lemma hessian_symmetric_nonneg_witness :
  (layer_kind (linear W_1x2 (qargs TENSOR None)) <> Conv2d /\
   Forall (well_shaped_batch
             (columns (init "fc" (linear W_1x2 (qargs TENSOR None)))))
          calibration_inputs /\
   Forall (@sqrt_exact QcS) (running_counts O (batch_counts calibration_inputs))) /\
  exists self' Hm,
    add_batches (init "fc" (linear W_1x2 (qargs TENSOR None))) calibration_inputs
    = (self', Returned) /\
    H self' = Some Hm /\
    (forall i j, entry Hm i j = entry Hm j i) /\
    (forall j, @sleb QcS (@s0 QcS) (entry Hm j j) = true).
Proof.
  assert (H1 : layer_kind (linear W_1x2 (qargs TENSOR None)) <> Conv2d) by discriminate.
  assert (H2 : Forall (well_shaped_batch
                         (columns (init "fc" (linear W_1x2 (qargs TENSOR None)))))
                      calibration_inputs).
  { constructor; [| constructor]; split; [vm_compute; lia | vm_compute; reflexivity]. }
  assert (H3 : Forall (@sqrt_exact QcS) (running_counts O (batch_counts calibration_inputs))).
  { constructor; [| constructor]; apply Qc_is_canon; vm_compute; reflexivity. }
  split; [exact (conj H1 (conj H2 H3)) |].
  exact (@hessian_symmetric_nonneg QcS MinMax.quantizer "fc"
           (linear W_1x2 (qargs TENSOR None)) calibration_inputs H1 H2 H3).
Defined.

Lemma dead_column_iff_unobserved_witness :
  (layer_kind (linear W_1x2 (qargs TENSOR None)) <> Conv2d /\
   Forall (well_shaped_batch
             (columns (init "fc" (linear W_1x2 (qargs TENSOR None)))))
          calibration_dead /\
   Forall (@sqrt_exact QcS) (running_counts O (batch_counts calibration_dead))) /\
  exists self' Hm,
    add_batches (init "fc" (linear W_1x2 (qargs TENSOR None))) calibration_dead
    = (self', Returned) /\
    H self' = Some Hm /\
    (forall j, (j < columns (init "fc" (linear W_1x2 (qargs TENSOR None))))%nat ->
       (entry Hm j j = @s0 QcS <-> unobserved calibration_dead j)) /\
    (forall j, (j < columns (init "fc" (linear W_1x2 (qargs TENSOR None))))%nat ->
       entry Hm j j = @s0 QcS -> isolated j Hm).
Proof.
  assert (H1 : layer_kind (linear W_1x2 (qargs TENSOR None)) <> Conv2d) by discriminate.
  assert (H2 : Forall (well_shaped_batch
                         (columns (init "fc" (linear W_1x2 (qargs TENSOR None)))))
                      calibration_dead).
  { constructor; [| constructor]; split; [vm_compute; lia | vm_compute; reflexivity]. }
  assert (H3 : Forall (@sqrt_exact QcS) (running_counts O (batch_counts calibration_dead))).
  { constructor; [| constructor]; apply Qc_is_canon; vm_compute; reflexivity. }
  split; [exact (conj H1 (conj H2 H3)) |].
  exact (@dead_column_iff_unobserved QcS MinMax.quantizer "fc"
           (linear W_1x2 (qargs TENSOR None)) calibration_dead H1 H2 H3).
Defined.

(** The run: the Hessian is [[5, 0], [0, 0]], and column 1 is dead. *)
Example calibration_dead_run :
  option_map show (H (fst (add_batches (init "fc" (linear W_1x2 (qargs TENSOR None)))
                                       calibration_dead)))
  = Some [[5; 0]; [0; 0]]%Q.
Proof. vm_compute; reflexivity. Qed.

(** ** The activation order *)

Lemma activation_order_descending_witness :
  (_apply_activation_ordering W_2x2 H_order
   = ([[Q2Qc (3 # 10); Q2Qc 1]; [Q2Qc (7 # 10); Q2Qc (-1 # 2)]],
      [[Q2Qc (9 # 10); Q2Qc (1 # 10)]; [Q2Qc (1 # 10); Q2Qc (1 # 2)]],
      [1; 0]%nat, [1; 0]%nat) /\
   (0 <= 1)%nat /\ (1 < nrows H_order)%nat) /\
  @sleb QcS (entry ([[Q2Qc (9 # 10); Q2Qc (1 # 10)]; [Q2Qc (1 # 10); Q2Qc (1 # 2)]] : mat QcS) 1 1)
            (entry ([[Q2Qc (9 # 10); Q2Qc (1 # 10)]; [Q2Qc (1 # 10); Q2Qc (1 # 2)]] : mat QcS) 0 0)
  = true.
Proof.
  assert (H1 : _apply_activation_ordering W_2x2 H_order
               = ([[Q2Qc (3 # 10); Q2Qc 1]; [Q2Qc (7 # 10); Q2Qc (-1 # 2)]],
                  [[Q2Qc (9 # 10); Q2Qc (1 # 10)]; [Q2Qc (1 # 10); Q2Qc (1 # 2)]],
                  [1; 0]%nat, [1; 0]%nat)) by (vm_compute; reflexivity).
  assert (H2 : (0 <= 1)%nat) by lia.
  assert (H3 : (1 < nrows H_order)%nat) by (vm_compute; lia).
  split; [exact (conj H1 (conj H2 H3)) |].
  exact (@activation_order_descending QcS W_2x2 H_order _ _ _ _ 0%nat 1%nat H1 H2 H3).
Defined.

(** ** The group index map *)

Lemma group_actorder_g_idx_witness :
  (quantization_scheme_weights (layer scenario_session)
   = Some (qargs GROUP (Some ActGROUP)) /\
   strategy (qargs GROUP (Some ActGROUP)) = GROUP /\
   actorder (qargs GROUP (Some ActGROUP)) = Some ActGROUP /\
   H scenario_session = Some H_scenario /\
   nrows H_scenario = columns scenario_session /\
   run_compress scenario_session 128 (Q2Qc (1 # 100))
   = (fst (run_compress scenario_session 128 (Q2Qc (1 # 100))), Returned)) /\
  exists g_idx,
    weight_g_idx (layer (fst (run_compress scenario_session 128 (Q2Qc (1 # 100)))))
    = Some g_idx /\
    length g_idx = columns scenario_session /\
    group_size (qargs GROUP (Some ActGROUP)) <> 0%Z /\
    forall c, (c < columns scenario_session)%nat ->
      nth c g_idx 0%Z
      = (Z.of_nat (nth c (argsort_nat (argsort_desc (diag (nrows H_scenario) H_scenario))) O)
         / group_size (qargs GROUP (Some ActGROUP)))%Z.
Proof.
  assert (H6 : run_compress scenario_session 128 (Q2Qc (1 # 100))
               = (fst (run_compress scenario_session 128 (Q2Qc (1 # 100))), Returned))
    by (apply returned_eta; vm_compute; reflexivity).
  split; [exact (conj eq_refl (conj eq_refl (conj eq_refl (conj eq_refl
                   (conj eq_refl H6))))) |].
  exact (@group_actorder_g_idx QcS MinMax.quantizer MinMax.tensor_sparsity
           MinMax.SPARSITY_THRESHOLD scenario_session
           (fst (run_compress scenario_session 128 (Q2Qc (1 # 100))))
           H_scenario 128%Z (Q2Qc (1 # 100)) (qargs GROUP (Some ActGROUP))
           eq_refl eq_refl eq_refl eq_refl eq_refl H6).
Defined.

(** * Saving compressed models: [compressed_tensors_utils.py]

    The second source file,
    [src/llmcompressor/transformers/sparsification/compressed_tensors_utils.py]. *)

(** ** [new_dtype_byte_size]

    A dtype is represented by its name, [str(dtype)]; names are ASCII
    strings, on which [\d] is the class of the ten digits. *)

From Stdlib Require Import Ascii.

Definition is_digit (c : ascii) : bool :=
  (48 <=? nat_of_ascii c)%nat && (nat_of_ascii c <=? 57)%nat.

(** What [(\d+)] captures at the head of [s]: the longest run of digits. *)
Fixpoint digit_run (s : string) : string :=
  match s with
  | String c rest => if is_digit c then String c (digit_run rest) else EmptyString
  | EmptyString => EmptyString
  end.

(** [re.search(r"[^\d](\d+)_?", s)]: group 1 of the leftmost match, a
    character that is not a digit followed by a run of digits; the optional
    underscore does not change what is captured. *)
Fixpoint bit_search (s : string) : option string :=
  match s with
  | EmptyString => None
  | String c rest =>
      match rest with
      | EmptyString => None
      | String d _ =>
          if negb (is_digit c) && is_digit d then Some (digit_run rest)
          else bit_search rest
      end
  end.

(** [int(digits)] for a string of digits.  The interpreter refuses to
    convert more digits than its limit (4300 by default); the limit is a
    setting of the interpreter and is left out: the theorems below are about
    names within it. *)
Fixpoint int_of_digits (acc : N) (s : string) : N :=
  match s with
  | EmptyString => acc
  | String c rest => int_of_digits (acc * 10 + N.of_nat (nat_of_ascii c - 48)) rest
  end.

(** The value returned: the float [1 / 8], or an integer number of bytes. *)
Inductive byte_size : Type :=
| Fraction (q : Q)
| Whole (n : N).

Definition torch_bool : string := "torch.bool".

Definition new_dtype_byte_size (dtype : string) : result byte_size :=
  if String.eqb dtype torch_bool then Ok (Fraction (1 # 8))
  else
    match bit_search dtype with
    | None => Raise (ValueError ("`dtype` is not a valid dtype: " ++ dtype ++ "."))
    | Some digits => Ok (Whole (int_of_digits 0 digits / 8))
    end.

(** Strings made of digits only, and strings without a digit. *)
Fixpoint all_digits (s : string) : bool :=
  match s with
  | EmptyString => true
  | String c rest => is_digit c && all_digits rest
  end.

Fixpoint no_digit (s : string) : bool :=
  match s with
  | EmptyString => true
  | String c rest => negb (is_digit c) && no_digit rest
  end.

(** [s] is empty or starts with a character that is not a digit. *)
Definition ends_run (s : string) : bool :=
  match s with
  | EmptyString => true
  | String c _ => negb (is_digit c)
  end.

Section DtypeByteSizeFacts.

Local Open Scope string_scope.

Lemma digit_run_app : forall digits post,
  all_digits digits = true -> ends_run post = true ->
  digit_run (digits ++ post) = digits.
Proof.
  induction digits as [| c digits IH]; intros post Hd Hp; simpl in *.
  - destruct post as [| c post]; [reflexivity |].
    simpl in *; destruct (is_digit c); [discriminate | reflexivity].
  - apply andb_prop in Hd; destruct Hd as [Hc Hd].
    rewrite Hc, IH by assumption; reflexivity.
Qed.

(** Leading digits are skipped: a match needs a character before the
    digits. *)
Lemma bit_search_lead : forall lead s,
  all_digits lead = true -> s <> "" -> bit_search (lead ++ s) = bit_search s.
Proof.
  induction lead as [| c lead IH]; intros s Hl Hs; [reflexivity |].
  simpl in Hl; apply andb_prop in Hl; destruct Hl as [Hc Hl].
  change (String c lead ++ s) with (String c (lead ++ s)).
  cbn [bit_search]; rewrite Hc; cbn [negb andb].
  destruct (lead ++ s) as [| d t] eqn:Heq.
  - destruct lead; [simpl in Heq; congruence | discriminate].
  - rewrite <- Heq; apply IH; assumption.
Qed.

Lemma bit_search_mid : forall mid digits post,
  mid <> "" -> no_digit mid = true ->
  digits <> "" -> all_digits digits = true -> ends_run post = true ->
  bit_search (mid ++ digits ++ post) = Some digits.
Proof.
  induction mid as [| c mid IH]; intros digits post Hm Hn Hd Ha Hp; [congruence |].
  simpl in Hn; apply andb_prop in Hn; destruct Hn as [Hc Hn].
  change (String c mid ++ digits ++ post) with (String c (mid ++ digits ++ post)).
  cbn [bit_search].
  destruct mid as [| c' mid].
  - cbn [append]. destruct digits as [| d digits]; [congruence |].
    cbn [append]; simpl in Ha; apply andb_prop in Ha as Ha'; destruct Ha' as [Hdd _].
    rewrite Hc, Hdd; cbn [andb].
    change (String d (digits ++ post)) with (String d digits ++ post).
    rewrite digit_run_app by assumption; reflexivity.
  - change (String c' mid ++ digits ++ post) with (String c' (mid ++ digits ++ post)).
    simpl in Hn; apply andb_prop in Hn as Hn'; destruct Hn' as [Hc' _].
    apply negb_true_iff in Hc'; rewrite Hc', andb_false_r.
    change (String c' (mid ++ digits ++ post)) with (String c' mid ++ digits ++ post).
    apply IH; try assumption; discriminate.
Qed.

Lemma no_digit_app : forall a b, no_digit (a ++ b) = no_digit a && no_digit b.
Proof.
  induction a as [| c a IH]; intros b; simpl; [reflexivity |].
  rewrite IH, andb_assoc; reflexivity.
Qed.

Lemma all_digits_not_no_digit : forall s,
  s <> "" -> all_digits s = true -> no_digit s = false.
Proof.
  intros [| c s] Hs Ha; [congruence |].
  simpl in *; apply andb_prop in Ha; destruct Ha as [-> _]; reflexivity.
Qed.

(** X10 -- A name with a number in it: after leading digits, if any, and at least
    one character that is not a digit, the first run of digits is the width
    in bits, and the size is its quotient by 8, so 0 below 8 bits. *)
Theorem dtype_byte_size_first_number : forall lead mid digits post,
  all_digits lead = true ->
  mid <> "" -> no_digit mid = true ->
  digits <> "" -> all_digits digits = true ->
  (String.length digits <= 4300)%nat ->
  ends_run post = true ->
  new_dtype_byte_size (lead ++ mid ++ digits ++ post)
  = Ok (Whole (int_of_digits 0 digits / 8)) /\
  ((int_of_digits 0 digits < 8)%N ->
   new_dtype_byte_size (lead ++ mid ++ digits ++ post) = Ok (Whole 0)).
Proof.
  intros lead mid digits post Hl Hm Hn Hd Ha _ Hp.
  assert (Hres : new_dtype_byte_size (lead ++ mid ++ digits ++ post)
                 = Ok (Whole (int_of_digits 0 digits / 8))).
  { unfold new_dtype_byte_size.
    destruct (String.eqb_spec (lead ++ mid ++ digits ++ post) torch_bool) as [Heq | _].
    - exfalso.
      assert (Hnd : no_digit (lead ++ mid ++ digits ++ post) = true)
        by (rewrite Heq; reflexivity).
      rewrite !no_digit_app, (all_digits_not_no_digit Hd Ha) in Hnd.
      rewrite andb_false_l, !andb_false_r in Hnd; discriminate.
    - rewrite bit_search_lead; [| exact Hl |].
      + rewrite bit_search_mid by assumption; reflexivity.
      + destruct mid; [congruence | discriminate]. }
  split; [exact Hres |].
  intros Hlt; rewrite Hres, N.div_small by exact Hlt; reflexivity.
Qed.

(** No digits after the leading ones: there is no match. *)
Lemma bit_search_none : forall mid, no_digit mid = true -> bit_search mid = None.
Proof.
  induction mid as [| c mid IH]; intros Hn; [reflexivity |].
  simpl in Hn; apply andb_prop in Hn; destruct Hn as [Hc Hn].
  cbn [bit_search]; destruct mid as [| d mid]; [reflexivity |].
  simpl in Hn; apply andb_prop in Hn as Hn'; destruct Hn' as [Hd _].
  apply negb_true_iff in Hd; rewrite Hd, andb_false_r; apply IH; exact Hn.
Qed.

(** A match gives a decomposition of the name. *)
Lemma bit_search_some : forall s digits,
  bit_search s = Some digits ->
  exists c rest, (exists before, s = before ++ String c rest) /\
                 is_digit c = false /\ digits = digit_run rest /\ digits <> "".
Proof.
  induction s as [| c s IH]; intros digits Hs; [discriminate |].
  cbn [bit_search] in Hs; destruct s as [| d t]; [discriminate |].
  destruct (negb (is_digit c) && is_digit d) eqn:Hm.
  - injection Hs as <-; apply andb_prop in Hm; destruct Hm as [Hc Hd].
    exists c, (String d t); split; [exists ""; reflexivity |].
    split; [apply negb_true_iff; exact Hc |]; split; [reflexivity |].
    simpl; rewrite Hd; discriminate.
  - destruct (IH digits Hs) as (c' & rest & [before Heq] & Hc' & Hdig & Hne).
    exists c', rest; split; [exists (String c before); simpl; rewrite Heq; reflexivity |].
    split; [exact Hc' |]; split; assumption.
Qed.

Lemma bit_search_digits : forall lead, all_digits lead = true -> bit_search lead = None.
Proof.
  induction lead as [| c lead IH]; intros Hl; [reflexivity |].
  simpl in Hl; apply andb_prop in Hl; destruct Hl as [Hc Hl].
  cbn [bit_search]; destruct lead as [| d lead]; [reflexivity |].
  rewrite Hc; cbn [negb andb]; apply IH; exact Hl.
Qed.

Lemma bit_search_none_inv : forall s,
  bit_search s = None ->
  exists lead mid, s = lead ++ mid /\ all_digits lead = true /\ no_digit mid = true.
Proof.
  induction s as [| c s IH]; intros Hs.
  - exists "", ""; repeat split; reflexivity.
  - cbn [bit_search] in Hs; destruct s as [| d t].
    + destruct (is_digit c) eqn:Hc.
      * exists (String c ""), ""; simpl; rewrite Hc; repeat split; reflexivity.
      * exists "", (String c ""); simpl; rewrite Hc; repeat split; reflexivity.
    + destruct (negb (is_digit c) && is_digit d) eqn:Hm; [discriminate |].
      destruct (IH Hs) as (lead & mid & Heq & Hl & Hn).
      destruct (is_digit c) eqn:Hc.
      * exists (String c lead), mid; simpl; rewrite Heq, Hc, Hl; repeat split; auto.
      * cbn [negb andb] in Hm.
        destruct lead as [| l lead].
        -- exists "", (String c mid); simpl in *; rewrite Heq, Hc, Hn; repeat split; auto.
        -- simpl in Heq; injection Heq as <- _.
           simpl in Hl; rewrite Hm in Hl; discriminate.
Qed.

(** X11 -- [new_dtype_byte_size] raises exactly on the names, other than that of
    [torch.bool], whose only digits are leading digits: some digits, then no
    digit at all. *)
Theorem dtype_byte_size_invalid : forall dtype,
  dtype <> torch_bool ->
  (String.length dtype <= 4300)%nat ->
  ((exists e, new_dtype_byte_size dtype = Raise e) <->
   exists lead mid,
     dtype = lead ++ mid /\ all_digits lead = true /\ no_digit mid = true) /\
  (forall e, new_dtype_byte_size dtype = Raise e ->
     e = ValueError ("`dtype` is not a valid dtype: " ++ dtype ++ ".")).
Proof.
  intros dtype Hb _; unfold new_dtype_byte_size.
  destruct (String.eqb_spec dtype torch_bool) as [Heq | _]; [congruence |].
  split; [split |].
  - intros [e He]; destruct (bit_search dtype) eqn:Hs; [discriminate |].
    apply bit_search_none_inv; exact Hs.
  - intros (lead & mid & -> & Hl & Hn).
    assert (Hs : bit_search (lead ++ mid) = None).
    { destruct mid as [| c mid].
      - replace (lead ++ "") with lead; [apply bit_search_digits; exact Hl |].
        clear; induction lead as [| c lead IH]; simpl; [| rewrite <- IH]; reflexivity.
      - rewrite bit_search_lead by (try assumption; discriminate).
        apply bit_search_none; exact Hn. }
    rewrite Hs; eexists; reflexivity.
  - intros e He; destruct (bit_search dtype); [discriminate |].
    injection He as <-; reflexivity.
Qed.

End DtypeByteSizeFacts.

(** ** [patch_tied_tensors_bug]

    The model is a tree of attributes whose leaves are tensor objects
    (Parameters and buffers, each with an identity); a tensor object holds
    its data in a storage, and two tensor objects are tied when they hold
    the same storage.  [parameter.data = parameter.data.clone()] gives the
    tensor object a newly allocated storage with the same contents. *)

Module TiedTensors.

(** What the function can raise: its own [ValueError] (with the tied keys
    expected and the group found), the [TypeError] of [set(None)], and the
    [AttributeError] of a path that does not lead to a tensor. *)
Inductive error : Type :=
| ValueError (expected found : list string)
| TypeError
| AttributeError (attr : string).

Inductive res (A : Type) : Type :=
| Got (a : A)
| Err (e : error).

Arguments Got {A} a.
Arguments Err {A} e.

Unset Elimination Schemes.

Inductive obj : Type :=
| Tensor (id : nat)
| Submodule (attrs : list (string * obj)).

Set Elimination Schemes.

(** [getattr(o, name)] *)
Fixpoint lookup (name : string) (attrs : list (string * obj)) : option obj :=
  match attrs with
  | [] => None
  | (k, o) :: rest => if String.eqb k name then Some o else lookup name rest
  end.

Definition getattr (o : obj) (name : string) : res obj :=
  match o with
  | Submodule attrs =>
      match lookup name attrs with
      | Some o' => Got o'
      | None => Err (AttributeError name)
      end
  | Tensor _ => Err (AttributeError name)
  end.

(** [reduce(getattr, tensor_parts, model)] *)
Fixpoint reduce_getattr (o : obj) (tensor_parts : list string) : res obj :=
  match tensor_parts with
  | [] => Got o
  | part :: rest =>
      match getattr o part with
      | Got o' => reduce_getattr o' rest
      | Err e => Err e
      end
  end.

(** [tensor_path.split(".")] *)
Fixpoint split_dot (s : string) : list string :=
  match s with
  | EmptyString => [EmptyString]
  | String c rest =>
      if Ascii.eqb c "."%char then EmptyString :: split_dot rest
      else match split_dot rest with
           | part :: parts => String c part :: parts
           | [] => [String c EmptyString]
           end
  end.

Section Store.

(** The contents of a storage. *)
Variable V : Type.

(** [data t] is the storage of the tensor object [t], [contents s] what the
    storage [s] holds, and [allocated] the number of storages allocated:
    the next [clone()] allocates the storage [allocated]. *)
Record Model : Type := MkModel {
  tie_word_embeddings : bool;
  _tied_weights_keys : option (list string);
  attributes : list (string * obj);
  data : nat -> nat;
  contents : nat -> V;
  allocated : nat
}.

Definition update {A : Type} (f : nat -> A) (k : nat) (v : A) : nat -> A :=
  fun k' => if (k' =? k)%nat then v else f k'.

(** [parameter.data = parameter.data.clone()] *)
Definition clone_data (m : Model) (t : nat) : Model :=
  {| tie_word_embeddings := tie_word_embeddings m;
     _tied_weights_keys := _tied_weights_keys m;
     attributes := attributes m;
     data := update (data m) t (allocated m);
     contents := update (contents m) (allocated m) (contents m (data m t));
     allocated := S (allocated m) |}.

(** The body of [for tensor_path in tensor_group]. *)
Definition untie (m : Model) (tensor_path : string) : res Model :=
  match reduce_getattr (Submodule (attributes m)) (split_dot tensor_path) with
  | Got (Tensor t) => Got (clone_data m t)
  | Got (Submodule _) => Err (AttributeError "data")
  | Err e => Err e
  end.

Fixpoint untie_group (m : Model) (tensor_group : list string) : Model * option error :=
  match tensor_group with
  | [] => (m, None)
  | tensor_path :: rest =>
      match untie m tensor_path with
      | Got m' => untie_group m' rest
      | Err e => (m, Some e)
      end
  end.

(** [set(model._tied_weights_keys).intersection(tensor_group)] is not
    empty. *)
Definition intersects (keys tensor_group : list string) : bool :=
  existsb (fun k => existsb (String.eqb k) tensor_group) keys.

(** The loop over [tensor_groups]; a group is the list of the names in the
    set, in the order in which the set is iterated. *)
Fixpoint patch_groups (m : Model) (tensor_groups : list (list string))
  : Model * option error :=
  match tensor_groups with
  | [] => (m, None)
  | tensor_group :: rest =>
      if (1 <? length tensor_group)%nat then
        match _tied_weights_keys m with
        | None => (m, Some TypeError)
        | Some keys =>
            if intersects keys tensor_group then
              match untie_group m tensor_group with
              | (m', None) => patch_groups m' rest
              | r => r
              end
            else (m, Some (ValueError keys tensor_group))
        end
      else patch_groups m rest
  end.

(** [_find_shared_tensors(get_state_dict_offloaded_model(model))], two
    library calls: the names of the state dict, grouped by storage. *)
Variable find_shared_tensors : Model -> list (list string).

(** The model as the call leaves it, and the error raised, if any. *)
Definition patch_tied_tensors_bug (model : Model) : Model * option error :=
  if tie_word_embeddings model then (model, None)
  else patch_groups model (find_shared_tensors model).

(** *** Facts *)

(** The tensor object that a name of the state dict leads to. *)
Definition names (m : Model) (tensor_path : string) (t : nat) : Prop :=
  reduce_getattr (Submodule (attributes m)) (split_dot tensor_path) = Got (Tensor t).

(** Every tensor object holds an allocated storage. *)
Definition well_formed (m : Model) : Prop := forall t, (data m t < allocated m)%nat.

(** The state of the loop: [m] against the model [m0] the call started
    from, with [C] the tensor objects cloned so far. *)
Record untied (m0 m : Model) (C : nat -> Prop) : Prop := {
  u_config : tie_word_embeddings m = tie_word_embeddings m0;
  u_keys : _tied_weights_keys m = _tied_weights_keys m0;
  u_attributes : attributes m = attributes m0;
  u_allocated : (allocated m0 <= allocated m)%nat;
  u_well_formed : well_formed m;
  u_contents : forall t, contents m (data m t) = contents m0 (data m0 t);
  u_fresh : forall t, C t -> (allocated m0 <= data m t)%nat;
  u_apart : forall t1 t2, C t1 -> C t2 -> t1 <> t2 -> data m t1 <> data m t2;
  u_kept : forall t, ~ C t -> data m t = data m0 t
}.

Lemma untied_start : forall m, well_formed m -> untied m m (fun _ => False).
Proof.
  intros m Hwf; constructor; try reflexivity; try assumption; try lia;
    intros; contradiction.
Qed.

Lemma untied_weaken : forall m0 m (C C' : nat -> Prop),
  (forall t, C t <-> C' t) -> untied m0 m C -> untied m0 m C'.
Proof.
  intros m0 m C C' Heq [H1 H2 H3 H4 H5 H6 H7 H8 H9]; constructor; try assumption.
  - intros t Ht; apply H7, Heq, Ht.
  - intros t1 t2 Ht1 Ht2; apply H8; apply Heq; assumption.
  - intros t Ht; apply H9; intros Hc; apply Ht, Heq, Hc.
Qed.

Lemma clone_data_untied : forall m0 m (C : nat -> Prop) t,
  untied m0 m C -> untied m0 (clone_data m t) (fun t' => C t' \/ t' = t).
Proof.
  intros m0 m C t [H1 H2 H3 H4 H5 H6 H7 H8 H9]; unfold well_formed in *.
  constructor; unfold well_formed;
    cbn [clone_data tie_word_embeddings _tied_weights_keys attributes
         data contents allocated]; try assumption.
  - lia.
  - intros t'; unfold update; destruct (t' =? t)%nat; [lia |].
    specialize (H5 t'); lia.
  - intros t'; unfold update.
    destruct (Nat.eqb_spec t' t) as [-> | Hne].
    + rewrite Nat.eqb_refl; apply H6.
    + pose proof (H5 t') as Hlt.
      destruct (Nat.eqb_spec (data m t') (allocated m)) as [Heq | _]; [lia | apply H6].
  - intros t' Ht'; unfold update.
    destruct (Nat.eqb_spec t' t) as [-> | Hne]; [exact H4 |].
    destruct Ht' as [Hc | Heq]; [apply H7, Hc | congruence].
  - intros t1 t2 Ht1 Ht2 Hne; unfold update.
    pose proof (H5 t1) as Hl1; pose proof (H5 t2) as Hl2.
    destruct (Nat.eqb_spec t1 t) as [-> | Hn1];
      destruct (Nat.eqb_spec t2 t) as [-> | Hn2]; try congruence; try lia.
    destruct Ht1 as [Hc1 | ?]; [| congruence].
    destruct Ht2 as [Hc2 | ?]; [| congruence].
    apply H8; assumption.
  - intros t' Ht'; unfold update.
    destruct (Nat.eqb_spec t' t) as [-> | Hne]; [exfalso; apply Ht'; right; reflexivity |].
    apply H9; intros Hc; apply Ht'; left; exact Hc.
Qed.

(** The tensor objects named by the paths of a list. *)
Definition named_in (m : Model) (paths : list string) (t : nat) : Prop :=
  exists p, In p paths /\ names m p t.

Lemma untie_group_untied : forall paths m0 m m' (C : nat -> Prop),
  untied m0 m C ->
  untie_group m paths = (m', None) ->
  untied m0 m' (fun t => C t \/ named_in m0 paths t).
Proof.
  induction paths as [| p paths IH]; intros m0 m m' C Hu Hrun; cbn [untie_group] in Hrun.
  - injection Hrun as <-; eapply untied_weaken; [| exact Hu].
    intros t; split; [left; assumption | intros [Hc | (p & [] & _)]; exact Hc].
  - unfold untie in Hrun.
    destruct (reduce_getattr (Submodule (attributes m)) (split_dot p))
      as [[t | attrs] | e] eqn:Hres; try discriminate.
    pose proof (clone_data_untied t Hu) as Hu'.
    specialize (IH m0 (clone_data m t) m' _ Hu' Hrun).
    eapply untied_weaken; [| exact IH].
    assert (Hn : names m0 p t) by (unfold names; rewrite <- (u_attributes Hu); exact Hres).
    intros t'; split.
    + intros [[Hc | ->] | (q & Hq & Hnq)].
      * left; exact Hc.
      * right; exists p; split; [left; reflexivity | exact Hn].
      * right; exists q; split; [right; exact Hq | exact Hnq].
    + intros [Hc | (q & [<- | Hq] & Hnq)].
      * left; left; exact Hc.
      * left; right; unfold names in Hn, Hnq; rewrite Hn in Hnq; congruence.
      * right; exists q; split; assumption.
Qed.

(** The tensor objects named by the groups of more than one name. *)
Definition named_shared (m : Model) (groups : list (list string)) (t : nat) : Prop :=
  exists g, In g groups /\ (1 < length g)%nat /\ named_in m g t.

Lemma patch_groups_untied : forall groups m0 m m' (C : nat -> Prop),
  untied m0 m C ->
  patch_groups m groups = (m', None) ->
  untied m0 m' (fun t => C t \/ named_shared m0 groups t).
Proof.
  induction groups as [| g groups IH]; intros m0 m m' C Hu Hrun; cbn [patch_groups] in Hrun.
  - injection Hrun as <-; eapply untied_weaken; [| exact Hu].
    intros t; split; [left; assumption | intros [Hc | (g & [] & _)]; exact Hc].
  - destruct (Nat.ltb_spec 1 (length g)) as [Hlen | Hlen].
    + destruct (_tied_weights_keys m) as [keys |]; [| discriminate].
      destruct (intersects keys g); [| discriminate].
      destruct (untie_group m g) as [m1 [e |]] eqn:Hg; [discriminate |].
      pose proof (untie_group_untied g Hu Hg) as Hu1.
      specialize (IH m0 m1 m' _ Hu1 Hrun).
      eapply untied_weaken; [| exact IH].
      intros t; split.
      * intros [[Hc | Hn] | (h & Hh & Hl & Hn)].
        -- left; exact Hc.
        -- right; exists g; split; [left; reflexivity | split; assumption].
        -- right; exists h; split; [right; exact Hh | split; assumption].
      * intros [Hc | (h & [<- | Hh] & Hl & Hn)].
        -- left; left; exact Hc.
        -- left; right; exact Hn.
        -- right; exists h; split; [exact Hh | split; assumption].
    + specialize (IH m0 m m' C Hu Hrun).
      eapply untied_weaken; [| exact IH].
      intros t; split.
      * intros [Hc | (h & Hh & Hl & Hn)]; [left; exact Hc |].
        right; exists h; split; [right; exact Hh | split; assumption].
      * intros [Hc | (h & [<- | Hh] & Hl & Hn)]; [left; exact Hc | lia |].
        right; exists h; split; [exact Hh | split; assumption].
Qed.

(** The invariant holds where the loops stop, whether they return or
    raise. *)
Lemma untie_group_some : forall paths m0 m (C : nat -> Prop),
  untied m0 m C -> exists C', untied m0 (fst (untie_group m paths)) C'.
Proof.
  induction paths as [| p paths IH]; intros m0 m C Hu; cbn [untie_group].
  - exists C; exact Hu.
  - unfold untie.
    destruct (reduce_getattr (Submodule (attributes m)) (split_dot p)) as [[t | attrs] | e];
      try (exists C; exact Hu).
    eapply IH, clone_data_untied, Hu.
Qed.

Lemma patch_groups_some : forall groups m0 m (C : nat -> Prop),
  untied m0 m C -> exists C', untied m0 (fst (patch_groups m groups)) C'.
Proof.
  induction groups as [| g groups IH]; intros m0 m C Hu; cbn [patch_groups].
  - exists C; exact Hu.
  - destruct (1 <? length g)%nat; [| eapply IH, Hu].
    destruct (_tied_weights_keys m) as [keys |]; [| exists C; exact Hu].
    destruct (intersects keys g); [| exists C; exact Hu].
    destruct (untie_group_some g Hu) as [C1 Hu1].
    destruct (untie_group m g) as [m1 [e |]]; cbn [fst] in *.
    + exists C1; exact Hu1.
    + eapply IH, Hu1.
Qed.

(** X12 -- Whatever the call does, it changes no value: the configuration, the
    attribute tree and the contents read through every tensor object are
    the same afterwards, whether it returns or raises. *)
Theorem patch_keeps_values : forall (model : Model),
  well_formed model ->
  tie_word_embeddings (fst (patch_tied_tensors_bug model)) = tie_word_embeddings model /\
  _tied_weights_keys (fst (patch_tied_tensors_bug model)) = _tied_weights_keys model /\
  attributes (fst (patch_tied_tensors_bug model)) = attributes model /\
  forall t,
    contents (fst (patch_tied_tensors_bug model)) (data (fst (patch_tied_tensors_bug model)) t)
    = contents model (data model t).
Proof.
  intros model Hwf; unfold patch_tied_tensors_bug.
  destruct (tie_word_embeddings model) eqn:Htie; cbn [fst].
  - rewrite Htie; repeat split; reflexivity.
  - destruct (patch_groups_some (find_shared_tensors model) (untied_start Hwf)) as [C Hu].
    rewrite <- Htie.
    split; [apply (u_config Hu) |]; split; [apply (u_keys Hu) |];
      split; [apply (u_attributes Hu) | apply (u_contents Hu)].
Qed.

(** X13 -- When the call returns on a model whose word embeddings are not tied,
    every tensor object named by a group of shared names holds a storage
    allocated during the call, no two of them hold the same storage, and
    every other tensor object holds the storage it held. *)
Theorem patch_unties : forall (model model' : Model),
  well_formed model ->
  tie_word_embeddings model = false ->
  patch_tied_tensors_bug model = (model', None) ->
  (forall t, named_shared model (find_shared_tensors model) t ->
     (allocated model <= data model' t)%nat) /\
  (forall t1 t2,
     named_shared model (find_shared_tensors model) t1 ->
     named_shared model (find_shared_tensors model) t2 ->
     t1 <> t2 -> data model' t1 <> data model' t2) /\
  (forall t, ~ named_shared model (find_shared_tensors model) t ->
     data model' t = data model t).
Proof.
  intros model model' Hwf Htie Hrun; unfold patch_tied_tensors_bug in Hrun.
  rewrite Htie in Hrun.
  pose proof (patch_groups_untied _ (untied_start Hwf) Hrun) as Hu.
  split; [| split].
  - intros t Ht; apply (u_fresh Hu); right; exact Ht.
  - intros t1 t2 H1 H2; apply (u_apart Hu); right; assumption.
  - intros t Ht; apply (u_kept Hu); intros [[] | Hn]; apply Ht, Hn.
Qed.

(** X15 -- With [_tied_weights_keys = None] the first group of shared names makes
    [set(None)] raise [TypeError], before any tensor is cloned. *)
Theorem patch_none_keys : forall (model : Model),
  tie_word_embeddings model = false ->
  _tied_weights_keys model = None ->
  (exists g, In g (find_shared_tensors model) /\ (1 < length g)%nat) ->
  patch_tied_tensors_bug model = (model, Some TypeError).
Proof.
  intros model Htie Hkeys Hex; unfold patch_tied_tensors_bug; rewrite Htie.
  induction (find_shared_tensors model) as [| g groups IH].
  - destruct Hex as (g & [] & _).
  - cbn [patch_groups]; destruct (Nat.ltb_spec 1 (length g)) as [Hlen | Hlen].
    + rewrite Hkeys; reflexivity.
    + apply IH; destruct Hex as (h & [<- | Hh] & Hl); [lia |].
      exists h; split; assumption.
Qed.

Lemma untie_group_returns : forall paths m0 m (C : nat -> Prop),
  untied m0 m C ->
  (forall p, In p paths -> exists t, names m0 p t) ->
  snd (untie_group m paths) = None.
Proof.
  induction paths as [| p paths IH]; intros m0 m C Hu Hres; cbn [untie_group];
    [reflexivity |].
  destruct (Hres p (or_introl eq_refl)) as [t Ht].
  unfold untie, names in *; rewrite (u_attributes Hu), Ht.
  eapply IH; [apply clone_data_untied, Hu |].
  intros q Hq; apply Hres; right; exact Hq.
Qed.

(** X14 -- A group of shared names without a tied key makes the call raise its
    [ValueError]; the groups before it have been untied by then, and stay
    so: the call does not roll back. *)
Theorem patch_unexpected_group :
  forall (model : Model) keys (before : list (list string)) g after,
  well_formed model ->
  tie_word_embeddings model = false ->
  _tied_weights_keys model = Some keys ->
  find_shared_tensors model = before ++ g :: after ->
  (forall h, In h before -> (1 < length h)%nat ->
     intersects keys h = true /\ forall p, In p h -> exists t, names model p t) ->
  (1 < length g)%nat ->
  intersects keys g = false ->
  snd (patch_tied_tensors_bug model) = Some (ValueError keys g) /\
  forall t, named_shared model before t ->
    (allocated model <= data (fst (patch_tied_tensors_bug model)) t)%nat.
Proof.
  intros model keys before g after Hwf Htie Hkeys Hgroups Hbefore Hlen Hno.
  unfold patch_tied_tensors_bug; rewrite Htie, Hgroups.
  assert (Hgen : forall pre m (C : nat -> Prop),
            untied model m C ->
            (forall h, In h pre -> (1 < length h)%nat ->
               intersects keys h = true /\ forall p, In p h -> exists t, names model p t) ->
            snd (patch_groups m (pre ++ g :: after)) = Some (ValueError keys g) /\
            forall t, C t \/ named_shared model pre t ->
              (allocated model <= data (fst (patch_groups m (pre ++ g :: after))) t)%nat).
  { induction pre as [| h pre IH]; intros m C Hu Hpre.
    - cbn [app patch_groups]; apply Nat.ltb_lt in Hlen; rewrite Hlen.
      rewrite (u_keys Hu), Hkeys, Hno; cbn [fst snd]; split; [reflexivity |].
      intros t [Hc | (h & [] & _)]; apply (u_fresh Hu), Hc.
    - change ((h :: pre) ++ g :: after) with (h :: (pre ++ g :: after)).
      cbn [patch_groups].
      assert (Hpre' : forall h', In h' pre -> (1 < length h')%nat ->
                intersects keys h' = true /\
                forall p, In p h' -> exists t, names model p t)
        by (intros h' Hh'; apply Hpre; right; exact Hh').
      destruct (Nat.ltb_spec 1 (length h)) as [Hl | Hl].
      + destruct (Hpre h (or_introl eq_refl) Hl) as [Hint Hres].
        rewrite (u_keys Hu), Hkeys, Hint.
        pose proof (untie_group_returns h Hu Hres) as Hret.
        destruct (untie_group m h) as [m1 r] eqn:Hg; cbn [snd] in Hret; subst r.
        pose proof (untie_group_untied h Hu Hg) as Hu1.
        destruct (IH m1 _ Hu1 Hpre') as [Hs Hf]; split; [exact Hs |].
        intros t [Hc | (h' & [<- | Hh'] & Hl' & Hn)]; apply Hf.
        * left; left; exact Hc.
        * left; right; exact Hn.
        * right; exists h'; split; [exact Hh' | split; assumption].
      + destruct (IH m C Hu Hpre') as [Hs Hf]; split; [exact Hs |].
        intros t [Hc | (h' & [<- | Hh'] & Hl' & Hn)]; [apply Hf; left; exact Hc | lia |].
        apply Hf; right; exists h'; split; [exact Hh' | split; assumption]. }
  destruct (Hgen before model _ (untied_start Hwf) Hbefore) as [Hs Hf].
  split; [exact Hs |]; intros t Ht; apply Hf; right; exact Ht.
Qed.

End Store.

End TiedTensors.

(** ** [modify_save_pretrained] *)

Module SavePretrained.

(** *** Installing the wrapper

    Only what the guard of [save_pretrained_compressed] reads is kept of a
    function object: the flags set on it ([__dict__]) and, for the wrapper,
    the model it refers to and the function it wraps. *)

Inductive function : Type :=
| class_function (__dict__ : list (string * bool))
| wrapper_function (__dict__ : list (string * bool)) (model_ref : nat)
                   (__wrapped__ : function).

Definition function_dict (f : function) : list (string * bool) :=
  match f with
  | class_function d => d
  | wrapper_function d _ _ => d
  end.

(** What [model.save_pretrained] evaluates to: the function of the class
    bound to the model, or whatever was stored on the instance, returned as
    it is. *)
Inductive method : Type :=
| bound_method (__self__ : nat) (__func__ : function)
| plain_function (f : function).

Record PreTrainedModel : Type := MkPreTrainedModel {
  id : nat;
  class_save_pretrained : function;
  instance_save_pretrained : option method
}.

Definition get_save_pretrained (model : PreTrainedModel) : method :=
  match instance_save_pretrained model with
  | Some m => m
  | None => bound_method (id model) (class_save_pretrained model)
  end.

Fixpoint dict_get (d : list (string * bool)) (key : string) (default : bool) : bool :=
  match d with
  | [] => default
  | (k, v) :: rest => if String.eqb k key then v else dict_get rest key default
  end.

(** [getattr(m, name, False)] for a flag: a bound method forwards the
    lookup to its function. *)
Definition getattr_flag (m : method) (name : string) : bool :=
  match m with
  | bound_method _ f => dict_get (function_dict f) name false
  | plain_function f => dict_get (function_dict f) name false
  end.

(** [save_pretrained_compressed(save_pretrained_method)]: the guard reads
    [_overridden]; the wrapper is built by [wraps], which copies the
    [__dict__] of the original, and is then marked [_overriden]. *)
Definition save_pretrained_compressed (save_pretrained_method : method) : result method :=
  if getattr_flag save_pretrained_method "_overridden" then Ok save_pretrained_method
  else
    match save_pretrained_method with
    | plain_function _ => Raise (AttributeError "__self__")
    | bound_method __self__ original_save_pretrained =>
        Ok (plain_function
              (wrapper_function
                 (("_overriden"%string, true) :: function_dict original_save_pretrained)
                 __self__ original_save_pretrained))
    end.

(** [model.save_pretrained = save_pretrained_compressed(model.save_pretrained)] *)
Definition modify_save_pretrained (model : PreTrainedModel) : result PreTrainedModel :=
  do m <- save_pretrained_compressed (get_save_pretrained model);
  Ok {| id := id model;
        class_save_pretrained := class_save_pretrained model;
        instance_save_pretrained := Some m |}.

(** *** The wrapper *)

Section Wrapper.

(** The types of the libraries. *)
Variables Model StateDict SparsityConfig GlobalSparsity SparsityStructure
          Compressor Value : Type.

(** The library calls of the wrapper. *)
Variable get_state_dict_offloaded_model : Model -> option StateDict.
Variable len : StateDict -> nat.
Variable infer_global_sparsity : Model -> option StateDict -> GlobalSparsity.
Variable infer_sparsity_structure : unit -> SparsityStructure.
Variable set_global_sparsity : SparsityConfig -> GlobalSparsity -> SparsityConfig.
Variable set_sparsity_structure : SparsityConfig -> SparsityStructure -> SparsityConfig.
Variable from_pretrained : Model -> option StateDict -> option SparsityConfig.
Variable infer_quantization_format : Model -> option SparsityConfig -> option string.
Variable from_pretrained_model :
  Model -> option SparsityConfig -> option string -> option Compressor.
Variable compress : Compressor -> Model -> StateDict -> StateDict.
Variable py_True : Value.









End Wrapper.

(** *** The guard *)

(** X17 -- The guard reads the flag [_overridden], the wrapper is marked
    [_overriden]: on a model whose class function carries no flag
    [_overridden], [modify_save_pretrained] installs the wrapper, and a
    second call does not return the wrapper installed but goes on to read
    [__self__] of a plain function, which raises [AttributeError]. *)
Theorem modify_twice_raises : forall model,
  instance_save_pretrained model = None ->
  dict_get (function_dict (class_save_pretrained model)) "_overridden" false = false ->
  exists model1 wrapper,
    modify_save_pretrained model = Ok model1 /\
    instance_save_pretrained model1 = Some (plain_function wrapper) /\
    dict_get (function_dict wrapper) "_overriden" false = true /\
    dict_get (function_dict wrapper) "_overridden" false = false /\
    modify_save_pretrained model1 = Raise (AttributeError "__self__").
Proof.
  intros model Hinst Hflag.
  unfold modify_save_pretrained at 1; unfold get_save_pretrained; rewrite Hinst.
  unfold save_pretrained_compressed; cbn [getattr_flag]; rewrite Hflag; cbn [bind].
  eexists; eexists; split; [reflexivity |]; cbn [instance_save_pretrained].
  split; [reflexivity |]; split; [reflexivity |].
  assert (Hw : dict_get (("_overriden"%string, true)
                          :: function_dict (class_save_pretrained model))
                        "_overridden" false = false).
  { cbn [dict_get]; exact Hflag. }
  split; [exact Hw |].
  unfold modify_save_pretrained, get_save_pretrained; cbn [instance_save_pretrained].
  unfold save_pretrained_compressed; cbn [getattr_flag function_dict].
  rewrite Hw; reflexivity.
Qed.

End SavePretrained.

(** ** Worked runs for the second file *)

Section SecondFileRuns.

Local Open Scope string_scope.

(** [torch.float8_e4m3fn] occupies one byte. *)
Lemma dtype_byte_size_first_number_witness :
  (all_digits "" = true /\ "torch.float" <> "" /\ no_digit "torch.float" = true /\
   "8" <> "" /\ all_digits "8" = true /\ (String.length "8" <= 4300)%nat /\
   ends_run "_e4m3fn" = true) /\
  new_dtype_byte_size ("" ++ "torch.float" ++ "8" ++ "_e4m3fn")
  = Ok (Whole (int_of_digits 0 "8" / 8)) /\
  ((int_of_digits 0 "8" < 8)%N ->
   new_dtype_byte_size ("" ++ "torch.float" ++ "8" ++ "_e4m3fn") = Ok (Whole 0)).
Proof.
  assert (H2 : "torch.float" <> "") by discriminate.
  assert (H4 : "8" <> "") by discriminate.
  assert (H6 : (String.length "8" <= 4300)%nat) by (simpl; lia).
  split; [exact (conj eq_refl (conj H2 (conj eq_refl (conj H4 (conj eq_refl
                   (conj H6 eq_refl)))))) |].
  exact (@dtype_byte_size_first_number "" "torch.float" "8" "_e4m3fn"
           eq_refl H2 eq_refl H4 eq_refl H6 eq_refl).
Defined.

Example dtype_byte_size_runs :
  new_dtype_byte_size "torch.float8_e4m3fn" = Ok (Whole 1) /\
  new_dtype_byte_size "torch.bfloat16" = Ok (Whole 2) /\
  new_dtype_byte_size "torch.uint4" = Ok (Whole 0) /\
  new_dtype_byte_size "torch.bool" = Ok (Fraction (1 # 8)) /\
  new_dtype_byte_size "8bit" = Raise (ValueError "`dtype` is not a valid dtype: 8bit.").
Proof. repeat split; reflexivity. Qed.

Lemma dtype_byte_size_invalid_witness :
  ("8bit" <> torch_bool /\ (String.length "8bit" <= 4300)%nat) /\
  ((exists e, new_dtype_byte_size "8bit" = Raise e) <->
   exists lead mid,
     "8bit" = lead ++ mid /\ all_digits lead = true /\ no_digit mid = true) /\
  (forall e, new_dtype_byte_size "8bit" = Raise e ->
     e = ValueError ("`dtype` is not a valid dtype: " ++ "8bit" ++ ".")).
Proof.
  assert (H1 : "8bit" <> torch_bool) by discriminate.
  assert (H2 : (String.length "8bit" <= 4300)%nat) by (simpl; lia).
  split; [exact (conj H1 H2) |].
  exact (@dtype_byte_size_invalid "8bit" H1 H2).
Defined.

(** Input and output embeddings: two tensor objects on one storage. *)
Definition embedding_tree : list (string * TiedTensors.obj) :=
  [("model",
    TiedTensors.Submodule
      [("embed_tokens", TiedTensors.Submodule [("weight", TiedTensors.Tensor 0)])]);
   ("lm_head", TiedTensors.Submodule [("weight", TiedTensors.Tensor 1)])].

Definition tied_model (keys : option (list string)) : TiedTensors.Model string :=
  {| TiedTensors.tie_word_embeddings := false;
     TiedTensors._tied_weights_keys := keys;
     TiedTensors.attributes := embedding_tree;
     TiedTensors.data := fun _ => O;
     TiedTensors.contents := fun _ => "embedding";
     TiedTensors.allocated := 1 |}.

Definition shared_embeddings (_ : TiedTensors.Model string) : list (list string) :=
  [["model.embed_tokens.weight"; "lm_head.weight"]].

Definition shared_and_unexpected (_ : TiedTensors.Model string) : list (list string) :=
  [["model.embed_tokens.weight"; "lm_head.weight"]; ["a.weight"; "b.weight"]].

Lemma tied_model_well_formed : forall keys, TiedTensors.well_formed (tied_model keys).
Proof. intros keys t; simpl; lia. Qed.

Lemma patch_keeps_values_witness :
  TiedTensors.well_formed (tied_model (Some ["lm_head.weight"])) /\
  TiedTensors.tie_word_embeddings
    (fst (TiedTensors.patch_tied_tensors_bug shared_embeddings
            (tied_model (Some ["lm_head.weight"]))))
  = TiedTensors.tie_word_embeddings (tied_model (Some ["lm_head.weight"])) /\
  TiedTensors._tied_weights_keys
    (fst (TiedTensors.patch_tied_tensors_bug shared_embeddings
            (tied_model (Some ["lm_head.weight"]))))
  = TiedTensors._tied_weights_keys (tied_model (Some ["lm_head.weight"])) /\
  TiedTensors.attributes
    (fst (TiedTensors.patch_tied_tensors_bug shared_embeddings
            (tied_model (Some ["lm_head.weight"]))))
  = TiedTensors.attributes (tied_model (Some ["lm_head.weight"])) /\
  forall t,
    TiedTensors.contents
      (fst (TiedTensors.patch_tied_tensors_bug shared_embeddings
              (tied_model (Some ["lm_head.weight"]))))
      (TiedTensors.data
         (fst (TiedTensors.patch_tied_tensors_bug shared_embeddings
                 (tied_model (Some ["lm_head.weight"])))) t)
    = TiedTensors.contents (tied_model (Some ["lm_head.weight"]))
        (TiedTensors.data (tied_model (Some ["lm_head.weight"])) t).
Proof.
  split; [exact (tied_model_well_formed (Some ["lm_head.weight"])) |].
  exact (@TiedTensors.patch_keeps_values string shared_embeddings
           (tied_model (Some ["lm_head.weight"]))
           (tied_model_well_formed (Some ["lm_head.weight"]))).
Defined.

Lemma patch_unties_witness :
  (TiedTensors.well_formed (tied_model (Some ["lm_head.weight"])) /\
   TiedTensors.tie_word_embeddings (tied_model (Some ["lm_head.weight"])) = false /\
   TiedTensors.patch_tied_tensors_bug shared_embeddings (tied_model (Some ["lm_head.weight"]))
   = (fst (TiedTensors.patch_tied_tensors_bug shared_embeddings
             (tied_model (Some ["lm_head.weight"]))), None)) /\
  (forall t,
     TiedTensors.named_shared (tied_model (Some ["lm_head.weight"]))
       (shared_embeddings (tied_model (Some ["lm_head.weight"]))) t ->
     (TiedTensors.allocated (tied_model (Some ["lm_head.weight"]))
      <= TiedTensors.data
           (fst (TiedTensors.patch_tied_tensors_bug shared_embeddings
                   (tied_model (Some ["lm_head.weight"])))) t)%nat) /\
  (forall t1 t2,
     TiedTensors.named_shared (tied_model (Some ["lm_head.weight"]))
       (shared_embeddings (tied_model (Some ["lm_head.weight"]))) t1 ->
     TiedTensors.named_shared (tied_model (Some ["lm_head.weight"]))
       (shared_embeddings (tied_model (Some ["lm_head.weight"]))) t2 ->
     t1 <> t2 ->
     TiedTensors.data
       (fst (TiedTensors.patch_tied_tensors_bug shared_embeddings
               (tied_model (Some ["lm_head.weight"])))) t1
     <> TiedTensors.data
          (fst (TiedTensors.patch_tied_tensors_bug shared_embeddings
                  (tied_model (Some ["lm_head.weight"])))) t2) /\
  (forall t,
     ~ TiedTensors.named_shared (tied_model (Some ["lm_head.weight"]))
         (shared_embeddings (tied_model (Some ["lm_head.weight"]))) t ->
     TiedTensors.data
       (fst (TiedTensors.patch_tied_tensors_bug shared_embeddings
               (tied_model (Some ["lm_head.weight"])))) t
     = TiedTensors.data (tied_model (Some ["lm_head.weight"])) t).
Proof.
  assert (H3 : TiedTensors.patch_tied_tensors_bug shared_embeddings
                 (tied_model (Some ["lm_head.weight"]))
               = (fst (TiedTensors.patch_tied_tensors_bug shared_embeddings
                         (tied_model (Some ["lm_head.weight"]))), None))
    by reflexivity.
  split; [exact (conj (tied_model_well_formed (Some ["lm_head.weight"])) (conj eq_refl H3)) |].
  exact (@TiedTensors.patch_unties string shared_embeddings
           (tied_model (Some ["lm_head.weight"]))
           (fst (TiedTensors.patch_tied_tensors_bug shared_embeddings
                   (tied_model (Some ["lm_head.weight"]))))
           (tied_model_well_formed (Some ["lm_head.weight"])) eq_refl H3).
Defined.

(** The run: both tensor objects end on storages of their own. *)
Example patch_unties_run :
  let model' := fst (TiedTensors.patch_tied_tensors_bug shared_embeddings
                       (tied_model (Some ["lm_head.weight"]))) in
  TiedTensors.data (tied_model (Some ["lm_head.weight"])) 0 = 0%nat /\
  TiedTensors.data (tied_model (Some ["lm_head.weight"])) 1 = 0%nat /\
  TiedTensors.data model' 0 = 1%nat /\ TiedTensors.data model' 1 = 2%nat /\
  TiedTensors.contents model' 1 = "embedding" /\
  TiedTensors.contents model' 2 = "embedding".
Proof. repeat split; reflexivity. Qed.

Lemma patch_none_keys_witness :
  (TiedTensors.tie_word_embeddings (tied_model None) = false /\
   TiedTensors._tied_weights_keys (tied_model None) = None /\
   (exists g, In g (shared_embeddings (tied_model None)) /\ (1 < length g)%nat)) /\
  TiedTensors.patch_tied_tensors_bug shared_embeddings (tied_model None)
  = (tied_model None, Some TiedTensors.TypeError).
Proof.
  assert (H3 : exists g, In g (shared_embeddings (tied_model None)) /\ (1 < length g)%nat).
  { eexists; split; [left; reflexivity | simpl; lia]. }
  split; [exact (conj eq_refl (conj eq_refl H3)) |].
  exact (@TiedTensors.patch_none_keys string shared_embeddings (tied_model None)
           eq_refl eq_refl H3).
Defined.

Lemma patch_unexpected_group_witness :
  (TiedTensors.well_formed (tied_model (Some ["lm_head.weight"])) /\
   TiedTensors.tie_word_embeddings (tied_model (Some ["lm_head.weight"])) = false /\
   TiedTensors._tied_weights_keys (tied_model (Some ["lm_head.weight"]))
   = Some ["lm_head.weight"] /\
   shared_and_unexpected (tied_model (Some ["lm_head.weight"]))
   = ([["model.embed_tokens.weight"; "lm_head.weight"]]
        ++ ["a.weight"; "b.weight"] :: [])%list /\
   (forall h, In h [["model.embed_tokens.weight"; "lm_head.weight"]] ->
      (1 < length h)%nat ->
      TiedTensors.intersects ["lm_head.weight"] h = true /\
      forall p, In p h ->
        exists t, TiedTensors.names (tied_model (Some ["lm_head.weight"])) p t) /\
   (1 < length ["a.weight"; "b.weight"])%nat /\
   TiedTensors.intersects ["lm_head.weight"] ["a.weight"; "b.weight"] = false) /\
  snd (TiedTensors.patch_tied_tensors_bug shared_and_unexpected
         (tied_model (Some ["lm_head.weight"])))
  = Some (TiedTensors.ValueError ["lm_head.weight"] ["a.weight"; "b.weight"]) /\
  forall t,
    TiedTensors.named_shared (tied_model (Some ["lm_head.weight"]))
      [["model.embed_tokens.weight"; "lm_head.weight"]] t ->
    (TiedTensors.allocated (tied_model (Some ["lm_head.weight"]))
     <= TiedTensors.data
          (fst (TiedTensors.patch_tied_tensors_bug shared_and_unexpected
                  (tied_model (Some ["lm_head.weight"])))) t)%nat.
Proof.
  assert (H5 : forall h, In h [["model.embed_tokens.weight"; "lm_head.weight"]] ->
             (1 < length h)%nat ->
             TiedTensors.intersects ["lm_head.weight"] h = true /\
             forall p, In p h ->
               exists t, TiedTensors.names (tied_model (Some ["lm_head.weight"])) p t).
  { intros h [<- | []] _; split; [reflexivity |].
    intros p [<- | [<- | []]]; [exists 0%nat | exists 1%nat]; reflexivity. }
  assert (H6 : (1 < length ["a.weight"; "b.weight"])%nat) by (simpl; lia).
  split; [exact (conj (tied_model_well_formed (Some ["lm_head.weight"]))
                   (conj eq_refl (conj eq_refl (conj eq_refl (conj H5 (conj H6 eq_refl)))))) |].
  exact (@TiedTensors.patch_unexpected_group string shared_and_unexpected
           (tied_model (Some ["lm_head.weight"])) ["lm_head.weight"]
           [["model.embed_tokens.weight"; "lm_head.weight"]] ["a.weight"; "b.weight"] []
           (tied_model_well_formed (Some ["lm_head.weight"])) eq_refl eq_refl eq_refl
           H5 H6 eq_refl).
Defined.

(** A model whose class defines [save_pretrained] without any flag. *)
Definition fresh_model : SavePretrained.PreTrainedModel :=
  {| SavePretrained.id := 0;
     SavePretrained.class_save_pretrained := SavePretrained.class_function [];
     SavePretrained.instance_save_pretrained := None |}.

Lemma modify_twice_raises_witness :
  (SavePretrained.instance_save_pretrained fresh_model = None /\
   SavePretrained.dict_get
     (SavePretrained.function_dict (SavePretrained.class_save_pretrained fresh_model))
     "_overridden" false = false) /\
  exists model1 wrapper,
    SavePretrained.modify_save_pretrained fresh_model = Ok model1 /\
    SavePretrained.instance_save_pretrained model1
    = Some (SavePretrained.plain_function wrapper) /\
    SavePretrained.dict_get (SavePretrained.function_dict wrapper) "_overriden" false = true /\
    SavePretrained.dict_get (SavePretrained.function_dict wrapper) "_overridden" false = false /\
    SavePretrained.modify_save_pretrained model1 = Raise (AttributeError "__self__").
Proof.
  split; [exact (conj eq_refl eq_refl) |].
  exact (@SavePretrained.modify_twice_raises fresh_model eq_refl eq_refl).
Defined.

End SecondFileRuns.
